(** * Show controller of the movie-ticket-booking backend

    A shallow embedding of the show controller ([fetchWithRetry],
    [getNowPlayingMovies], [addShow], [getShows], [getShow]) and the
    properties of its retrying fetch layer, its fetch-or-reuse movie cache,
    its show scheduler and its availability queries.

    The controller is asynchronous JavaScript.  Each handler is embedded as
    a computation in a small monad [M] that threads the state of the
    persisted collections and the log of effects, may throw an [error], and
    reads the outside world (the catalog API, the clock, the persistence
    layer's faults) from an environment of oracles. *)

From Stdlib Require Import ZArith QArith Qround Qabs Lia Lqa Ascii String.
From stdpp Require Import base tactics option list gmap strings pretty sorting.

Local Open Scope string_scope.
Local Open Scope list_scope.
Local Open Scope Z_scope.
Local Set Warnings "-register-all".

(** ** JavaScript values that cross the controller *)

(** Parsed JSON, as axios hands it over in [response.data]; [JUndefined] is
    the value of a property that is not there. *)
Inductive json :=
| JUndefined
| JNull
| JBool (b : bool)
| JNum (q : Q)
| JStr (s : string)
| JArr (items : list json)
| JObj (fields : list (string * json)).

(** What [name] a thrown JavaScript error has. *)
Inductive error_name :=
| AxiosError
| TypeError
| RangeError
| MongoServerError
| ValidationError.

(** A thrown [Error] object: the controller only ever reads [message]. *)
Record error := Error { err_name : error_name; message : string }.

#[global] Instance error_name_eq_dec : EqDecision error_name.
Proof. solve_decision. Defined.
#[global] Instance error_eq_dec : EqDecision error.
Proof. solve_decision. Defined.

(** Lookup of an own property in an object literal. *)
Fixpoint assoc (k : string) (fields : list (string * json)) : json :=
  match fields with
  | [] => JUndefined
  | (k', v) :: rest => if String.eqb k k' then v else assoc k rest
  end.

(** [v.k]: reading a property of [undefined] or [null] throws a TypeError,
    an object yields the property, any other value yields [undefined] (none
    of the property names the controller reads is a builtin of strings,
    numbers, booleans or arrays). *)
Definition prop (v : json) (k : string) : json + error :=
  match v with
  | JUndefined =>
      inr (Error TypeError
             ("Cannot read properties of undefined (reading '" +:+ k +:+ "')"))
  | JNull =>
      inr (Error TypeError
             ("Cannot read properties of null (reading '" +:+ k +:+ "')"))
  | JObj fields => inl (assoc k fields)
  | _ => inl JUndefined
  end.

(** JavaScript truthiness (NaN is not represented in [json]). *)
Definition truthy (v : json) : bool :=
  match v with
  | JUndefined | JNull => false
  | JBool b => b
  | JNum q => negb (Qeq_bool q 0)
  | JStr s => negb (String.eqb s "")
  | JArr _ | JObj _ => true
  end.

(** [a || b] *)
Definition js_or (a b : json) : json := if truthy a then a else b.

(** ** Numbers as strings

    A JavaScript number is a double.  [Q] holds every finite double; what
    follows is the conversion of a number to a string, as template literals
    and [String] do it. *)

Definition Qlt_bool (x y : Q) : bool := negb (Qle_bool y x).

(** The largest [e] with [2^e ≤ q], for a positive [q]. *)
Definition binary_exponent (q : Q) : Z :=
  let e := Z.log2 (Qnum q) - Z.log2 (Zpos (Qden q)) in
  if Qle_bool (2 ^ e) q then e else e - 1.

(** The largest [n] with [10^n ≤ q], for a positive [q]. *)
Definition decimal_exponent (q : Q) : Z :=
  let n := (binary_exponent q * 30103) / 100000 in
  if Qle_bool (10 ^ (n + 1)) q then n + 1
  else if Qle_bool (10 ^ n) q then n else n - 1.

(** The distance from the double [q] to the next double above it. *)
Definition ulp (q : Q) : Q := (2 ^ (Z.max (binary_exponent q) (-1022) - 52))%Q.

(** The distance from the double [q] to the next double below it. *)
Definition gap_below (q : Q) : Q :=
  if Qeq_bool q (2 ^ binary_exponent q) && (-1022 <? binary_exponent q)
  then (ulp q / 2)%Q else ulp q.

Definition even_mantissa (q : Q) : bool := Z.even (Qfloor (q / ulp q)).

(** Whether the decimal [c] is read as the double [q]: it is nearer to [q]
    than to its neighbours, a tie going to the even mantissa. *)
Definition reads_back (q c : Q) : bool :=
  let '(d, gap) := if Qle_bool c q then (2 * (q - c), gap_below q)%Q
                   else (2 * (c - q), ulp q)%Q in
  Qlt_bool d gap || (even_mantissa q && Qeq_bool d gap).

(** The integer [s] of [k] digits for which [s * 10^(n-k)] is read as [q],
    the nearest to [q] when there are two. *)
Definition digits_of_length (q : Q) (n k : Z) : option Z :=
  let scale := (10 ^ (n - k))%Q in
  let lo := Qfloor (q / scale) in
  let hi := lo + 1 in
  let ok_lo := (10 ^ (k - 1) <=? lo) && reads_back q (inject_Z lo * scale) in
  let ok_hi := reads_back q (inject_Z hi * scale) in
  match ok_lo, ok_hi with
  | true, true =>
      let below := (q - inject_Z lo * scale)%Q in
      let above := (inject_Z hi * scale - q)%Q in
      if Qlt_bool below above then Some lo
      else if Qlt_bool above below then Some hi
      else if Z.even lo then Some lo else Some hi
  | true, false => Some lo
  | false, true => Some hi
  | false, false => None
  end.

(** The fewest digits that are read as [q], with their number. *)
Fixpoint shortest_digits (q : Q) (n : Z) (k : Z) (fuel : nat) : Z * Z :=
  match fuel with
  | O => (Qfloor (q / 10 ^ (n - k)), k)
  | S fuel' =>
      match digits_of_length q n k with
      | Some s => (s, k)
      | None => shortest_digits q n (k + 1) fuel'
      end
  end.

Definition zeros (n : Z) : string := String.concat "" (replicate (Z.to_nat n) "0").

(** The decimal form of the digits [ds] with the point after the first
    [n] of them, as Number::toString lays it out. *)
Definition layout (ds : string) (n : Z) : string :=
  let k := Z.of_nat (String.length ds) in
  if (k <=? n) && (n <=? 21) then ds +:+ zeros (n - k)
  else if (0 <? n) && (n <=? 21)
  then substring 0 (Z.to_nat n) ds +:+ "." +:+ substring (Z.to_nat n) (Z.to_nat (k - n)) ds
  else if (-6 <? n) && (n <=? 0) then "0." +:+ zeros (- n) +:+ ds
  else
    (if k =? 1 then ds
     else substring 0 1 ds +:+ "." +:+ substring 1 (Z.to_nat (k - 1)) ds)
    +:+ "e" +:+ (if n - 1 <? 0 then "-" else "+") +:+ pretty (Z.abs (n - 1)).

Definition positive_toString (q : Q) : string :=
  let n := decimal_exponent q + 1 in
  let '(s, k) := shortest_digits q n 1 17 in
  if s =? 10 ^ k then layout "1" (n + 1) else layout (pretty s) n.

(** [String(q)] of the number an arithmetic expression denotes: the fewest
    digits that are read as the same double, laid out as Number::toString
    does.  An integer below 2^53 in size is all its own digits; a result of
    2^1024 or more in size is [Infinity]. *)
Definition Number_toString (q : Q) : string :=
  if (Qden q =? 1)%positive && (Z.abs (Qnum q) <? 2 ^ 53) then pretty (Qnum q)
  else if Qeq_bool q 0 then "0"
  else if Qle_bool (2 ^ 1024) (Qabs q)
  then (if Qlt_bool q 0 then "-Infinity" else "Infinity")
  else if Qlt_bool q 0 then "-" +:+ positive_toString (- q)
  else positive_toString q.

(** [String(v)], the conversion a template literal applies to a value:
    an array is its elements joined by commas, [null] and [undefined] among
    them being empty. *)
Fixpoint ToString (v : json) : string :=
  match v with
  | JUndefined => "undefined"
  | JNull => "null"
  | JBool b => if b then "true" else "false"
  | JNum q => Number_toString q
  | JStr s => s
  | JArr items =>
      String.concat ","
        (map (λ x, match x with JUndefined | JNull => "" | _ => ToString x end) items)
  | JObj _ => "[object Object]"
  end.

(** ** The data model *)

(** A Movie document, with the fields [addShow] fills in. *)
Record Movie := {
  _id : string;
  title : json;
  overview : json;
  poster_path : json;
  backdrop_path : json;
  genres : json;
  casts : json;
  release_date : json;
  original_language : json;
  tagline : json;
  vote_average : json;
  runtime : json
}.

(** The object literal pushed on [showsToCreate]: [showDateTime] is a
    [Date], which is either an instant (milliseconds since the epoch) or
    Invalid Date ([None]). *)
Record ShowDraft := {
  d_movie : string;
  d_showDateTime : option Z;
  d_showPrice : Q;
  d_occupiedSeats : gmap string string
}.

(** A persisted Show document. *)
Record Show := {
  show_id : nat;
  movie : string;
  showDateTime : Z;
  showPrice : Q;
  occupiedSeats : gmap string string
}.

(** One element of [req.body.showsInput]. *)
Record ShowInput := { date : string; time : list string }.

(** [req.body] of the add-show request, when it has the expected shape. *)
Record AddShowBody := {
  movieId : string;
  showsInput : list ShowInput;
  body_showPrice : Q
}.

(** An entry of a date bucket in the answer of [getShow]. *)
Record Slot := { slot_time : Z; slot_showId : nat }.

(** The bodies handed to [res.json]. *)
Inductive response :=
| RFail (msg : string)
    (* { success: false, message } *)
| ROkMessage (msg : string)
    (* { success: true, message } *)
| ROkMovies (movies : json)
    (* { success: true, movies } *)
| ROkShows (shows : list (option Movie))
    (* { success: true, shows }, a [null] entry being [None] *)
| ROkShow (movie : option Movie) (dateTime : list (string * list Slot)).
    (* { success: true, movie, dateTime }; the object [dateTime] keeps its
       keys in insertion order *)

Definition success (r : response) : bool :=
  match r with RFail _ => false | _ => true end.

(** ** Effects *)

Inductive db_op :=
| OpFindMovieById (id : string)
| OpCreateMovie (id : string)
| OpInsertShows (n : nat)
| OpFindShows (of_movie : option string)
| OpPopulateMovies.

Inductive event :=
| EvFetch (url : string)
    (* ghost: a call of [fetchWithRetry] starts; not an effect of the code *)
| EvGet (url : string) (timeout : Z)
    (* [axios.get(url, axiosConfig)] *)
| EvLog (line : string)
    (* [console.log] of strings *)
| EvLogError (e : error)
    (* [console.log(error)] *)
| EvSleep (ms : Z)
    (* [setTimeout(resolve, ms)], awaited *)
| EvDb (op : db_op).
    (* a call into the persistence layer *)

#[global] Instance db_op_eq_dec : EqDecision db_op.
Proof. solve_decision. Defined.
#[global] Instance event_eq_dec : EqDecision event.
Proof. solve_decision. Defined.

Record http_response := { status : Z; data : json }.

(** The outside world.  [http url k] is what the catalog API answers to the
    [k]-th GET of [url] (counting from 0), and [latency url k] how long that
    GET takes to settle, in milliseconds.  [db_fault k] is the failure, if
    any, of the [k]-th call into the persistence layer (connection lost and
    the like).  [now] is the instant [new Date()] returns.  [Date_parse] is
    [new Date(string)], whose result depends on the host's time zone and,
    outside the ISO format, on the engine; [None] is Invalid Date.
    [cast_id v] and [cast_price v] are what the schemas of the persistence
    layer, which are not part of the controller, make of a value that is
    not of the type of its field: the key a value given as a movie
    identifier is read as, the number a value given as a price is read as,
    or the error raised. *)
Record Env := {
  http : string → nat → http_response + error;
  latency : string → nat → Z;
  db_fault : nat → option error;
  now : Z;
  Date_parse : string → option Z;
  cast_id : json → string + error;
  cast_price : json → Q + error
}.

(** The persisted collections and what the process has done so far.
    Modelled from the spec: the Movie and Show models are not part of the
    controller; Movie is a collection with the external identifier as
    primary key, Show a collection of shows kept in insertion order, each
    with a generated identifier. *)
Record State := {
  movies : gmap string Movie;
  shows : list Show;
  next_show_id : nat;
  trace : list event;
  sent : list response
}.

Definition log_events (evs : list event) (st : State) : State :=
  {| movies := movies st; shows := shows st; next_show_id := next_show_id st;
     trace := trace st ++ evs; sent := sent st |}.

Definition log_event (ev : event) (st : State) : State := log_events [ev] st.

Definition add_sent (r : response) (st : State) : State :=
  {| movies := movies st; shows := shows st; next_show_id := next_show_id st;
     trace := trace st; sent := sent st ++ [r] |}.

Definition put_movie (m : Movie) (st : State) : State :=
  {| movies := <[_id m := m]> (movies st); shows := shows st;
     next_show_id := next_show_id st; trace := trace st; sent := sent st |}.

Definition put_shows (new : list Show) (st : State) : State :=
  {| movies := movies st; shows := shows st ++ new;
     next_show_id := (next_show_id st + length new)%nat;
     trace := trace st; sent := sent st |}.

(** ** The monad of handlers *)

(** How an awaited computation ends: with a value, with a thrown error, or
    not within the fuel given to a loop. *)
Inductive outcome (A : Type) :=
| Ret (a : A)
| Throw (e : error)
| OutOfFuel.
Arguments Ret {A} a.
Arguments Throw {A} e.
Arguments OutOfFuel {A}.

Definition M (A : Type) : Type := Env → State → outcome A * State.

Definition ret {A} (a : A) : M A := λ _ st, (Ret a, st).

Definition throw {A} (e : error) : M A := λ _ st, (Throw e, st).

Definition out_of_fuel {A} : M A := λ _ st, (OutOfFuel, st).

Definition bind {A B} (m : M A) (k : A → M B) : M B :=
  λ env st,
    match m env st with
    | (Ret a, st') => k a env st'
    | (Throw e, st') => (Throw e, st')
    | (OutOfFuel, st') => (OutOfFuel, st')
    end.

(** [try { body } catch (e) { handler e }] *)
Definition try_catch {A} (body : M A) (handler : error → M A) : M A :=
  λ env st,
    match body env st with
    | (Throw e, st') => handler e env st'
    | r => r
    end.

Notation "'let!' x ':=' m 'in' k" := (bind m (λ x, k))
  (at level 10, x name, m at level 100, k at level 200).
Notation "'do!' m 'in' k" := (bind m (λ _, k))
  (at level 10, m at level 100, k at level 200).

Definition emit (ev : event) : M unit := λ _ st, (Ret tt, log_event ev st).

Definition console_log (line : string) : M unit := emit (EvLog line).

Definition sleep (ms : Z) : M unit := emit (EvSleep ms).

(** [res.json(body)] *)
Definition res_json (r : response) : M unit := λ _ st, (Ret tt, add_sent r st).

(** Lifting of a pure step that may throw. *)
Definition lift {A} (r : A + error) : M A :=
  match r with inl a => ret a | inr e => throw e end.

(** ** RetryingFetcher *)

Definition TMDB_TIMEOUT : Z := 15000.
Definition MAX_RETRIES : Q := 3.
Definition RETRY_DELAY : Z := 1000.

(** How many GETs of [url] the trace holds. *)
Fixpoint count_get (url : string) (t : list event) : nat :=
  match t with
  | [] => 0%nat
  | EvGet u _ :: rest =>
      if decide (u = url) then S (count_get url rest) else count_get url rest
  | _ :: rest => count_get url rest
  end.

(** [axios.get(url, axiosConfig)]: resolves with the response or rejects. *)
Definition axios_get (url : string) : M http_response :=
  λ env st,
    let k := count_get url (trace st) in
    let st' := log_event (EvGet url TMDB_TIMEOUT) st in
    match http env url k with
    | inl r => (Ret r, st')
    | inr e => (Throw e, st')
    end.

(** The line [`Retry attempt ${i + 1} after ${delay}ms for URL: ${url}`] *)
Definition retry_line (attempt delay : Z) (url : string) : string :=
  "Retry attempt " +:+ Number_toString (inject_Z attempt) +:+ " after "
  +:+ Number_toString (inject_Z delay) +:+ "ms for URL: " +:+ url.

(** The [for] loop of [fetchWithRetry] from index [i] on.  [retries] is a
    finite number, not always a whole one (NaN and the infinities are not
    represented): the loop goes on while [i < retries], and an attempt is
    the last one only when [i === retries - 1].  The delay is held as the
    whole number [RETRY_DELAY * 2 ^ i] is; a double holds it exactly up to
    [i = 1014].  The result is [Some response] when the function returns
    one and [None] when it falls off the end of the loop and returns
    [undefined]. *)
Fixpoint retry_loop (fuel : nat) (url : string) (retries : Q) (i : Z)
  : M (option http_response) :=
  if Qlt_bool (inject_Z i) retries then
    match fuel with
    | O => out_of_fuel
    | S fuel' =>
        let! r :=
          try_catch
            (let! response := axios_get url in ret (Some response))
            (λ error,
               if Qeq_bool (inject_Z i) (retries - 1) then throw error
               else
                 let delay := RETRY_DELAY * 2 ^ i in
                 do! console_log (retry_line (i + 1) delay url) in
                 do! sleep delay in
                 ret None) in
        match r with
        | Some response => ret (Some response)
        | None => retry_loop fuel' url retries (i + 1)
        end
    end
  else ret None.

(** The loop is entered with index 0 and runs at most as many times as
    there are whole numbers below [retries]. *)
Definition fetchWithRetry (url : string) (retries : Q)
  : M (option http_response) :=
  do! emit (EvFetch url) in
  retry_loop (Z.to_nat (Qceiling retries)) url retries 0.

(** ** The persistence layer

    Modelled from the spec: the Movie and Show models (mongoose schemas) are
    not part of the controller.  The operations below are the ones the
    controller calls, on the collections of [State]. *)

(** How many calls into the persistence layer the trace holds. *)
Fixpoint count_db (t : list event) : nat :=
  match t with
  | [] => 0%nat
  | EvDb _ :: rest => S (count_db rest)
  | _ :: rest => count_db rest
  end.

(** Every call into the persistence layer is logged, and fails when the
    environment says so. *)
Definition db_call (op : db_op) : M unit :=
  λ env st,
    let k := count_db (trace st) in
    let st' := log_event (EvDb op) st in
    match db_fault env k with
    | Some e => (Throw e, st')
    | None => (Ret tt, st')
    end.

(** Reading the collections. *)
Definition get_movies : M (gmap string Movie) := λ _ st, (Ret (movies st), st).
Definition get_shows : M (list Show) := λ _ st, (Ret (shows st), st).
Definition get_next_show_id : M nat := λ _ st, (Ret (next_show_id st), st).

(** [Movie.findById(id)]: the document or [null]. *)
Definition Movie_findById (id : string) : M (option Movie) :=
  do! db_call (OpFindMovieById id) in
  let! ms := get_movies in
  ret (ms !! id).

Definition duplicate_key (id : string) : error :=
  Error MongoServerError
    ("E11000 duplicate key error collection: movies index: _id_ dup key: { _id: '"
     +:+ id +:+ "' }").

(** [Movie.create(doc)]: the primary key is unique. *)
Definition Movie_create (doc : Movie) : M Movie :=
  do! db_call (OpCreateMovie (_id doc)) in
  let! ms := get_movies in
  match ms !! _id doc with
  | Some _ => throw (duplicate_key (_id doc))
  | None => λ _ st, (Ret doc, put_movie doc st)
  end.

(** Casting of a draft to the schema: an Invalid Date is refused. *)
Definition cast_show (id : nat) (d : ShowDraft) : option Show :=
  match d_showDateTime d with
  | Some t =>
      Some {| show_id := id; movie := d_movie d; showDateTime := t;
              showPrice := d_showPrice d; occupiedSeats := d_occupiedSeats d |}
  | None => None
  end.

Fixpoint cast_shows (next : nat) (ds : list ShowDraft) : option (list Show) :=
  match ds with
  | [] => Some []
  | d :: rest =>
      match cast_show next d, cast_shows (S next) rest with
      | Some s, Some ss => Some (s :: ss)
      | _, _ => None
      end
  end.

Definition cast_failed : error :=
  Error ValidationError
    "Show validation failed: showDateTime: Cast to date failed for value 'Invalid Date'".

(** [Show.insertMany(docs)]: all the documents are validated first, and
    one that fails fails the batch. *)
Definition Show_insertMany (ds : list ShowDraft) : M unit :=
  do! db_call (OpInsertShows (length ds)) in
  let! next := get_next_show_id in
  match cast_shows next ds with
  | Some new => λ _ st, (Ret tt, put_shows new st)
  | None => throw cast_failed
  end.

Definition matches (of_movie : option string) (since : Z) (s : Show) : bool :=
  match of_movie with
  | Some id => bool_decide (movie s = id)
  | None => true
  end && (since <=? showDateTime s).

(** [Show.find({ movie?, showDateTime: { $gte: since } })], in the
    collection's own order. *)
Definition Show_find (of_movie : option string) (since : Z) : M (list Show) :=
  do! db_call (OpFindShows of_movie) in
  let! ss := get_shows in
  ret (List.filter (matches of_movie since) ss).

Definition show_le (a b : Show) : Prop := showDateTime a ≤ showDateTime b.

#[global] Instance show_le_dec : RelDecision show_le.
Proof. intros a b. unfold show_le. apply _. Defined.

#[global] Instance show_le_transitive : Transitive show_le.
Proof. intros a b c. unfold show_le. lia. Qed.

#[global] Instance show_le_total : Total show_le.
Proof. intros a b. unfold show_le. lia. Qed.

(** [.sort({ showDateTime: 1 })] *)
Definition sort_by_showDateTime (ss : list Show) : list Show :=
  merge_sort show_le ss.

(** A populated [show.movie]: the document object and its content.  One
    document is loaded for each distinct identifier, and every show that
    refers to it is handed that same object, so the identifier stands for
    the object's identity. *)
Record MovieDoc := { doc_addr : string; doc_value : Movie }.

(** [.populate('movie')]: a reference that finds no movie becomes [null]. *)
Definition populate_movie (ss : list Show) : M (list (Show * option MovieDoc)) :=
  do! db_call OpPopulateMovies in
  let! ms := get_movies in
  ret (map (λ s, (s, match ms !! movie s with
                     | Some m => Some {| doc_addr := movie s; doc_value := m |}
                     | None => None
                     end)) ss).

(** SameValueZero on what the Set of [getShows] holds: [null] or objects. *)
Definition same_value (a b : option MovieDoc) : bool :=
  match a, b with
  | None, None => true
  | Some x, Some y => bool_decide (doc_addr x = doc_addr y)
  | _, _ => false
  end.

(** [set.add(x)], a Set being the list of its elements in insertion order. *)
Definition Set_add (s : list (option MovieDoc)) (x : option MovieDoc)
  : list (option MovieDoc) :=
  if existsb (same_value x) s then s else s ++ [x].

(** [new Set(iterable)] *)
Definition new_Set (l : list (option MovieDoc)) : list (option MovieDoc) :=
  fold_left Set_add l [].

(** ** Dates *)

Definition digit (d : Z) : ascii :=
  match d with
  | 0 => "0" | 1 => "1" | 2 => "2" | 3 => "3" | 4 => "4"
  | 5 => "5" | 6 => "6" | 7 => "7" | 8 => "8" | _ => "9"
  end%char.

Definition pad2 (n : Z) : string :=
  String (digit ((n / 10) `mod` 10)) (String (digit (n `mod` 10)) "").

Definition pad3 (n : Z) : string :=
  String (digit ((n / 100) `mod` 10)) (pad2 n).

Definition pad4 (n : Z) : string :=
  String (digit ((n / 1000) `mod` 10)) (pad3 n).

Definition pad6 (n : Z) : string :=
  String (digit ((n / 100000) `mod` 10))
    (String (digit ((n / 10000) `mod` 10)) (pad4 n)).

Definition ms_per_day : Z := 86400000.

(** Year, month and day of a day number counted from 1970-01-01, in the
    proleptic Gregorian calendar. *)
Definition civil_from_days (z : Z) : Z * Z * Z :=
  let z := z + 719468 in
  let era := z / 146097 in
  let doe := z - era * 146097 in
  let yoe := (doe - doe / 1460 + doe / 36524 - doe / 146096) / 365 in
  let y := yoe + era * 400 in
  let doy := doe - (365 * yoe + yoe / 4 - yoe / 100) in
  let mp := (5 * doy + 2) / 153 in
  let d := doy - (153 * mp + 2) / 5 + 1 in
  let m := if mp <? 10 then mp + 3 else mp - 9 in
  (if m <=? 2 then y + 1 else y, m, d).

(** The day number of a year, month and day. *)
Definition days_from_civil (y m d : Z) : Z :=
  let y := if m <=? 2 then y - 1 else y in
  let era := y / 400 in
  let yoe := y - era * 400 in
  let doy := (153 * (if 2 <? m then m - 3 else m + 9) + 2) / 5 + d - 1 in
  let doe := yoe * 365 + yoe / 4 - yoe / 100 + doy in
  era * 146097 + doe - 719468.

Definition iso_year (y : Z) : string :=
  if (0 <=? y) && (y <=? 9999) then pad4 y
  else (if y <? 0 then "-" else "+") +:+ pad6 (Z.abs y).

(** The date part [YYYY-MM-DD] of the UTC day in which the instant lies. *)
Definition iso_date (t : Z) : string :=
  let '(y, m, d) := civil_from_days (t / ms_per_day) in
  iso_year y +:+ "-" +:+ pad2 m +:+ "-" +:+ pad2 d.

(** The time part [HH:mm:ss.sssZ] of the instant within its UTC day. *)
Definition iso_time (t : Z) : string :=
  let ms := t `mod` ms_per_day in
  pad2 (ms / 3600000) +:+ ":" +:+ pad2 ((ms / 60000) `mod` 60) +:+ ":"
  +:+ pad2 ((ms / 1000) `mod` 60) +:+ "." +:+ pad3 (ms `mod` 1000) +:+ "Z".

(** [date.toISOString()]: a Date holds an instant of at most 8.64e15 ms on
    either side of the epoch, anything else is Invalid Date and throws. *)
Definition toISOString (t : Z) : string + error :=
  if Z.abs t <=? 8640000000000000 then inl (iso_date t +:+ "T" +:+ iso_time t)
  else inr (Error RangeError "Invalid time value").

(** [s.split("T")[0]] *)
Fixpoint before_T (s : string) : string :=
  match s with
  | EmptyString => EmptyString
  | String c rest => if Ascii.eqb c "T" then EmptyString else String c (before_T rest)
  end.

(** [new Date()] *)
Definition Date_now : M Z := λ env st, (Ret (now env), st).

(** [new Date(s)] *)
Definition Date_new (s : string) : M (option Z) := λ env st, (Ret (Date_parse env s), st).

(** ** The handlers *)

(** [forEach] over an array with a body that updates a local variable. *)
Fixpoint foldM {A B} (body : B → A → M B) (acc : B) (l : list A) : M B :=
  match l with
  | [] => ret acc
  | x :: rest => let! acc' := body acc x in foldM body acc' rest
  end.

(** What a computation has added to the trace. *)
Definition new_events (st st' : State) : list event :=
  drop (length (trace st)) (trace st').

(** The time the effects [new] take when they follow one another after
    [before]: each GET takes what the world says, each sleep its delay,
    and nothing else takes time (a fetch has no other effect). *)
Fixpoint elapsed (env : Env) (before new : list event) : Z :=
  match new with
  | [] => 0
  | ev :: rest =>
      match ev with
      | EvGet url _ => latency env url (count_get url before)
      | EvSleep ms => ms
      | _ => 0
      end + elapsed env (before ++ [ev]) rest
  end.

(** [Promise.all([p1, p2])].  Both computations are started together and
    each runs to its end whatever the other does, also after the await has
    rejected: the state holds the effects of both.  The await resolves with
    both values, or rejects with the error of the one that rejects first in
    time (of [p1], started first, when both reject at the same instant).  As
    the answers of the catalog API are given per URL, what each of two
    fetches of distinct URLs observes does not depend on how they
    interleave; the trace lists the effects of [p1] before those of [p2],
    not in the order of time. *)
Definition Promise_all2 {A B} (p1 : M A) (p2 : M B) : M (A * B) :=
  λ env st,
    let '(r1, st1) := p1 env st in
    let '(r2, st2) := p2 env st1 in
    match r1, r2 with
    | Ret a, Ret b => (Ret (a, b), st2)
    | Throw e1, Throw e2 =>
        if elapsed env (trace st) (new_events st st1)
           <=? elapsed env (trace st1) (new_events st1 st2)
        then (Throw e1, st2) else (Throw e2, st2)
    | Throw e, _ => (Throw e, st2)
    | _, Throw e => (Throw e, st2)
    | _, _ => (OutOfFuel, st2)
    end.

(** [const { data } = response] *)
Definition destructure_data (response : option http_response) : json + error :=
  match response with
  | Some r => inl (data r)
  | None =>
      inr (Error TypeError
             "Cannot destructure property 'data' of '(intermediate value)' as it is undefined.")
  end.

(** [response.data] *)
Definition response_data (response : option http_response) : json + error :=
  match response with
  | Some r => inl (data r)
  | None =>
      inr (Error TypeError "Cannot read properties of undefined (reading 'data')")
  end.

Definition now_playing_url : string :=
  "https://api.themoviedb.org/3/movie/now_playing".

Definition details_url (movieId : string) : string :=
  "https://api.themoviedb.org/3/movie/" +:+ movieId.

Definition credits_url (movieId : string) : string :=
  "https://api.themoviedb.org/3/movie/" +:+ movieId +:+ "/credits".

(** The [try] block of [getNowPlayingMovies]. *)
Definition getNowPlayingMovies_try : M unit :=
  let! response := fetchWithRetry now_playing_url MAX_RETRIES in
  let! data := lift (destructure_data response) in
  let! movies := lift (prop data "results") in
  res_json (ROkMovies movies).

Definition getNowPlayingMovies : M unit :=
  try_catch getNowPlayingMovies_try
    (λ error,
       do! console_log ("getNowPlayingMovies Error: " +:+ message error) in
       res_json (RFail (message error))).

(** The object literal [movieDetails] of [addShow]. *)
Definition movieDetails_of (movieId : string) (movieApiData : json) : M Movie :=
  let! title := lift (prop movieApiData "title") in
  let! overview := lift (prop movieApiData "overview") in
  let! poster_path := lift (prop movieApiData "poster_path") in
  let! backdrop_path := lift (prop movieApiData "backdrop_path") in
  let! genres := lift (prop movieApiData "genres") in
  let! casts := lift (prop movieApiData "casts") in
  let! release_date := lift (prop movieApiData "release_date") in
  let! original_language := lift (prop movieApiData "original_language") in
  let! tagline := lift (prop movieApiData "tagline") in
  let! vote_average := lift (prop movieApiData "vote_average") in
  let! runtime := lift (prop movieApiData "runtime") in
  ret {| _id := movieId;
         title := title;
         overview := overview;
         poster_path := poster_path;
         backdrop_path := backdrop_path;
         genres := genres;
         casts := casts;
         release_date := release_date;
         original_language := original_language;
         tagline := js_or tagline (JStr "");
         vote_average := vote_average;
         runtime := runtime |}.

(** How a block of a handler ends: control goes on with a value, or the
    handler has returned. *)
Inductive flow (A : Type) :=
| Continue (a : A)
| Return.
Arguments Continue {A} a.
Arguments Return {A}.

(** [addShow], the block [if (!movie) { ... }] once [Movie.findById] has
    answered [movie]. *)
Definition addShow_sync (movieId : string) (movie : option Movie) : M (flow Movie) :=
  match movie with
  | Some m => ret (Continue m)
  | None =>
      try_catch
        (let! responses :=
           Promise_all2 (fetchWithRetry (details_url movieId) MAX_RETRIES)
                        (fetchWithRetry (credits_url movieId) MAX_RETRIES) in
         let movieDetailsResponse := fst responses in
         let movieCreditsResponse := snd responses in
         let! movieApiData := lift (response_data movieDetailsResponse) in
         let! movieCreditsData := lift (response_data movieCreditsResponse) in
         let! movieDetails := movieDetails_of movieId movieApiData in
         let! movie := Movie_create movieDetails in
         ret (Continue movie))
        (λ apiError,
           do! console_log ("TMDB API Error: " +:+ message apiError) in
           do! res_json (RFail ("Failed to fetch movie from TMDB: "
                                +:+ message apiError)) in
           ret Return)
  end.

(** [addShow], from [Movie.findById] to the end of [if (!movie)]: the
    movie-resolution step. *)
Definition addShow_resolve (movieId : string) : M (flow Movie) :=
  let! movie := Movie_findById movieId in
  addShow_sync movieId movie.

(** [addShow], the two nested [forEach] that fill [showsToCreate]. *)
Definition build_showsToCreate (movieId : string) (showsInput : list ShowInput)
    (showPrice : Q) : M (list ShowDraft) :=
  foldM (λ showsToCreate show,
           let showDate := date show in
           foldM (λ showsToCreate time,
                    let dateTimeString := showDate +:+ "T" +:+ time in
                    let! showDateTime := Date_new dateTimeString in
                    ret (showsToCreate ++
                           [{| d_movie := movieId;
                               d_showDateTime := showDateTime;
                               d_showPrice := showPrice;
                               d_occupiedSeats := ∅ |}]))
                 showsToCreate (time show))
        [] showsInput.

(** [addShow], from [const showsToCreate = []] to the answer: the
    show-creation step. *)
Definition addShow_createShows (movieId : string) (showsInput : list ShowInput)
    (showPrice : Q) : M unit :=
  let! showsToCreate := build_showsToCreate movieId showsInput showPrice in
  do! (if (0 <? length showsToCreate)%nat then Show_insertMany showsToCreate
       else ret tt) in
  res_json (ROkMessage "Show Added successfully.").

(** [addShow] on a request body of the expected shape. *)
Definition addShow (body : AddShowBody) : M unit :=
  try_catch
    (let movieId := movieId body in
     let showsInput := showsInput body in
     let showPrice := body_showPrice body in
     let! movie := addShow_resolve movieId in
     match movie with
     | Return => ret tt
     | Continue _ => addShow_createShows movieId showsInput showPrice
     end)
    (λ error,
       do! console_log ("addShow Error: " +:+ message error) in
       res_json (RFail (message error))).

(** *** The add-show request as it arrives

    [req.body] is whatever JSON the client has sent, or nothing at all.
    What follows is [addShow] on such a body; [addShow] above is the same
    handler on a body of the expected shape. *)

(** [const { movieId, showsInput, showPrice } = req.body] *)
Definition destructure_body (req_body : json) : (json * json * json) + error :=
  match req_body with
  | JUndefined =>
      inr (Error TypeError
             "Cannot destructure property 'movieId' of 'req.body' as it is undefined.")
  | JNull =>
      inr (Error TypeError
             "Cannot destructure property 'movieId' of 'req.body' as it is null.")
  | JObj fields =>
      inl (assoc "movieId" fields, assoc "showsInput" fields, assoc "showPrice" fields)
  | _ => inl (JUndefined, JUndefined, JUndefined)
  end.

(** The key the Movie schema reads a value as: a string is its own key. *)
Definition schema_id (v : json) : M string :=
  λ env st,
    match v with
    | JStr s => (Ret s, st)
    | _ => match cast_id env v with
           | inl key => (Ret key, st)
           | inr e => (Throw e, st)
           end
    end.

(** The number the Show schema reads a price as: a number is itself. *)
Definition schema_price (v : json) : M Q :=
  λ env st,
    match v with
    | JNum q => (Ret q, st)
    | _ => match cast_price env v with
           | inl q => (Ret q, st)
           | inr e => (Throw e, st)
           end
    end.

(** [Movie.findById(id)]: the query for [undefined] or [null] is for the
    key [null], which no Movie has; any other value is read as a key. *)
Definition Movie_findById_json (id : json) : M (option Movie) :=
  match id with
  | JUndefined | JNull =>
      do! db_call (OpFindMovieById (ToString id)) in
      ret None
  | _ =>
      let! key := schema_id id in
      Movie_findById key
  end.

(** The document with its [_id] as the schema has read it. *)
Definition with_id (key : string) (m : Movie) : Movie :=
  {| _id := key;
     title := title m;
     overview := overview m;
     poster_path := poster_path m;
     backdrop_path := backdrop_path m;
     genres := genres m;
     casts := casts m;
     release_date := release_date m;
     original_language := original_language m;
     tagline := tagline m;
     vote_average := vote_average m;
     runtime := runtime m |}.

(** [Movie.create(movieDetails)], the literal holding [movieId] as it
    arrived. *)
Definition Movie_create_json (movieId : json) (movieDetails : Movie) : M Movie :=
  let! key := schema_id movieId in
  Movie_create (with_id key movieDetails).

(** The [try] block inside [if (!movie)]. *)
Definition addShow_fetch_try (movieId : json) : M (flow Movie) :=
  let! responses :=
    Promise_all2 (fetchWithRetry (details_url (ToString movieId)) MAX_RETRIES)
                 (fetchWithRetry (credits_url (ToString movieId)) MAX_RETRIES) in
  let movieDetailsResponse := fst responses in
  let movieCreditsResponse := snd responses in
  let! movieApiData := lift (response_data movieDetailsResponse) in
  let! movieCreditsData := lift (response_data movieCreditsResponse) in
  let! movieDetails := movieDetails_of (ToString movieId) movieApiData in
  let! movie := Movie_create_json movieId movieDetails in
  ret (Continue movie).

(** The block [if (!movie) { ... }]. *)
Definition addShow_sync_json (movieId : json) (movie : option Movie)
  : M (flow Movie) :=
  match movie with
  | Some m => ret (Continue m)
  | None =>
      try_catch (addShow_fetch_try movieId)
        (λ apiError,
           do! console_log ("TMDB API Error: " +:+ message apiError) in
           do! res_json (RFail ("Failed to fetch movie from TMDB: "
                                +:+ message apiError)) in
           ret Return)
  end.

(** The array [x.forEach] runs over; only an array has [forEach]. *)
Definition forEach_of (x : json) (name : string) : list json + error :=
  match x with
  | JArr items => inl items
  | JUndefined =>
      inr (Error TypeError "Cannot read properties of undefined (reading 'forEach')")
  | JNull =>
      inr (Error TypeError "Cannot read properties of null (reading 'forEach')")
  | _ => inr (Error TypeError (name +:+ ".forEach is not a function"))
  end.

(** The object literal pushed on [showsToCreate], before the schema has
    read it. *)
Record ShowLiteral := {
  l_movie : json;
  l_showDateTime : option Z;
  l_showPrice : json
}.

(** The two nested [forEach] that fill [showsToCreate]. *)
Definition build_showsToCreate_json (movieId showsInput showPrice : json)
  : M (list ShowLiteral) :=
  let! shows := lift (forEach_of showsInput "showsInput") in
  foldM (λ showsToCreate show,
           let! showDate := lift (prop show "date") in
           let! show_time := lift (prop show "time") in
           let! times := lift (forEach_of show_time "show.time") in
           foldM (λ showsToCreate time,
                    let dateTimeString := ToString showDate +:+ "T" +:+ ToString time in
                    let! showDateTime := Date_new dateTimeString in
                    ret (showsToCreate ++
                           [{| l_movie := movieId;
                               l_showDateTime := showDateTime;
                               l_showPrice := showPrice |}]))
                 showsToCreate times)
        [] shows.

(** The schema reads the literals one after the other. *)
Definition read_literal (l : ShowLiteral) : M ShowDraft :=
  let! key := schema_id (l_movie l) in
  let! price := schema_price (l_showPrice l) in
  ret {| d_movie := key; d_showDateTime := l_showDateTime l;
         d_showPrice := price; d_occupiedSeats := ∅ |}.

(** [Show.insertMany(showsToCreate)] *)
Definition Show_insertMany_json (ls : list ShowLiteral) : M unit :=
  let! ds := foldM (λ ds l, let! d := read_literal l in ret (ds ++ [d])) [] ls in
  Show_insertMany ds.

Definition addShow_createShows_json (movieId showsInput showPrice : json) : M unit :=
  let! showsToCreate := build_showsToCreate_json movieId showsInput showPrice in
  do! (if (0 <? length showsToCreate)%nat then Show_insertMany_json showsToCreate
       else ret tt) in
  res_json (ROkMessage "Show Added successfully.").

(** The [try] block of [addShow]. *)
Definition addShow_request_try (req_body : json) : M unit :=
  let! fields := lift (destructure_body req_body) in
  let '(movieId, showsInput, showPrice) := fields in
  let! found := Movie_findById_json movieId in
  let! movie := addShow_sync_json movieId found in
  match movie with
  | Return => ret tt
  | Continue _ => addShow_createShows_json movieId showsInput showPrice
  end.

Definition addShow_request (req_body : json) : M unit :=
  try_catch (addShow_request_try req_body)
    (λ error,
       do! console_log ("addShow Error: " +:+ message error) in
       res_json (RFail (message error))).

(** The JSON of a body of the expected shape. *)
Definition ShowInput_json (show : ShowInput) : json :=
  JObj [("date", JStr (date show)); ("time", JArr (map JStr (time show)))].

Definition AddShowBody_json (body : AddShowBody) : json :=
  JObj [("movieId", JStr (movieId body));
        ("showsInput", JArr (map ShowInput_json (showsInput body)));
        ("showPrice", JNum (body_showPrice body))].

(** The [try] block of [getShows]. *)
Definition getShows_try : M unit :=
  let! since := Date_now in
  let! found := Show_find None since in
  let! shows := populate_movie (sort_by_showDateTime found) in
  let uniqueShows := new_Set (map snd shows) in
  res_json (ROkShows (map (fmap doc_value) uniqueShows)).

Definition getShows : M unit :=
  try_catch getShows_try
    (λ error,
       do! emit (EvLogError error) in
       res_json (RFail (message error))).

(** [dateTime[date]], an object being the list of its properties in
    insertion order. *)
Fixpoint get_bucket (date : string) (dateTime : list (string * list Slot))
  : option (list Slot) :=
  match dateTime with
  | [] => None
  | (k, v) :: rest => if String.eqb k date then Some v else get_bucket date rest
  end.

(** [dateTime[date].push(slot)] *)
Fixpoint push_bucket (date : string) (slot : Slot)
    (dateTime : list (string * list Slot)) : list (string * list Slot) :=
  match dateTime with
  | [] => []
  | (k, v) :: rest =>
      if String.eqb k date then (k, v ++ [slot]) :: rest
      else (k, v) :: push_bucket date slot rest
  end.

(** The body of the [forEach] of [getShow]. *)
Definition group_show (dateTime : list (string * list Slot)) (show : Show)
  : M (list (string * list Slot)) :=
  let! iso := lift (toISOString (showDateTime show)) in
  let date := before_T iso in
  let dateTime :=
    match get_bucket date dateTime with
    | Some _ => dateTime
    | None => dateTime ++ [(date, [])]
    end in
  ret (push_bucket date
         {| slot_time := showDateTime show; slot_showId := show_id show |}
         dateTime).

(** The [try] block of [getShow]. *)
Definition getShow_try (movieId : string) : M unit :=
  let! since := Date_now in
  let! shows := Show_find (Some movieId) since in
  let! movie := Movie_findById movieId in
  let! dateTime := foldM group_show [] shows in
  res_json (ROkShow movie dateTime).

Definition getShow (movieId : string) : M unit :=
  try_catch (getShow_try movieId)
    (λ error,
       do! emit (EvLogError error) in
       res_json (RFail (message error))).

(** ** An example host

    A host in the UTC time zone whose [Date] reads [YYYY-MM-DDTHH:mm], a
    catalog that knows one movie, and a persistence layer without faults. *)

Definition digit_value (c : ascii) : option Z :=
  let n := Z.of_nat (nat_of_ascii c) in
  if (48 <=? n) && (n <=? 57) then Some (n - 48) else None.

Fixpoint number_of (s : string) (acc : Z) : option Z :=
  match s with
  | EmptyString => Some acc
  | String c rest =>
      match digit_value c with
      | Some d => number_of rest (10 * acc + d)
      | None => None
      end
  end.

Definition char_at (i : nat) (s : string) (c : ascii) : bool :=
  match String.get i s with
  | Some c' => Ascii.eqb c' c
  | None => false
  end.

Definition parse_utc (s : string) : option Z :=
  if (String.length s =? 16)%nat && char_at 4 s "-" && char_at 7 s "-"
     && char_at 10 s "T" && char_at 13 s ":"
  then
    match number_of (substring 0 4 s) 0, number_of (substring 5 2 s) 0,
          number_of (substring 8 2 s) 0, number_of (substring 11 2 s) 0,
          number_of (substring 14 2 s) 0 with
    | Some y, Some m, Some d, Some h, Some mi =>
        if (1 <=? m) && (m <=? 12) && (1 <=? d) && (d <=? 31)
           && (h <=? 23) && (mi <=? 59)
        then Some (days_from_civil y m d * ms_per_day + h * 3600000 + mi * 60000)
        else None
    | _, _, _, _, _ => None
    end
  else None.

Definition dune_json : json :=
  JObj [("title", JStr "Dune"); ("overview", JStr "Paul Atreides leads.");
        ("poster_path", JStr "/p.jpg"); ("backdrop_path", JStr "/b.jpg");
        ("genres", JArr [JObj [("id", JNum 878); ("name", JStr "Science Fiction")]]);
        ("release_date", JStr "2021-10-22"); ("original_language", JStr "en");
        ("vote_average", JNum (39 # 5)); ("runtime", JNum 155)].

Definition credits_json : json :=
  JObj [("cast", JArr [JObj [("name", JStr "T. Chalamet")]])].

(** The schemas of the example host take a string as an identifier and a
    number as a price, and refuse any other value. *)
Definition refused : error := Error ValidationError "Cast failed".

Definition not_found : error :=
  Error AxiosError "Request failed with status code 404".

Definition timed_out : error :=
  Error AxiosError "timeout of 15000ms exceeded".

(** The catalog knows the movie 438631 and no other. *)
Definition catalog (url : string) (k : nat) : http_response + error :=
  if String.eqb url now_playing_url
  then inl {| status := 200;
              data := JObj [("results", JArr [JObj [("id", JNum 438631)]])] |}
  else if String.eqb url (details_url "438631") then inl {| status := 200; data := dune_json |}
  else if String.eqb url (credits_url "438631") then inl {| status := 200; data := credits_json |}
  else inr not_found.

(** A catalog that is down. *)
Definition catalog_down (url : string) (k : nat) : http_response + error :=
  inr timed_out.

(** The instant 2024-04-01T00:00Z. *)
Definition april_2024 : Z := 1711929600000.

Definition host : Env :=
  {| http := catalog; latency := λ _ _, 120; db_fault := λ _, None;
     now := april_2024; Date_parse := parse_utc;
     cast_id := λ _, inr refused; cast_price := λ _, inr refused |}.

Definition host_down : Env :=
  {| http := catalog_down; latency := λ _ _, TMDB_TIMEOUT;
     db_fault := λ _, None; now := april_2024; Date_parse := parse_utc;
     cast_id := λ _, inr refused; cast_price := λ _, inr refused |}.

Definition empty_state : State :=
  {| movies := ∅; shows := []; next_show_id := 0; trace := []; sent := [] |}.

(** ** What a run of the retry loop leaves in the trace *)

(** The effects of attempt [i] when it fails and is not the last one. *)
Definition failed_attempt (url : string) (i : Z) : list event :=
  [EvGet url TMDB_TIMEOUT;
   EvLog (retry_line (i + 1) (RETRY_DELAY * 2 ^ i) url);
   EvSleep (RETRY_DELAY * 2 ^ i)].

(** The effects of the [n] failed attempts from index [i] on. *)
Fixpoint failed_attempts (url : string) (i : Z) (n : nat) : list event :=
  match n with
  | O => []
  | S n' => failed_attempt url i ++ failed_attempts url (i + 1) n'
  end.

(** The events of a call of [fetchWithRetry] that makes [n] attempts after
    the first one. *)
Definition fetch_events (url : string) (n : nat) : list event :=
  EvFetch url :: failed_attempts url 0 n ++ [EvGet url TMDB_TIMEOUT].
Arguments fetch_events : simpl never.

(** How many times an event occurs in a trace. *)
Definition count_event (ev : event) (t : list event) : nat :=
  length (filter (λ ev', ev' = ev) t).

(** ** The slots a schedule stands for *)

(** The (date, time) pairs of a schedule, in the order of the input. *)
Definition schedule_pairs (showsInput : list ShowInput) : list (string * string) :=
  flat_map (λ show, map (λ time, (date show, time)) (time show)) showsInput.

(** ** What the movie-resolution step is expected to store *)

(** [v.k] for a [v] that can be read. *)
Definition field (v : json) (k : string) : json :=
  match prop v k with inl x => x | inr _ => JUndefined end.

(** Whether properties of [v] can be read: it is neither [undefined] nor
    [null]. *)
Definition readable (v : json) : bool :=
  match v with JUndefined | JNull => false | _ => true end.

(** The Movie shape of the details the catalog answered. *)
Definition normalized (movieId : string) (d : json) : Movie :=
  {| _id := movieId;
     title := field d "title";
     overview := field d "overview";
     poster_path := field d "poster_path";
     backdrop_path := field d "backdrop_path";
     genres := field d "genres";
     casts := field d "casts";
     release_date := field d "release_date";
     original_language := field d "original_language";
     tagline := match field d "tagline" with
                | JUndefined | JNull => JStr ""
                | JStr s => JStr s
                | v => if truthy v then v else JStr ""
                end;
     vote_average := field d "vote_average";
     runtime := field d "runtime" |}.

(** The state the catch block of the synchronisation leaves. *)
Definition sync_failed (e : error) (st : State) : State :=
  add_sent (RFail ("Failed to fetch movie from TMDB: " +:+ message e))
    (log_events [EvLog ("TMDB API Error: " +:+ message e)] st).

(** The catalog answers the GETs of [url] from the [k]-th on with [n]
    failures and then the response [r], within the three attempts. *)
Definition answers (env : Env) (url : string) (k n : nat) (r : http_response) : Prop :=
  (n ≤ 2)%nat ∧
  (∀ j, (j < n)%nat → ∃ e, http env url (k + j)%nat = inr e) ∧
  http env url (k + n)%nat = inl r.

(** The three attempts of a fetch of [url] fail, [k] being the number of
    GETs of [url] before it. *)
Definition fails_thrice (env : Env) (url : string) (k : nat) : Prop :=
  ∀ j, (j < 3)%nat → ∃ e, http env url (k + j)%nat = inr e.

(** The time after which a fetch of [url] whose three attempts fail
    rejects: the three GETs and the two back-offs between them. *)
Definition rejects_after (env : Env) (url : string) (k : nat) : Z :=
  latency env url k + RETRY_DELAY * 2 ^ 0
  + latency env url (k + 1) + RETRY_DELAY * 2 ^ 1
  + latency env url (k + 2).

(** The schedule of the scheduler's example. *)
Definition example_schedule : list ShowInput :=
  [{| date := "2024-05-01"; time := ["14:00"; "18:00"] |};
   {| date := "2024-05-02"; time := ["20:00"] |}].

(** ** Handlers in the middle of their run *)

(** [addShow] from the point where [Movie.findById] has answered [movie]:
    what is left of the handler when other requests have run during the
    await. *)
Definition addShow_after_lookup (body : AddShowBody) (movie : option Movie) : M unit :=
  try_catch
    (let movieId := movieId body in
     let showsInput := showsInput body in
     let showPrice := body_showPrice body in
     let! movie := addShow_sync movieId movie in
     match movie with
     | Return => ret tt
     | Continue _ => addShow_createShows movieId showsInput showPrice
     end)
    (λ error,
       do! console_log ("addShow Error: " +:+ message error) in
       res_json (RFail (message error))).

(** Two add-show requests [a] and [b] whose lookups are both answered
    before either goes on; then [a] runs to its end, then [b]. *)
Definition race_addShow (a b : AddShowBody) : M unit :=
  let! found_a := Movie_findById (movieId a) in
  let! found_b := Movie_findById (movieId b) in
  do! addShow_after_lookup a found_a in
  addShow_after_lookup b found_b.

(** ** How computations end *)

(** [m] ends, with a value that satisfies [P] or with a thrown error, and
    answers nothing. *)
Definition settles {A} (P : A → Prop) (m : M A) : Prop :=
  ∀ env st, ∃ o st',
    m env st = (o, st') ∧ sent st' = sent st ∧
    match o with Ret a => P a | Throw _ => True | OutOfFuel => False end.

(** [m] returns normally after exactly one answer. *)
Definition answers_once (m : M unit) : Prop :=
  ∀ env st, ∃ r st', m env st = (Ret tt, st') ∧ sent st' = sent st ++ [r].

(** [m] returns normally after exactly one answer, or throws without an
    answer. *)
Definition answers_or_throws (m : M unit) : Prop :=
  ∀ env st, ∃ st',
    (∃ r, m env st = (Ret tt, st') ∧ sent st' = sent st ++ [r]) ∨
    (∃ e, m env st = (Throw e, st') ∧ sent st' = sent st).

(** [m] returns normally after exactly one answer, which satisfies [ok],
    or throws without an answer. *)
Definition answers_with (ok : response → Prop) (m : M unit) : Prop :=
  ∀ env st, ∃ st',
    (∃ r, m env st = (Ret tt, st') ∧ sent st' = sent st ++ [r] ∧ ok r) ∨
    (∃ e, m env st = (Throw e, st') ∧ sent st' = sent st).

(** The answer [r] to the add-show request [req_body] tells that the fetch
    of the movie has failed: the lookup found no Movie, the [try] block
    inside [if (!movie)] threw an error, and [r] is the failure with
    [Failed to fetch movie from TMDB: ] and the message of that error. *)
Definition fetch_failure (req_body : json) (env : Env) (st : State) (r : response)
  : Prop :=
  ∃ movieId showsInput showPrice st0 e st1,
    destructure_body req_body = inl (movieId, showsInput, showPrice) ∧
    Movie_findById_json movieId env st = (Ret None, st0) ∧
    addShow_fetch_try movieId env st0 = (Throw e, st1) ∧
    r = RFail ("Failed to fetch movie from TMDB: " +:+ message e).

(** A request whose answer tells a failed fetch of the movie. *)
Definition reported_as_fetch_failure (r : response) : Prop :=
  ∃ msg, r = RFail ("Failed to fetch movie from TMDB: " +:+ msg).

(** ** The grouping of [getShow], without its effects *)

(** Whether a Date holds the instant: it is within 8.64e15 ms of the epoch. *)
Definition in_range (t : Z) : bool := Z.abs t <=? 8640000000000000.

(** The key under which [getShow] files a show at instant [t]. *)
Definition date_key (t : Z) : string :=
  before_T (iso_date t +:+ "T" +:+ iso_time t).

Definition slot_of (show : Show) : Slot :=
  {| slot_time := showDateTime show; slot_showId := show_id show |}.

Definition group_step (dateTime : list (string * list Slot)) (show : Show)
  : list (string * list Slot) :=
  let date := date_key (showDateTime show) in
  push_bucket date (slot_of show)
    match get_bucket date dateTime with
    | Some _ => dateTime
    | None => dateTime ++ [(date, [])]
    end.

Definition group_by_date (ss : list Show) : list (string * list Slot) :=
  fold_left group_step ss [].

(** The slots of the shows of a list that fall on the date [d], in the
    order of the list. *)
Definition slots_on (d : string) (ss : list Show) : list Slot :=
  map slot_of (List.filter (λ s, String.eqb (date_key (showDateTime s)) d) ss).

(** What [.split("T")[0]] needs of the date part. *)
Fixpoint no_T (s : string) : bool :=
  match s with
  | EmptyString => true
  | String c rest => negb (Ascii.eqb c "T") && no_T rest
  end.

(** Every Movie is stored under its own identifier. *)
Definition store_wf (st : State) : Prop :=
  ∀ k m, movies st !! k = Some m → _id m = k.

(** The reference [populate] puts in place of the identifier. *)
Definition ref_of (ms : gmap string Movie) (s : Show) : option MovieDoc :=
  match ms !! movie s with
  | Some m => Some {| doc_addr := movie s; doc_value := m |}
  | None => None
  end.

(** The add-show request of the scheduler's example. *)
Definition dune_request : AddShowBody :=
  {| movieId := "438631"; showsInput := example_schedule; body_showPrice := 25 # 2 |}.

(** A request that lists the evening before the afternoon. *)
Definition evening_first : AddShowBody :=
  {| movieId := "438631";
     showsInput := [{| date := "2024-05-01"; time := ["18:00"; "14:00"] |}];
     body_showPrice := 25 # 2 |}.

(** No two positions of a Set hold the same value. *)
Definition distinct (s : list (option MovieDoc)) : Prop :=
  ∀ i j x y, s !! i = Some x → s !! j = Some y → same_value x y = true → i = j.

(** A store with two movies: two upcoming shows of the first, and one
    show of the second that lies in the past of the example host. *)
Definition dune : Movie := normalized "438631" dune_json.

Definition matrix : Movie :=
  normalized "603" (JObj [("title", JStr "The Matrix"); ("tagline", JStr "Free your mind.")]).

Definition listing_state : State :=
  {| movies := <["438631" := dune]> (<["603" := matrix]> ∅);
     shows :=
       [{| show_id := 0; movie := "438631"; showDateTime := 1714572000000;
           showPrice := 25 # 2; occupiedSeats := ∅ |};
        {| show_id := 1; movie := "603"; showDateTime := 1709316000000;
           showPrice := 10; occupiedSeats := ∅ |};
        {| show_id := 2; movie := "438631"; showDateTime := 1714586400000;
           showPrice := 25 # 2; occupiedSeats := ∅ |}];
     next_show_id := 3; trace := []; sent := [] |}.

(** [m] keeps the invariant [I] of the state, however it ends. *)
Definition preserves {A} (I : State → Prop) (m : M A) : Prop :=
  ∀ env st, I st → I (snd (m env st)).

(** ** Relations between the states before and after a computation *)

(** The computation [m] takes every state to one that is [R]-related to
    it, however it ends. *)
Definition respects {A} (R : State → State → Prop) (m : M A) : Prop :=
  ∀ env st, R st (snd (m env st)).

(** The collections of the second state are those of the first. *)
Definition same_collections (st st' : State) : Prop :=
  movies st' = movies st ∧ shows st' = shows st
  ∧ next_show_id st' = next_show_id st.

(** The second state holds all that the first holds: every stored Movie
    under its key, the stored Shows as the first ones of the collection,
    and the answers given and the effects logged so far. *)
Definition extends (st st' : State) : Prop :=
  movies st ⊆ movies st' ∧ shows st `prefix_of` shows st'
  ∧ sent st `prefix_of` sent st' ∧ trace st `prefix_of` trace st'.

#[global] Instance same_collections_preorder : PreOrder same_collections.
Proof.
  split.
  - by intros st.
  - intros st1 st2 st3 (Hm & Hs & Hn) (Hm' & Hs' & Hn').
    repeat split; congruence.
Qed.

#[global] Instance extends_preorder : PreOrder extends.
Proof.
  split.
  - by intros st.
  - intros st1 st2 st3 (Hm & Hs & Ha & Ht) (Hm' & Hs' & Ha' & Ht').
    repeat split; by etrans.
Qed.

(** The delays slept in a trace, in order. *)
Definition sleeps_of (t : list event) : list Z :=
  omap (λ ev, match ev with EvSleep ms => Some ms | _ => None end) t.


(** ** The requests of the show routes, one after the other *)

Inductive request :=
| NowPlaying
| AddShow (body : AddShowBody)
| GetShows
| GetShow (movieId : string).

Definition handle (req : request) : M unit :=
  match req with
  | NowPlaying => getNowPlayingMovies
  | AddShow body => addShow body
  | GetShows => getShows
  | GetShow movieId => getShow movieId
  end.

(** The state after the requests of a list have been handled in order, each
    in the world it arrives in. *)
Fixpoint serve (reqs : list (Env * request)) (st : State) : State :=
  match reqs with
  | [] => st
  | (env, req) :: rest => serve rest (snd (handle req env st))
  end.

(** ** The order of a Set *)

(** The elements of [l] that a Set holding [seen] takes in, in the order in
    which it takes them in: each value at its first occurrence. *)
Fixpoint fresh (seen l : list (option MovieDoc)) : list (option MovieDoc) :=
  match l with
  | [] => []
  | x :: rest =>
      if existsb (same_value x) seen then fresh seen rest
      else x :: fresh (seen ++ [x]) rest
  end.

(** How many slots an availability answer holds in all. *)
Definition total_slots (dateTime : list (string * list Slot)) : nat :=
  sum_list (map (λ bucket, length bucket.2) dateTime).

(** * Properties *)

(** ** The state and the trace *)

Lemma log_events_nil st : log_events [] st = st.
Proof. destruct st. unfold log_events. simpl. by rewrite app_nil_r. Qed.

Lemma log_events_app evs1 evs2 st :
  log_events evs2 (log_events evs1 st) = log_events (evs1 ++ evs2) st.
Proof. unfold log_events. simpl. by rewrite app_assoc. Qed.

Lemma app_assoc_3 {A} (a b c d : list A) : (a ++ b ++ c) ++ d = a ++ b ++ c ++ d.
Proof. by rewrite <- !app_assoc. Qed.

Lemma app_assoc_4 {A} (a b c d e : list A) :
  ((a ++ b ++ c) ++ d) ++ e = a ++ b ++ c ++ d ++ e.
Proof. by rewrite <- !app_assoc. Qed.

Lemma trace_log_events evs st : trace (log_events evs st) = trace st ++ evs.
Proof. reflexivity. Qed.

Lemma count_get_app url t1 t2 :
  count_get url (t1 ++ t2) = (count_get url t1 + count_get url t2)%nat.
Proof.
  induction t1 as [|ev t1 IH]; [done|].
  destruct ev; simpl; try done. case_decide; simpl; lia.
Qed.

Lemma count_get_failed_attempts url i n :
  count_get url (failed_attempts url i n) = n.
Proof.
  revert i. induction n as [|n IH]; intros i; [done|].
  simpl. rewrite decide_True by done. by rewrite IH.
Qed.

Lemma count_db_app t1 t2 :
  count_db (t1 ++ t2) = (count_db t1 + count_db t2)%nat.
Proof.
  induction t1 as [|ev t1 IH]; [done|]. destruct ev; simpl; lia.
Qed.

(** ** RetryingFetcher *)

(** One GET that the catalog answers. *)
Lemma axios_get_ok url env st r :
  http env url (count_get url (trace st)) = inl r →
  axios_get url env st = (Ret r, log_events [EvGet url TMDB_TIMEOUT] st).
Proof. intros H. unfold axios_get. by rewrite H. Qed.

(** One GET that fails. *)
Lemma axios_get_fails url env st e :
  http env url (count_get url (trace st)) = inr e →
  axios_get url env st = (Throw e, log_events [EvGet url TMDB_TIMEOUT] st).
Proof. intros H. unfold axios_get. by rewrite H. Qed.

(** The comparisons of the loop, as propositions. *)
Lemma Qlt_bool_true x y : (x < y)%Q → Qlt_bool x y = true.
Proof.
  intros H. unfold Qlt_bool. apply negb_true_iff, not_true_is_false.
  rewrite Qle_bool_iff. by apply Qlt_not_le.
Qed.

Lemma Qlt_bool_false x y : (y <= x)%Q → Qlt_bool x y = false.
Proof. intros H. unfold Qlt_bool. apply negb_false_iff. by apply Qle_bool_iff. Qed.

Lemma Qlt_bool_lt x y : Qlt_bool x y = true → (x < y)%Q.
Proof.
  unfold Qlt_bool. intros H%negb_true_iff. apply Qnot_le_lt.
  intros Hle%Qle_bool_iff. congruence.
Qed.

Lemma Qeq_bool_true x y : (x == y)%Q → Qeq_bool x y = true.
Proof. apply Qeq_bool_iff. Qed.

Lemma Qeq_bool_false x y : ¬ (x == y)%Q → Qeq_bool x y = false.
Proof. intros H. apply not_true_is_false. by rewrite Qeq_bool_iff. Qed.

Lemma inject_Z_succ i : (inject_Z (i + 1) == inject_Z i + 1)%Q.
Proof. by rewrite inject_Z_plus. Qed.

Lemma inject_Z_below i k : i < k → (inject_Z i + 1 <= inject_Z k)%Q.
Proof. intros H. rewrite <- inject_Z_succ, <- Zle_Qle. lia. Qed.

(** A whole number is below [retries] exactly when it is below the
    ceiling of [retries]. *)
Lemma below_ceiling i retries : (inject_Z i < retries)%Q ↔ i < Qceiling retries.
Proof.
  split; intros H.
  - rewrite Zlt_Qlt. eapply Qlt_le_trans; [exact H|apply Qle_ceiling].
  - eapply Qle_lt_trans; [|apply (Qceiling_lt retries)].
    rewrite <- Zle_Qle. lia.
Qed.

Lemma Qceiling_whole retries k : (retries == inject_Z k)%Q → Qceiling retries = k.
Proof. intros H. rewrite H. apply Qceiling_Z. Qed.

(** The loop does nothing once the index has reached [retries]. *)
Lemma retry_loop_done fuel url retries i env st :
  (retries <= inject_Z i)%Q → retry_loop fuel url retries i env st = (Ret None, st).
Proof.
  intros H. destruct fuel; simpl; by rewrite (Qlt_bool_false _ _ H).
Qed.

(** One step of the loop, when the attempt fails and is not the last:
    the line is logged, the delay slept and the loop goes on. *)
Lemma retry_loop_step fuel url retries i env st e :
  (inject_Z i < retries)%Q → ¬ (inject_Z i == retries - 1)%Q →
  http env url (count_get url (trace st)) = inr e →
  retry_loop (S fuel) url retries i env st
  = retry_loop fuel url retries (i + 1) env (log_events (failed_attempt url i) st).
Proof.
  intros Hi Hlast He. simpl. rewrite (Qlt_bool_true _ _ Hi).
  unfold bind at 1. unfold try_catch. unfold bind at 1.
  rewrite (axios_get_fails _ _ _ _ He), (Qeq_bool_false _ _ Hlast).
  unfold bind, console_log, sleep, emit, ret, log_event.
  by rewrite !log_events_app.
Qed.

Lemma count_get_failed_attempt url i st :
  count_get url (trace (log_events (failed_attempt url i) st))
  = S (count_get url (trace st)).
Proof.
  rewrite trace_log_events, count_get_app. simpl.
  rewrite decide_True by done. lia.
Qed.

(** The loop when the next [n] attempts fail and the one after them is
    answered: it returns that answer after the [n] back-offs. *)
Lemma retry_loop_succeeds n fuel url retries i env st r :
  (n < fuel)%nat → (inject_Z (i + Z.of_nat n) < retries)%Q →
  (∀ j, (j < n)%nat → ∃ e, http env url (count_get url (trace st) + j)%nat = inr e) →
  http env url (count_get url (trace st) + n)%nat = inl r →
  retry_loop fuel url retries i env st
  = (Ret (Some r),
     log_events (failed_attempts url i n ++ [EvGet url TMDB_TIMEOUT]) st).
Proof.
  revert fuel i st. induction n as [|n IH]; intros fuel i st Hfuel Hi Hfail Hok.
  - destruct fuel as [|fuel]; [lia|]. simpl.
    rewrite Z.add_0_r in Hi. rewrite (Qlt_bool_true _ _ Hi).
    unfold bind, try_catch. rewrite Nat.add_0_r in Hok.
    by rewrite (axios_get_ok _ _ _ _ Hok).
  - destruct fuel as [|fuel]; [lia|].
    destruct (Hfail 0%nat) as [e He]; [lia|]. rewrite Nat.add_0_r in He.
    pose proof (inject_Z_below i (i + Z.of_nat (S n)) ltac:(lia)) as Hbelow.
    rewrite (retry_loop_step _ _ _ _ _ _ e); [| lra | lra | exact He].
    rewrite (IH fuel (i + 1)); [| lia | | |].
    + rewrite log_events_app. simpl. by rewrite <- ?app_assoc.
    + by replace (i + 1 + Z.of_nat n) with (i + Z.of_nat (S n)) by lia.
    + intros j Hj. rewrite count_get_failed_attempt.
      destruct (Hfail (S j)) as [e' He']; [lia|]. exists e'.
      rewrite <- He'. f_equal. lia.
    + rewrite count_get_failed_attempt. rewrite <- Hok. f_equal. lia.
Qed.

(** The loop when [retries] is a whole number and every attempt that is
    left fails: the last one rethrows its error. *)
Lemma retry_loop_exhausts n fuel url retries i env st e :
  (n < fuel)%nat → (retries == inject_Z (i + Z.of_nat n + 1))%Q →
  (∀ j, (j < n)%nat → ∃ e, http env url (count_get url (trace st) + j)%nat = inr e) →
  http env url (count_get url (trace st) + n)%nat = inr e →
  retry_loop fuel url retries i env st
  = (Throw e,
     log_events (failed_attempts url i n ++ [EvGet url TMDB_TIMEOUT]) st).
Proof.
  revert fuel i st. induction n as [|n IH]; intros fuel i st Hfuel Hi Hfail Hlast.
  - destruct fuel as [|fuel]; [lia|]. simpl.
    rewrite Z.add_0_r in Hi. pose proof (inject_Z_succ i) as Hs.
    rewrite Qlt_bool_true by lra.
    unfold bind, try_catch. rewrite Nat.add_0_r in Hlast.
    rewrite (axios_get_fails _ _ _ _ Hlast).
    by rewrite Qeq_bool_true by lra.
  - destruct fuel as [|fuel]; [lia|].
    destruct (Hfail 0%nat) as [e0 He0]; [lia|]. rewrite Nat.add_0_r in He0.
    pose proof (inject_Z_below i (i + Z.of_nat (S n)) ltac:(lia)) as Hbelow.
    pose proof (inject_Z_succ (i + Z.of_nat (S n))) as Hs.
    rewrite (retry_loop_step _ _ _ _ _ _ e0); [| lra | lra | exact He0].
    rewrite (IH fuel (i + 1) _ ltac:(lia)).
    + rewrite log_events_app. simpl. by rewrite <- ?app_assoc.
    + by replace (i + 1 + Z.of_nat n) with (i + Z.of_nat (S n)) by lia.
    + intros j Hj. rewrite count_get_failed_attempt.
      destruct (Hfail (S j)) as [e' He']; [lia|]. exists e'.
      rewrite <- He'. f_equal. lia.
    + rewrite count_get_failed_attempt. rewrite <- Hlast. f_equal. lia.
Qed.

(** The loop when [retries] is not a whole number and every attempt that is
    left fails: no attempt is the last one, each is followed by its
    back-off, and the loop ends without a result. *)
Lemma retry_loop_falls_off n fuel url retries i env st :
  (n ≤ fuel)%nat → Qceiling retries = i + Z.of_nat n →
  ¬ (retries == inject_Z (Qceiling retries))%Q →
  (∀ j, (j < n)%nat → ∃ e, http env url (count_get url (trace st) + j)%nat = inr e) →
  retry_loop fuel url retries i env st
  = (Ret None, log_events (failed_attempts url i n) st).
Proof.
  revert fuel i st. induction n as [|n IH]; intros fuel i st Hfuel Hi Hfrac Hfail.
  - rewrite retry_loop_done; [by rewrite log_events_nil|].
    rewrite Z.add_0_r in Hi. rewrite <- Hi. apply Qle_ceiling.
  - destruct fuel as [|fuel]; [lia|].
    destruct (Hfail 0%nat) as [e He]; [lia|]. rewrite Nat.add_0_r in He.
    rewrite (retry_loop_step _ _ _ _ _ _ e); [| | | exact He].
    + rewrite (IH fuel (i + 1)); [| lia | lia | done |].
      * rewrite log_events_app. simpl. by rewrite <- ?app_assoc.
      * intros j Hj. rewrite count_get_failed_attempt.
        destruct (Hfail (S j)) as [e' He']; [lia|]. exists e'.
        rewrite <- He'. f_equal. lia.
    + apply below_ceiling. lia.
    + intros Heq. apply Hfrac.
      assert (retries == inject_Z (i + 1))%Q as Hw
        by (pose proof (inject_Z_succ i); lra).
      by rewrite (Qceiling_whole _ _ Hw).
Qed.

(** The effects of a call of [fetchWithRetry] that makes [n] failed
    attempts followed by one more attempt. *)
Lemma fetchWithRetry_succeeds n url retries env st r :
  (inject_Z (Z.of_nat n) < retries)%Q →
  (∀ j, (j < n)%nat → ∃ e, http env url (count_get url (trace st) + j)%nat = inr e) →
  http env url (count_get url (trace st) + n)%nat = inl r →
  fetchWithRetry url retries env st
  = (Ret (Some r),
     log_events (fetch_events url n) st).
Proof.
  intros Hn Hfail Hok. unfold fetch_events, fetchWithRetry, bind, emit, log_event.
  rewrite (retry_loop_succeeds n _ _ _ _ _ _ r); [| | done | |].
  - by rewrite log_events_app.
  - apply below_ceiling in Hn. lia.
  - intros j Hj. simpl. rewrite count_get_app, Nat.add_0_r. by apply Hfail.
  - simpl. by rewrite count_get_app, Nat.add_0_r.
Qed.

Lemma fetchWithRetry_exhausts n url retries env st e :
  (retries == inject_Z (Z.of_nat n + 1))%Q →
  (∀ j, (j < n)%nat → ∃ e, http env url (count_get url (trace st) + j)%nat = inr e) →
  http env url (count_get url (trace st) + n)%nat = inr e →
  fetchWithRetry url retries env st
  = (Throw e,
     log_events (fetch_events url n) st).
Proof.
  intros Hn Hfail Hlast. unfold fetch_events, fetchWithRetry, bind, emit, log_event.
  rewrite (Qceiling_whole _ _ Hn).
  rewrite (retry_loop_exhausts n _ _ _ _ _ _ e); [| lia | done | |].
  - by rewrite log_events_app.
  - intros j Hj. simpl. rewrite count_get_app, Nat.add_0_r. by apply Hfail.
  - simpl. by rewrite count_get_app, Nat.add_0_r.
Qed.

(** A call with a [retries] that is not a whole number, when every attempt
    fails: it makes as many attempts as there are whole numbers below
    [retries], sleeps after each of them, and returns [undefined]. *)
Lemma fetchWithRetry_falls_off url retries env st :
  (0 < retries)%Q → ¬ (retries == inject_Z (Qceiling retries))%Q →
  (∀ j, (j < Z.to_nat (Qceiling retries))%nat →
        ∃ e, http env url (count_get url (trace st) + j)%nat = inr e) →
  fetchWithRetry url retries env st
  = (Ret None,
     log_events (EvFetch url :: failed_attempts url 0 (Z.to_nat (Qceiling retries))) st).
Proof.
  intros Hpos Hfrac Hfail. unfold fetchWithRetry, bind, emit, log_event.
  assert (0 < Qceiling retries) as Hc by (by apply (below_ceiling 0)).
  rewrite (retry_loop_falls_off (Z.to_nat (Qceiling retries))); [| lia | lia | done |].
  - by rewrite log_events_app.
  - intros j Hj. simpl. rewrite count_get_app, Nat.add_0_r. by apply Hfail.
Qed.

(** Among the next [N] attempts either one is answered, after failures
    only, or all fail. *)
Lemma first_answer_or_all_fail env url k N :
  (∃ n r, (n < N)%nat ∧
     (∀ j, (j < n)%nat → ∃ e, http env url (k + j)%nat = inr e) ∧
     http env url (k + n)%nat = inl r) ∨
  (∀ j, (j < N)%nat → ∃ e, http env url (k + j)%nat = inr e).
Proof.
  induction N as [|N [IH|IH]].
  - right. intros j Hj. lia.
  - left. destruct IH as (n & r & Hn & Hf & Hr). exists n, r. split; [lia|done].
  - destruct (http env url (k + N)%nat) as [r|e] eqn:E.
    + left. exists N, r. split; [lia|done].
    + right. intros j Hj. destruct (decide (j = N)) as [->|Hne]; [eauto|].
      apply IH. lia.
Qed.

(** The default [retries] leaves room for two failed attempts before an
    answer. *)
Lemma within_default n : (n ≤ 2)%nat → (inject_Z (Z.of_nat n) < MAX_RETRIES)%Q.
Proof. intros H. change MAX_RETRIES with (inject_Z 3). rewrite <- Zlt_Qlt. lia. Qed.

(** With the default configuration a call always ends, with a response or
    with an error (never with [undefined]), after one to three attempts. *)
Lemma fetchWithRetry_default_total url env st :
  ∃ n, (n ≤ 2)%nat ∧
    ((∃ r, fetchWithRetry url MAX_RETRIES env st
           = (Ret (Some r), log_events (fetch_events url n) st)) ∨
     (∃ e, fetchWithRetry url MAX_RETRIES env st
           = (Throw e, log_events (fetch_events url n) st))).
Proof.
  set (k := count_get url (trace st)).
  destruct (http env url (k + 0)%nat) as [r0|e0] eqn:H0.
  { exists 0%nat. split; [lia|]. left. exists r0.
    apply (fetchWithRetry_succeeds 0); [done | intros; lia | done]. }
  destruct (http env url (k + 1)%nat) as [r1|e1] eqn:H1.
  { exists 1%nat. split; [lia|]. left. exists r1.
    apply (fetchWithRetry_succeeds 1); [done | | done].
    intros j Hj. assert (j = 0%nat) as -> by lia. eauto. }
  assert (∀ j, (j < 2)%nat → ∃ e, http env url (k + j)%nat = inr e) as Hfail.
  { intros j Hj. destruct j as [|[|j]]; [eauto | eauto | lia]. }
  exists 2%nat. split; [lia|].
  destruct (http env url (k + 2)%nat) as [r2|e2] eqn:H2.
  - left. exists r2. by apply (fetchWithRetry_succeeds 2).
  - right. exists e2. by apply (fetchWithRetry_exhausts 2).
Qed.

(** With the default configuration: the call returns the first answer
    among its three attempts, or the three fail and it throws the third
    error. *)
Lemma fetchWithRetry_default_cases url env st :
  (∃ n r, answers env url (count_get url (trace st)) n r ∧
          fetchWithRetry url MAX_RETRIES env st
          = (Ret (Some r), log_events (fetch_events url n) st)) ∨
  (fails_thrice env url (count_get url (trace st)) ∧
   ∃ e, http env url (count_get url (trace st) + 2)%nat = inr e ∧
        fetchWithRetry url MAX_RETRIES env st
        = (Throw e, log_events (fetch_events url 2) st)).
Proof.
  destruct (first_answer_or_all_fail env url (count_get url (trace st)) 3)
    as [(n & r & Hn & Hf & Hr)|Hall].
  - left. exists n, r. split; [split; [lia|done]|].
    apply fetchWithRetry_succeeds; [apply within_default; lia|done..].
  - right. split; [exact Hall|]. destruct (Hall 2%nat) as [e He]; [lia|].
    exists e. split; [done|].
    apply (fetchWithRetry_exhausts 2); [done| |done]. intros j Hj. apply Hall. lia.
Qed.

Lemma new_events_log_events evs st : new_events st (log_events evs st) = evs.
Proof. unfold new_events. rewrite trace_log_events. apply drop_app_length. Qed.

(** A fetch whose three attempts fail takes the three GETs and the two
    back-offs. *)
Lemma elapsed_fetch_events_2 env t url :
  elapsed env t (fetch_events url 2) = rejects_after env url (count_get url t).
Proof.
  unfold fetch_events, rejects_after.
  cbn [failed_attempts failed_attempt app elapsed].
  rewrite <- !app_assoc. cbn [app].
  rewrite !count_get_app. cbn [count_get]. rewrite !decide_True by done.
  replace (count_get url t + 0 + 0 + 1 + 0 + 0)%nat with (count_get url t + 1)%nat by lia.
  replace (count_get url t + 0 + 0 + 1 + 0 + 0 + 1 + 0 + 0)%nat
    with (count_get url t + 2)%nat by lia.
  replace (count_get url t + 0)%nat with (count_get url t) by lia.
  lia.
Qed.

(** The fuel [fetchWithRetry] gives its loop is enough: whatever [retries]
    is, the call ends with a response, with [undefined] or with an error. *)
Lemma retry_loop_fuel fuel url retries i env st :
  (Z.to_nat (Qceiling retries - i) ≤ fuel)%nat →
  fst (retry_loop fuel url retries i env st) ≠ OutOfFuel.
Proof.
  revert i st. induction fuel as [|fuel IH]; intros i st Hfuel.
  - rewrite retry_loop_done; [done|].
    eapply Qle_trans; [apply Qle_ceiling|]. rewrite <- Zle_Qle. lia.
  - simpl. destruct (Qlt_bool (inject_Z i) retries) eqn:Hi; [|done].
    apply Qlt_bool_lt, below_ceiling in Hi.
    unfold bind at 1. unfold try_catch. unfold bind at 1.
    unfold axios_get. destruct (http env url (count_get url (trace st))) as [r|e].
    + done.
    + destruct (Qeq_bool (inject_Z i) (retries - 1)); [done|].
      unfold bind, console_log, sleep, emit, ret. apply IH. lia.
Qed.

Lemma fetchWithRetry_ends url retries env st :
  fst (fetchWithRetry url retries env st) ≠ OutOfFuel.
Proof.
  unfold fetchWithRetry, bind, emit. apply retry_loop_fuel. lia.
Qed.

(** The back-offs of [n] failed attempts from index [i] on are
    [RETRY_DELAY * 2 ^ j] for [j] from [i] on, in this order. *)
Lemma sleeps_failed_attempts url i n :
  omap (λ ev, match ev with EvSleep ms => Some ms | _ => None end)
       (failed_attempts url i n)
  = map (λ j, RETRY_DELAY * 2 ^ (i + Z.of_nat j)) (seq 0 n).
Proof.
  revert i. induction n as [|n IH]; intros i; [done|].
  cbn [failed_attempts]. unfold failed_attempt.
  rewrite omap_app, IH. cbn [seq map]. rewrite Z.add_0_r.
  rewrite <- seq_shift, map_map. simpl. f_equal.
  apply map_ext. intros j. do 2 f_equal. lia.
Qed.

(** C2: with the default configuration, when the request fails on every
    attempt, [fetchWithRetry] makes exactly 3 attempts and throws the error
    of the third one as it is; it sleeps 1000 * 2^0 ms after the first
    failure and 1000 * 2^1 ms after the second, 1000 ms and 2000 ms. *)
Theorem fetchWithRetry_three_attempts url env st :
  (∀ k, ∃ e, http env url k = inr e) →
  ∃ e st',
    fetchWithRetry url MAX_RETRIES env st = (Throw e, st') ∧
    http env url (count_get url (trace st) + 2)%nat = inr e ∧
    trace st' = trace st ++
      [EvFetch url;
       EvGet url TMDB_TIMEOUT;
       EvLog (retry_line 1 1000 url); EvSleep (RETRY_DELAY * 2 ^ 0);
       EvGet url TMDB_TIMEOUT;
       EvLog (retry_line 2 2000 url); EvSleep (RETRY_DELAY * 2 ^ 1);
       EvGet url TMDB_TIMEOUT] ∧
    count_get url (trace st') = (count_get url (trace st) + 3)%nat ∧
    RETRY_DELAY * 2 ^ 0 = 1000 ∧ RETRY_DELAY * 2 ^ 1 = 2000.
Proof.
  intros Hfail.
  destruct (Hfail (count_get url (trace st) + 2)%nat) as [e He].
  exists e. eexists. split.
  { apply (fetchWithRetry_exhausts 2); [done | | done]. intros j _. apply Hfail. }
  split; [done|]. split; [done|]. split; [|done].
  simpl. rewrite count_get_app. simpl. by rewrite !decide_True by done.
Qed.

Lemma fetchWithRetry_three_attempts_witness :
  (∀ k, ∃ e, http host_down now_playing_url k = inr e) ∧
  ∃ e st',
    fetchWithRetry now_playing_url MAX_RETRIES host_down empty_state = (Throw e, st') ∧
    http host_down now_playing_url (count_get now_playing_url (trace empty_state) + 2)%nat
    = inr e ∧
    trace st' = trace empty_state ++
      [EvFetch now_playing_url;
       EvGet now_playing_url TMDB_TIMEOUT;
       EvLog (retry_line 1 1000 now_playing_url); EvSleep (RETRY_DELAY * 2 ^ 0);
       EvGet now_playing_url TMDB_TIMEOUT;
       EvLog (retry_line 2 2000 now_playing_url); EvSleep (RETRY_DELAY * 2 ^ 1);
       EvGet now_playing_url TMDB_TIMEOUT] ∧
    count_get now_playing_url (trace st')
    = (count_get now_playing_url (trace empty_state) + 3)%nat ∧
    RETRY_DELAY * 2 ^ 0 = 1000 ∧ RETRY_DELAY * 2 ^ 1 = 2000.
Proof.
  assert (∀ k, ∃ e, http host_down now_playing_url k = inr e) as H.
  { intros k. exists timed_out. reflexivity. }
  split; [exact H|].
  exact (fetchWithRetry_three_attempts now_playing_url host_down empty_state H).
Defined.

(** C10: called with [retries] at 0 or below, [fetchWithRetry] makes no
    attempt and returns [undefined]: neither a response nor an error.  The
    trace gains the mark of the call and nothing else. *)
Theorem fetchWithRetry_no_attempt url retries env st :
  (retries <= 0)%Q →
  fetchWithRetry url retries env st = (Ret None, log_events [EvFetch url] st) ∧
  ∀ u, count_get u (trace (snd (fetchWithRetry url retries env st)))
       = count_get u (trace st).
Proof.
  intros H.
  assert (fetchWithRetry url retries env st = (Ret None, log_events [EvFetch url] st)) as E.
  { unfold fetchWithRetry, bind, emit, log_event. by rewrite retry_loop_done. }
  split; [exact E|]. intros u. rewrite E. simpl.
  rewrite count_get_app. simpl. lia.
Qed.

Lemma fetchWithRetry_no_attempt_witness :
  (0 <= 0)%Q ∧
  fetchWithRetry now_playing_url 0 host empty_state
  = (Ret None, log_events [EvFetch now_playing_url] empty_state) ∧
  ∀ u, count_get u (trace (snd (fetchWithRetry now_playing_url 0 host empty_state)))
       = count_get u (trace empty_state).
Proof.
  split; [unfold Qle; simpl; lia|].
  apply (fetchWithRetry_no_attempt now_playing_url 0 host empty_state).
  unfold Qle; simpl; lia.
Defined.

(** ** Stepping through a handler *)

Lemma bind_ret {A B} (m : M A) (k : A → M B) env st a st' :
  m env st = (Ret a, st') → bind m k env st = k a env st'.
Proof. intros H. unfold bind. by rewrite H. Qed.

Lemma bind_throw {A B} (m : M A) (k : A → M B) env st e st' :
  m env st = (Throw e, st') → bind m k env st = (Throw e, st').
Proof. intros H. unfold bind. by rewrite H. Qed.

Lemma try_catch_ret {A} (body : M A) handler env st a st' :
  body env st = (Ret a, st') → try_catch body handler env st = (Ret a, st').
Proof. intros H. unfold try_catch. by rewrite H. Qed.

Lemma try_catch_throw {A} (body : M A) handler env st e st' :
  body env st = (Throw e, st') →
  try_catch body handler env st = handler e env st'.
Proof. intros H. unfold try_catch. by rewrite H. Qed.

(** A call into the persistence layer that meets no fault. *)
Lemma db_call_ok op env st :
  db_fault env (count_db (trace st)) = None →
  db_call op env st = (Ret tt, log_events [EvDb op] st).
Proof. intros H. unfold db_call. by rewrite H. Qed.

Lemma db_call_fault op env st e :
  db_fault env (count_db (trace st)) = Some e →
  db_call op env st = (Throw e, log_events [EvDb op] st).
Proof. intros H. unfold db_call. by rewrite H. Qed.

(** ** ShowScheduler *)

Lemma build_times movieId showPrice showDate times acc env st :
  foldM (λ showsToCreate time,
           let dateTimeString := showDate +:+ "T" +:+ time in
           let! showDateTime := Date_new dateTimeString in
           ret (showsToCreate ++
                  [{| d_movie := movieId; d_showDateTime := showDateTime;
                      d_showPrice := showPrice; d_occupiedSeats := ∅ |}]))
        acc times env st
  = (Ret (acc ++ map (λ time,
                        {| d_movie := movieId;
                           d_showDateTime := Date_parse env (showDate +:+ "T" +:+ time);
                           d_showPrice := showPrice; d_occupiedSeats := ∅ |}) times),
     st).
Proof.
  revert acc. induction times as [|t times IH]; intros acc; simpl.
  - unfold ret. by rewrite app_nil_r.
  - unfold bind at 1. unfold bind at 1. unfold Date_new, ret at 1.
    rewrite IH. by rewrite <- app_assoc.
Qed.

Lemma build_shows movieId showPrice showsInput acc env st :
  foldM (λ showsToCreate show,
           let showDate := date show in
           foldM (λ showsToCreate time,
                    let dateTimeString := showDate +:+ "T" +:+ time in
                    let! showDateTime := Date_new dateTimeString in
                    ret (showsToCreate ++
                           [{| d_movie := movieId;
                               d_showDateTime := showDateTime;
                               d_showPrice := showPrice;
                               d_occupiedSeats := ∅ |}]))
                 showsToCreate (time show))
        acc showsInput env st
  = (Ret (acc ++ map (λ p, {| d_movie := movieId;
                              d_showDateTime := Date_parse env (p.1 +:+ "T" +:+ p.2);
                              d_showPrice := showPrice; d_occupiedSeats := ∅ |})
                     (schedule_pairs showsInput)),
     st).
Proof.
  revert acc. induction showsInput as [|show rest IH]; intros acc.
  - simpl. unfold ret. by rewrite app_nil_r.
  - cbn [foldM]. erewrite bind_ret; [|apply build_times]. rewrite IH.
    unfold schedule_pairs. simpl. by rewrite map_app, map_map, app_assoc.
Qed.

(** The two nested loops visit the pairs of the schedule in order and push
    one draft for each. *)
Lemma build_showsToCreate_pairs movieId showsInput showPrice env st :
  build_showsToCreate movieId showsInput showPrice env st
  = (Ret (map (λ p, {| d_movie := movieId;
                       d_showDateTime := Date_parse env (p.1 +:+ "T" +:+ p.2);
                       d_showPrice := showPrice; d_occupiedSeats := ∅ |})
              (schedule_pairs showsInput)),
     st).
Proof. apply (build_shows movieId showPrice showsInput []). Qed.

Lemma length_schedule_pairs showsInput :
  length (schedule_pairs showsInput)
  = sum_list (map (λ show, length (time show)) showsInput).
Proof.
  induction showsInput as [|show rest IH]; [done|].
  unfold schedule_pairs in *. simpl. rewrite length_app, length_map. by rewrite IH.
Qed.

(** What the cast of a batch yields, when it yields. *)
Lemma cast_shows_Some next ds :
  Forall (λ d, is_Some (d_showDateTime d)) ds →
  ∃ new, cast_shows next ds = Some new ∧
    Forall2 (λ s d, d_showDateTime d = Some (showDateTime s) ∧ movie s = d_movie d
                    ∧ showPrice s = d_showPrice d
                    ∧ occupiedSeats s = d_occupiedSeats d) new ds ∧
    map show_id new = seq next (length ds).
Proof.
  intros H. revert next. induction H as [|d ds [t Ht] _ IH]; intros next.
  - exists []. by repeat split.
  - destruct (IH (S next)) as (new & E & HF & Hid). simpl.
    unfold cast_show. rewrite Ht, E. eexists. split; [done|]. split.
    + by constructor.
    + simpl. by rewrite Hid.
Qed.

(** A batch whose dates are all valid is appended to the collection. *)
Lemma Show_insertMany_ok ds env st :
  Forall (λ d, is_Some (d_showDateTime d)) ds →
  db_fault env (count_db (trace st)) = None →
  ∃ new,
    Show_insertMany ds env st
    = (Ret tt, put_shows new (log_events [EvDb (OpInsertShows (length ds))] st)) ∧
    Forall2 (λ s d, d_showDateTime d = Some (showDateTime s) ∧ movie s = d_movie d
                    ∧ showPrice s = d_showPrice d
                    ∧ occupiedSeats s = d_occupiedSeats d) new ds ∧
    map show_id new = seq (next_show_id st) (length ds).
Proof.
  intros Hds Hdb.
  destruct (cast_shows_Some (next_show_id st) ds Hds) as (new & E & HF & Hid).
  exists new. split; [|done].
  unfold Show_insertMany.
  erewrite bind_ret; [|by apply db_call_ok].
  unfold bind, get_next_show_id. simpl. by rewrite E.
Qed.

(** C3: the show-creation step of [addShow] builds exactly one Show for
    each (date, time) pair of the schedule, in order, so as many as the
    time lists have entries in total; each has the given price, no occupied
    seat, and for [showDateTime] the Date read from the date, a [T] and the
    time.  When the dates are valid and the store answers, exactly these
    Shows are written in one batch and success is reported.  When the
    schedule holds no pair, nothing is written, the store is not even
    called, and success is reported. *)
Theorem createShows_one_show_per_slot env st id showsInput price :
  let pairs := schedule_pairs showsInput in
  let drafts :=
    map (λ p, {| d_movie := id;
                 d_showDateTime := Date_parse env (p.1 +:+ "T" +:+ p.2);
                 d_showPrice := price; d_occupiedSeats := ∅ |}) pairs in
  build_showsToCreate id showsInput price env st = (Ret drafts, st) ∧
  length drafts = sum_list (map (λ show, length (time show)) showsInput) ∧
  (pairs ≠ [] →
   Forall (λ p, is_Some (Date_parse env (p.1 +:+ "T" +:+ p.2))) pairs →
   db_fault env (count_db (trace st)) = None →
   ∃ new,
     addShow_createShows id showsInput price env st
     = (Ret tt,
        add_sent (ROkMessage "Show Added successfully.")
          (put_shows new (log_events [EvDb (OpInsertShows (length pairs))] st))) ∧
     Forall2 (λ s p, Date_parse env (p.1 +:+ "T" +:+ p.2) = Some (showDateTime s)
                     ∧ movie s = id ∧ showPrice s = price ∧ occupiedSeats s = ∅)
             new pairs) ∧
  (pairs = [] →
   addShow_createShows id showsInput price env st
   = (Ret tt, add_sent (ROkMessage "Show Added successfully.") st)) ∧
  addShow_createShows id [] price env st
  = (Ret tt, add_sent (ROkMessage "Show Added successfully.") st).
Proof.
  intros pairs drafts.
  pose proof (build_showsToCreate_pairs id showsInput price env st) as Hbuild.
  split; [exact Hbuild|]. split.
  { unfold drafts. rewrite length_map. apply length_schedule_pairs. }
  split; [|split].
  - intros Hne Hdates Hdb.
    destruct (Show_insertMany_ok drafts env st) as (new & E & HF & _).
    { unfold drafts. rewrite Forall_map. exact Hdates. }
    { exact Hdb. }
    exists new. split.
    + unfold addShow_createShows. erewrite bind_ret; [|exact Hbuild].
      fold pairs. fold drafts.
      assert ((0 <? length drafts)%nat = true) as ->.
      { apply Nat.ltb_lt. unfold drafts. rewrite length_map.
        destruct pairs; [done | simpl; lia]. }
      erewrite bind_ret; [|exact E].
      unfold drafts. by rewrite length_map.
    + unfold drafts in HF. rewrite Forall2_fmap_r in HF.
      eapply Forall2_impl; [exact HF|]. simpl. naive_solver.
  - intros Hnil. unfold addShow_createShows.
    erewrite bind_ret; [|exact Hbuild]. fold pairs. by rewrite Hnil.
  - reflexivity.
Qed.

Lemma createShows_one_show_per_slot_witness :
  schedule_pairs example_schedule ≠ [] ∧
  Forall (λ p, is_Some (Date_parse host (p.1 +:+ "T" +:+ p.2)))
         (schedule_pairs example_schedule) ∧
  db_fault host (count_db (trace empty_state)) = None ∧
  build_showsToCreate "438631" example_schedule (25 # 2) host empty_state
  = (Ret [{| d_movie := "438631"; d_showDateTime := Some 1714572000000;
             d_showPrice := 25 # 2; d_occupiedSeats := ∅ |};
          {| d_movie := "438631"; d_showDateTime := Some 1714586400000;
             d_showPrice := 25 # 2; d_occupiedSeats := ∅ |};
          {| d_movie := "438631"; d_showDateTime := Some 1714680000000;
             d_showPrice := 25 # 2; d_occupiedSeats := ∅ |}],
     empty_state) ∧
  ∃ new,
    addShow_createShows "438631" example_schedule (25 # 2) host empty_state
    = (Ret tt,
       add_sent (ROkMessage "Show Added successfully.")
         (put_shows new (log_events [EvDb (OpInsertShows 3)] empty_state))) ∧
    Forall2 (λ s p, Date_parse host (p.1 +:+ "T" +:+ p.2) = Some (showDateTime s)
                    ∧ movie s = "438631" ∧ showPrice s = 25 # 2
                    ∧ occupiedSeats s = ∅)
            new (schedule_pairs example_schedule).
Proof.
  assert (schedule_pairs example_schedule ≠ []) as H1 by done.
  assert (Forall (λ p, is_Some (Date_parse host (p.1 +:+ "T" +:+ p.2)))
                 (schedule_pairs example_schedule)) as H2.
  { repeat constructor; vm_compute; eauto. }
  assert (db_fault host (count_db (trace empty_state)) = None) as H3 by reflexivity.
  destruct (createShows_one_show_per_slot host empty_state "438631"
              example_schedule (25 # 2)) as (Hb & _ & Hw & _).
  split; [exact H1|]. split; [exact H2|]. split; [exact H3|].
  split; [exact Hb|]. exact (Hw H1 H2 H3).
Defined.

(** ** CatalogCache *)

Lemma string_app_neq (s t : string) : t ≠ "" → s ≠ s +:+ t.
Proof.
  intros Ht. induction s as [|a s IH]; simpl.
  - intros E. by apply Ht.
  - intros E. injection E. exact IH.
Qed.

(** The two URLs of a movie differ. *)
Lemma details_credits_neq id : details_url id ≠ credits_url id.
Proof.
  unfold details_url, credits_url. intros E.
  apply (inj (String.app _)) in E. by apply string_app_neq in E.
Qed.

Lemma count_get_failed_attempts_other u url i n :
  url ≠ u → count_get u (failed_attempts url i n) = 0%nat.
Proof.
  intros Hne. revert i. induction n as [|n IH]; intros i; [done|].
  simpl. rewrite decide_False by done. apply IH.
Qed.

Lemma count_get_fetch_events url n :
  count_get url (fetch_events url n) = S n.
Proof.
  unfold fetch_events. simpl. rewrite count_get_app, count_get_failed_attempts.
  simpl. rewrite decide_True by done. lia.
Qed.

Lemma count_get_fetch_events_other u url n :
  url ≠ u → count_get u (fetch_events url n) = 0%nat.
Proof.
  intros Hne. unfold fetch_events. simpl.
  rewrite count_get_app, count_get_failed_attempts_other by done.
  simpl. by rewrite decide_False by done.
Qed.

Lemma count_db_failed_attempts url i n : count_db (failed_attempts url i n) = 0%nat.
Proof. revert i. induction n as [|n IH]; intros i; [done|]. simpl. apply IH. Qed.

Lemma count_db_fetch_events url n : count_db (fetch_events url n) = 0%nat.
Proof.
  unfold fetch_events. simpl. by rewrite count_db_app, count_db_failed_attempts.
Qed.

Lemma count_event_app ev t1 t2 :
  count_event ev (t1 ++ t2) = (count_event ev t1 + count_event ev t2)%nat.
Proof. unfold count_event. by rewrite filter_app, length_app. Qed.

Lemma count_event_cons ev ev' t :
  count_event ev (ev' :: t)
  = ((if decide (ev' = ev) then 1 else 0) + count_event ev t)%nat.
Proof. unfold count_event. rewrite filter_cons. by case_decide. Qed.

Lemma count_fetch_failed_attempts u url i n :
  count_event (EvFetch u) (failed_attempts url i n) = 0%nat.
Proof.
  revert i. induction n as [|n IH]; intros i; [done|].
  simpl. rewrite !count_event_cons, IH. by rewrite !decide_False by done.
Qed.

(** A call of [fetchWithRetry] is marked once in the trace. *)
Lemma count_fetch_fetch_events u url n :
  count_event (EvFetch u) (fetch_events url n)
  = if decide (url = u) then 1%nat else 0%nat.
Proof.
  unfold fetch_events. rewrite count_event_cons, count_event_app.
  rewrite count_fetch_failed_attempts, count_event_cons.
  rewrite (decide_False (P := EvGet _ _ = _)) by done.
  unfold count_event. simpl. repeat case_decide; simplify_eq; done.
Qed.

Lemma count_create_failed_attempts id url i n :
  count_event (EvDb (OpCreateMovie id)) (failed_attempts url i n) = 0%nat.
Proof.
  revert i. induction n as [|n IH]; intros i; [done|].
  simpl. rewrite !count_event_cons, IH. by rewrite !decide_False by done.
Qed.

Lemma count_create_fetch_events id url n :
  count_event (EvDb (OpCreateMovie id)) (fetch_events url n) = 0%nat.
Proof.
  unfold fetch_events. rewrite count_event_cons, count_event_app.
  rewrite count_create_failed_attempts, count_event_cons.
  by rewrite !decide_False by done.
Qed.

Lemma Movie_findById_ok id env st :
  db_fault env (count_db (trace st)) = None →
  Movie_findById id env st
  = (Ret (movies st !! id), log_events [EvDb (OpFindMovieById id)] st).
Proof.
  intros H. unfold Movie_findById. erewrite bind_ret; [|by apply db_call_ok]. done.
Qed.

Lemma Movie_findById_fault id env st e :
  db_fault env (count_db (trace st)) = Some e →
  Movie_findById id env st = (Throw e, log_events [EvDb (OpFindMovieById id)] st).
Proof.
  intros H. unfold Movie_findById. erewrite bind_throw; [|by apply db_call_fault]. done.
Qed.

Lemma Movie_create_ok doc env st :
  db_fault env (count_db (trace st)) = None →
  movies st !! _id doc = None →
  Movie_create doc env st
  = (Ret doc, put_movie doc (log_events [EvDb (OpCreateMovie (_id doc))] st)).
Proof.
  intros Hdb Hnone. unfold Movie_create.
  erewrite bind_ret; [|by apply db_call_ok].
  unfold bind, get_movies. simpl. by rewrite Hnone.
Qed.

(** The primary key is unique: a second create of the same identifier
    throws the duplicate-key error and leaves the collection as it is. *)
Lemma Movie_create_duplicate doc env st :
  db_fault env (count_db (trace st)) = None →
  is_Some (movies st !! _id doc) →
  Movie_create doc env st
  = (Throw (duplicate_key (_id doc)),
     log_events [EvDb (OpCreateMovie (_id doc))] st).
Proof.
  intros Hdb [m Hm]. unfold Movie_create.
  erewrite bind_ret; [|by apply db_call_ok].
  unfold bind, get_movies. simpl. by rewrite Hm.
Qed.

Lemma Movie_create_fault doc env st e :
  db_fault env (count_db (trace st)) = Some e →
  Movie_create doc env st
  = (Throw e, log_events [EvDb (OpCreateMovie (_id doc))] st).
Proof.
  intros H. unfold Movie_create. erewrite bind_throw; [|by apply db_call_fault]. done.
Qed.

(** The object literal of [addShow] is the normalized Movie. *)
Lemma movieDetails_of_readable id d env st :
  readable d = true → movieDetails_of id d env st = (Ret (normalized id d), st).
Proof.
  intros Hd. unfold movieDetails_of, normalized, field.
  destruct d; try done; simpl; unfold js_or;
    try (by unfold bind, ret).
  unfold bind, ret; simpl. do 2 f_equal.
  destruct (assoc "tagline" fields) as [| |b|q|s|l|l]; simpl; try done.
  f_equal. by destruct (String.eqb s "") eqn:E; [apply String.eqb_eq in E as ->|].
Qed.

Lemma movieDetails_of_unreadable id d env st :
  readable d = false →
  ∃ msg, movieDetails_of id d env st = (Throw (Error TypeError msg), st).
Proof.
  intros Hd. destruct d; try done; eexists; reflexivity.
Qed.

Lemma Promise_all2_ret {A B} (p1 : M A) (p2 : M B) env st a st1 b st2 :
  p1 env st = (Ret a, st1) → p2 env st1 = (Ret b, st2) →
  Promise_all2 p1 p2 env st = (Ret (a, b), st2).
Proof. intros H1 H2. unfold Promise_all2. by rewrite H1, H2. Qed.

(** Only the first rejects. *)
Lemma Promise_all2_throw_l {A B} (p1 : M A) (p2 : M B) env st e st1 b st2 :
  p1 env st = (Throw e, st1) → p2 env st1 = (Ret b, st2) →
  Promise_all2 p1 p2 env st = (Throw e, st2).
Proof. intros H1 H2. unfold Promise_all2. by rewrite H1, H2. Qed.

(** Both reject: the await rejects with the error of the earlier one. *)
Lemma Promise_all2_throw_both {A B} (p1 : M A) (p2 : M B) env st e1 st1 e2 st2 :
  p1 env st = (Throw e1, st1) → p2 env st1 = (Throw e2, st2) →
  Promise_all2 p1 p2 env st
  = (Throw (if elapsed env (trace st) (new_events st st1)
               <=? elapsed env (trace st1) (new_events st1 st2)
            then e1 else e2), st2).
Proof.
  intros H1 H2. unfold Promise_all2. rewrite H1, H2.
  by destruct (_ <=? _).
Qed.

(** The first rejects: the await rejects, whatever the second does. *)
Lemma Promise_all2_throws {A B} (p1 : M A) (p2 : M B) env st e1 st1 r2 st2 :
  p1 env st = (Throw e1, st1) → p2 env st1 = (r2, st2) →
  ∃ e, Promise_all2 p1 p2 env st = (Throw e, st2).
Proof.
  intros H1 H2. unfold Promise_all2. rewrite H1, H2.
  destruct r2; [eauto| |eauto]. destruct (_ <=? _); eauto.
Qed.

Lemma Promise_all2_throw_r {A B} (p1 : M A) (p2 : M B) env st a st1 e st2 :
  p1 env st = (Ret a, st1) → p2 env st1 = (Throw e, st2) →
  Promise_all2 p1 p2 env st = (Throw e, st2).
Proof. intros H1 H2. unfold Promise_all2. by rewrite H1, H2. Qed.

Lemma addShow_sync_throw env st (body : M (flow Movie)) e st' :
  body env st = (Throw e, st') →
  try_catch body
    (λ apiError,
       do! console_log ("TMDB API Error: " +:+ message apiError) in
       do! res_json (RFail ("Failed to fetch movie from TMDB: "
                            +:+ message apiError)) in
       ret Return) env st
  = (Ret Return, sync_failed e st').
Proof. intros H. erewrite try_catch_throw; [|exact H]. reflexivity. Qed.

(** The synchronisation of a movie that is not stored, when the catalog
    answers both fetches, the details can be read and the store answers:
    the normalized Movie is created and control goes on with it. *)
Lemma addShow_sync_creates id env st n1 r1 n2 r2 :
  movies st !! id = None →
  answers env (details_url id) (count_get (details_url id) (trace st)) n1 r1 →
  answers env (credits_url id) (count_get (credits_url id) (trace st)) n2 r2 →
  readable (data r1) = true →
  db_fault env (count_db (trace st)) = None →
  addShow_sync id None env st
  = (Ret (Continue (normalized id (data r1))),
     put_movie (normalized id (data r1))
       (log_events (fetch_events (details_url id) n1
                    ++ fetch_events (credits_url id) n2
                    ++ [EvDb (OpCreateMovie id)]) st)).
Proof.
  intros Hnone (Hn1 & Hf1 & Hr1) (Hn2 & Hf2 & Hr2) Hread Hdb.
  unfold addShow_sync. apply try_catch_ret.
  erewrite bind_ret; cycle 1.
  { eapply Promise_all2_ret.
    - apply (fetchWithRetry_succeeds n1); [apply within_default; lia | exact Hf1 | exact Hr1].
    - apply (fetchWithRetry_succeeds n2); [apply within_default; lia | |].
      + intros j Hj. rewrite trace_log_events, count_get_app.
        rewrite (count_get_fetch_events_other _ _ _ (details_credits_neq id)).
        rewrite Nat.add_0_r. by apply Hf2.
      + rewrite trace_log_events, count_get_app.
        rewrite (count_get_fetch_events_other _ _ _ (details_credits_neq id)).
        by rewrite Nat.add_0_r. }
  rewrite log_events_app.
  erewrite bind_ret; [|reflexivity]. erewrite bind_ret; [|reflexivity].
  erewrite bind_ret; [|by apply movieDetails_of_readable].
  erewrite bind_ret; cycle 1.
  { apply Movie_create_ok; [|exact Hnone]. rewrite trace_log_events.
    rewrite count_db_app, count_db_app, !count_db_fetch_events.
    by rewrite !Nat.add_0_r. }
  unfold ret. by rewrite log_events_app, <- app_assoc.
Qed.

(** The synchronisation of a movie that is not stored, whatever the
    catalog and the store do: each of the two fetches is called once and
    makes one to three attempts; then either the Movie is created and
    control goes on with it, or nothing is stored, the failure is answered
    and the handler returns. *)
Lemma addShow_sync_total id env st :
  movies st !! id = None →
  ∃ n1 n2 f st',
    (n1 ≤ 2)%nat ∧ (n2 ≤ 2)%nat ∧
    addShow_sync id None env st = (Ret f, st') ∧
    shows st' = shows st ∧ next_show_id st' = next_show_id st ∧
    ((∃ m, f = Continue m ∧ _id m = id ∧
           movies st' = <[id := m]> (movies st) ∧ sent st' = sent st ∧
           trace st' = trace st ++ fetch_events (details_url id) n1
                         ++ fetch_events (credits_url id) n2
                         ++ [EvDb (OpCreateMovie id)]) ∨
     (∃ e tail, f = Return ∧ movies st' = movies st ∧
           sent st' = sent st ++ [RFail ("Failed to fetch movie from TMDB: "
                                         +:+ message e)] ∧
           trace st' = trace st ++ fetch_events (details_url id) n1
                         ++ fetch_events (credits_url id) n2
                         ++ tail ++ [EvLog ("TMDB API Error: " +:+ message e)] ∧
           (tail = [] ∨ tail = [EvDb (OpCreateMovie id)]))).
Proof.
  intros Hnone.
  destruct (fetchWithRetry_default_total (details_url id) env st)
    as (n1 & Hn1 & E1).
  destruct (fetchWithRetry_default_total (credits_url id) env
              (log_events (fetch_events (details_url id) n1) st))
    as (n2 & Hn2 & E2).
  rewrite log_events_app in E2.
  set (st2 := log_events (fetch_events (details_url id) n1
                          ++ fetch_events (credits_url id) n2) st) in *.
  assert (trace st2 = trace st ++ fetch_events (details_url id) n1
                        ++ fetch_events (credits_url id) n2) as Htr2 by done.
  exists n1, n2.
  assert (∀ e tail st3,
            trace st3 = trace st2 ++ tail →
            movies st3 = movies st → shows st3 = shows st →
            next_show_id st3 = next_show_id st → sent st3 = sent st →
            tail = [] ∨ tail = [EvDb (OpCreateMovie id)] →
            addShow_sync id None env st = (Ret Return, sync_failed e st3) →
            ∃ f st',
              (n1 ≤ 2)%nat ∧ (n2 ≤ 2)%nat ∧
              addShow_sync id None env st = (Ret f, st') ∧
              shows st' = shows st ∧ next_show_id st' = next_show_id st ∧
              ((∃ m, f = Continue m ∧ _id m = id ∧
                     movies st' = <[id := m]> (movies st) ∧ sent st' = sent st ∧
                     trace st' = trace st ++ fetch_events (details_url id) n1
                                   ++ fetch_events (credits_url id) n2
                                   ++ [EvDb (OpCreateMovie id)]) ∨
               (∃ e tail, f = Return ∧ movies st' = movies st ∧
                     sent st' = sent st ++ [RFail ("Failed to fetch movie from TMDB: "
                                                   +:+ message e)] ∧
                     trace st' = trace st ++ fetch_events (details_url id) n1
                                   ++ fetch_events (credits_url id) n2
                                   ++ tail ++ [EvLog ("TMDB API Error: " +:+ message e)] ∧
                     (tail = [] ∨ tail = [EvDb (OpCreateMovie id)])))) as Hfailed.
  { intros e tail st3 Htr Hm Hs Hn Hsent Htail E.
    exists Return, (sync_failed e st3). repeat split; [done..|].
    right. exists e, tail. repeat split; [done | | | done].
    - simpl. by rewrite Hsent.
    - change (trace (sync_failed e st3))
        with (trace st3 ++ [EvLog ("TMDB API Error: " +:+ message e)]).
      rewrite Htr, Htr2. apply app_assoc_4. }
  destruct E1 as [[r1 E1]|[e1 E1]].
  2:{ (* the details are not fetched *)
    assert (∃ r2, fetchWithRetry (credits_url id) MAX_RETRIES env
                    (log_events (fetch_events (details_url id) n1) st) = (r2, st2))
      as [o2 E2'].
    { destruct E2 as [[r2 E2]|[e2 E2]]; eauto. }
    destruct (Promise_all2_throws _ _ _ _ _ _ _ _ E1 E2') as [e Eall].
    apply (Hfailed e [] st2); [by rewrite app_nil_r | done..| by left |].
    unfold addShow_sync. apply addShow_sync_throw.
    erewrite bind_throw; [done|exact Eall]. }
  destruct E2 as [[r2 E2]|[e2 E2]].
  2:{ (* the credits are not fetched *)
    apply (Hfailed e2 [] st2); [by rewrite app_nil_r | done..| by left |].
    unfold addShow_sync. apply addShow_sync_throw.
    erewrite bind_throw; [done|]. eapply Promise_all2_throw_r; [exact E1|exact E2]. }
  assert (Promise_all2 (fetchWithRetry (details_url id) MAX_RETRIES)
            (fetchWithRetry (credits_url id) MAX_RETRIES) env st
          = (Ret (Some r1, Some r2), st2)) as Eall.
  { eapply Promise_all2_ret; [exact E1|exact E2]. }
  destruct (readable (data r1)) eqn:Hread.
  2:{ (* the details cannot be read *)
    destruct (movieDetails_of_unreadable id (data r1) env st2 Hread) as [msg Emsg].
    apply (Hfailed (Error TypeError msg) [] st2);
      [by rewrite app_nil_r | done..| by left |].
    unfold addShow_sync. apply addShow_sync_throw.
    erewrite bind_ret; [|exact Eall].
    erewrite bind_ret; [|reflexivity]. erewrite bind_ret; [|reflexivity].
    erewrite bind_throw; [done|exact Emsg]. }
  assert (count_db (trace st2) = count_db (trace st)) as Hdb2.
  { rewrite Htr2, !count_db_app, !count_db_fetch_events. lia. }
  destruct (db_fault env (count_db (trace st))) as [e|] eqn:Hdb.
  { (* the store fails *)
    apply (Hfailed e [EvDb (OpCreateMovie id)]
             (log_events [EvDb (OpCreateMovie id)] st2)); [done..| by right |].
    unfold addShow_sync. apply addShow_sync_throw.
    erewrite bind_ret; [|exact Eall].
    erewrite bind_ret; [|reflexivity]. erewrite bind_ret; [|reflexivity].
    erewrite bind_ret; [|by apply movieDetails_of_readable].
    erewrite bind_throw; [done|]. apply Movie_create_fault. by rewrite Hdb2. }
  (* the movie is created *)
  exists (Continue (normalized id (data r1))).
  eexists. split; [done|]. split; [done|]. split.
  { unfold addShow_sync. apply try_catch_ret.
    erewrite bind_ret; [|exact Eall].
    erewrite bind_ret; [|reflexivity]. erewrite bind_ret; [|reflexivity].
    erewrite bind_ret; [|by apply movieDetails_of_readable].
    erewrite bind_ret; [reflexivity|].
    apply Movie_create_ok; [by rewrite Hdb2 | exact Hnone]. }
  split; [done|]. split; [done|]. left.
  exists (normalized id (data r1)). repeat split.
  change (trace (put_movie _ _)) with (trace st2 ++ [EvDb (OpCreateMovie id)]).
  rewrite Htr2. apply app_assoc_3.
Qed.

(** When the lookup is answered, the resolution step is the synchronisation
    block entered with what the lookup found. *)
Lemma addShow_resolve_lookup id env st :
  db_fault env (count_db (trace st)) = None →
  addShow_resolve id env st
  = addShow_sync id (movies st !! id) env (log_events [EvDb (OpFindMovieById id)] st).
Proof.
  intros Hdb. unfold addShow_resolve.
  erewrite bind_ret; [|by apply Movie_findById_ok]. done.
Qed.

(** A stored movie is returned after the lookup and nothing else. *)
Lemma addShow_resolve_cached id env st m :
  db_fault env (count_db (trace st)) = None →
  movies st !! id = Some m →
  addShow_resolve id env st
  = (Ret (Continue m), log_events [EvDb (OpFindMovieById id)] st).
Proof. intros Hdb Hm. rewrite addShow_resolve_lookup by done. by rewrite Hm. Qed.

Lemma count_fetch_tail u id e (tail : list event) :
  tail = [] ∨ tail = [EvDb (OpCreateMovie id)] →
  count_event (EvFetch u) (tail ++ [EvLog e]) = 0%nat.
Proof. by intros [-> | ->]. Qed.

Lemma count_get_tail u id e (tail : list event) :
  tail = [] ∨ tail = [EvDb (OpCreateMovie id)] →
  count_get u (tail ++ [EvLog e]) = 0%nat.
Proof. by intros [-> | ->]. Qed.

(** C1: the movie-resolution step of [addShow], when the lookup is
    answered.  A stored movie is returned as it is, with no fetch and no
    GET at all.  For a movie that is not stored, [fetchWithRetry] is called
    exactly once for the details and exactly once for the credits (each
    call making one to three attempts) and for no other URL; when the step
    goes on with a Movie, exactly that one Movie has been created, under
    the identifier asked for, so that a second resolution finds it and
    fetches nothing; otherwise nothing has been stored and the failure has
    been answered.  It does go on with the normalized Movie whenever the
    catalog answers both fetches within the attempts, the details can be
    read and the store answers. *)
Theorem resolve_fetches_once env st id :
  db_fault env (count_db (trace st)) = None →
  (∀ m, movies st !! id = Some m →
     ∃ st', addShow_resolve id env st = (Ret (Continue m), st') ∧
       movies st' = movies st ∧
       ∀ u, count_event (EvFetch u) (trace st') = count_event (EvFetch u) (trace st)
            ∧ count_get u (trace st') = count_get u (trace st)) ∧
  (movies st !! id = None →
     ∃ f st',
       addShow_resolve id env st = (Ret f, st') ∧
       count_event (EvFetch (details_url id)) (trace st')
       = S (count_event (EvFetch (details_url id)) (trace st)) ∧
       count_event (EvFetch (credits_url id)) (trace st')
       = S (count_event (EvFetch (credits_url id)) (trace st)) ∧
       (∀ u, u ≠ details_url id → u ≠ credits_url id →
             count_event (EvFetch u) (trace st') = count_event (EvFetch u) (trace st)
             ∧ count_get u (trace st') = count_get u (trace st)) ∧
       (count_get (details_url id) (trace st) < count_get (details_url id) (trace st')
        ≤ count_get (details_url id) (trace st) + 3)%nat ∧
       (count_get (credits_url id) (trace st) < count_get (credits_url id) (trace st')
        ≤ count_get (credits_url id) (trace st) + 3)%nat ∧
       match f with
       | Continue m =>
           _id m = id ∧ movies st' = <[id := m]> (movies st) ∧
           count_event (EvDb (OpCreateMovie id)) (trace st')
           = S (count_event (EvDb (OpCreateMovie id)) (trace st)) ∧
           ∀ env', db_fault env' (count_db (trace st')) = None →
             ∃ st'', addShow_resolve id env' st' = (Ret (Continue m), st'') ∧
               movies st'' = movies st' ∧
               ∀ u, count_event (EvFetch u) (trace st'') = count_event (EvFetch u) (trace st')
                    ∧ count_get u (trace st'') = count_get u (trace st')
       | Return =>
           movies st' = movies st ∧
           ∃ e, sent st' = sent st ++ [RFail ("Failed to fetch movie from TMDB: "
                                              +:+ message e)]
       end ∧
       ∀ n1 r1 n2 r2,
         answers env (details_url id) (count_get (details_url id) (trace st)) n1 r1 →
         answers env (credits_url id) (count_get (credits_url id) (trace st)) n2 r2 →
         readable (data r1) = true →
         db_fault env (S (count_db (trace st))) = None →
         f = Continue (normalized id (data r1))).
Proof.
  intros Hdb.
  assert (∀ st0 m, db_fault env (count_db (trace st0)) = None →
            movies st0 !! id = Some m →
            ∃ st', addShow_resolve id env st0 = (Ret (Continue m), st') ∧
              movies st' = movies st0 ∧
              ∀ u, count_event (EvFetch u) (trace st') = count_event (EvFetch u) (trace st0)
                   ∧ count_get u (trace st') = count_get u (trace st0)) as Hcached.
  { intros st0 m Hdb0 Hm. eexists. split; [by apply addShow_resolve_cached|].
    split; [done|]. intros u. rewrite trace_log_events. split.
    - rewrite count_event_app. unfold count_event at 2. simpl. lia.
    - rewrite count_get_app. simpl. lia. }
  split; [intros m Hm; by apply Hcached|].
  clear Hcached. intros Hnone.
  set (st0 := log_events [EvDb (OpFindMovieById id)] st).
  destruct (addShow_sync_total id env st0 Hnone)
    as (n1 & n2 & f & st' & Hn1 & Hn2 & E & _ & _ & Hcases).
  assert (addShow_resolve id env st = (Ret f, st')) as Eres.
  { rewrite addShow_resolve_lookup by done. by rewrite Hnone. }
  assert (∃ tail, trace st' = trace st ++ [EvDb (OpFindMovieById id)]
                    ++ fetch_events (details_url id) n1
                    ++ fetch_events (credits_url id) n2 ++ tail
                  ∧ (∀ u, count_event (EvFetch u) tail = 0%nat)
                  ∧ (∀ u, count_get u tail = 0%nat)) as (tail & Htr & Htf & Htg).
  { destruct Hcases as [(m & _ & _ & _ & _ & Htr)|(e & tail & _ & _ & _ & Htr & Htail)].
    - exists [EvDb (OpCreateMovie id)]. split; [|done].
      rewrite Htr. unfold st0. rewrite trace_log_events. by rewrite <- app_assoc.
    - exists (tail ++ [EvLog ("TMDB API Error: " +:+ message e)]). split; [|split].
      + rewrite Htr. unfold st0. rewrite trace_log_events. by rewrite <- app_assoc.
      + intros u. by eapply count_fetch_tail.
      + intros u. by eapply count_get_tail. }
  pose proof (details_credits_neq id) as Hne.
  exists f, st'. split; [exact Eres|].
  assert (∀ u, count_event (EvFetch u) (trace st')
               = (count_event (EvFetch u) (trace st)
                  + (if decide (details_url id = u) then 1 else 0)
                  + (if decide (credits_url id = u) then 1 else 0))%nat) as Hfetch.
  { intros u. rewrite Htr, !count_event_app, !count_fetch_fetch_events, Htf.
    unfold count_event at 2. simpl. lia. }
  assert (∀ u, count_get u (trace st')
               = (count_get u (trace st)
                  + count_get u (fetch_events (details_url id) n1)
                  + count_get u (fetch_events (credits_url id) n2))%nat) as Hget.
  { intros u. rewrite Htr, !count_get_app, Htg. simpl. lia. }
  split; [|split; [|split; [|split; [|split; [|split]]]]].
  - rewrite Hfetch, decide_True, decide_False by done. lia.
  - rewrite Hfetch, decide_False, decide_True by done. lia.
  - intros u Hu1 Hu2. split.
    + rewrite Hfetch, !decide_False by done. lia.
    + rewrite Hget, !count_get_fetch_events_other by done. lia.
  - rewrite Hget, count_get_fetch_events, count_get_fetch_events_other by done. lia.
  - rewrite Hget, count_get_fetch_events, count_get_fetch_events_other by done. lia.
  - destruct Hcases as [(m & -> & Hid & Hmov & _ & Htr')|(e & tl & -> & Hmov & Hsent & _)].
    + split; [done|]. split; [done|]. split.
      * rewrite Htr'. unfold st0. rewrite trace_log_events, !count_event_app.
        rewrite !count_create_fetch_events, !count_event_cons.
        rewrite decide_False, decide_True by done.
        unfold count_event at 2 3. simpl. lia.
      * intros env' Hdb'.
        assert (movies st' !! id = Some m) as Hm by (rewrite Hmov; apply lookup_insert_eq).
        eexists. split; [by apply addShow_resolve_cached|].
        split; [done|]. intros u. rewrite trace_log_events. split.
        -- rewrite count_event_app. unfold count_event at 2. simpl. lia.
        -- rewrite count_get_app. simpl. lia.
    + split; [done|]. by exists e.
  - intros n1' r1 n2' r2 Ha1 Ha2 Hread Hdb1.
    assert (addShow_sync id None env st0
            = (Ret (Continue (normalized id (data r1))),
               put_movie (normalized id (data r1))
                 (log_events (fetch_events (details_url id) n1'
                              ++ fetch_events (credits_url id) n2'
                              ++ [EvDb (OpCreateMovie id)]) st0))) as E'.
    { apply (addShow_sync_creates id env st0 n1' r1 n2' r2); try done.
      - unfold st0. rewrite trace_log_events, count_get_app. simpl.
        by rewrite Nat.add_0_r.
      - unfold st0. rewrite trace_log_events, count_get_app. simpl.
        by rewrite Nat.add_0_r.
      - unfold st0. rewrite trace_log_events, count_db_app. simpl.
        by rewrite Nat.add_1_r. }
    rewrite E in E'. by injection E' as -> _.
Qed.

Lemma resolve_fetches_once_witness :
  db_fault host (count_db (trace empty_state)) = None ∧
  movies empty_state !! "438631" = None ∧
  ∃ f st',
    addShow_resolve "438631" host empty_state = (Ret f, st') ∧
    count_event (EvFetch (details_url "438631")) (trace st') = 1%nat ∧
    count_event (EvFetch (credits_url "438631")) (trace st') = 1%nat ∧
    f = Continue (normalized "438631" dune_json).
Proof.
  split; [reflexivity|]. split; [reflexivity|].
  destruct (resolve_fetches_once host empty_state "438631" eq_refl) as [_ H].
  destruct (H eq_refl) as (f & st' & E & Hd & Hc & _ & _ & _ & _ & Hgo).
  exists f, st'. split; [exact E|]. split; [exact Hd|]. split; [exact Hc|].
  apply (Hgo 0%nat {| status := 200; data := dune_json |}
             0%nat {| status := 200; data := credits_json |}).
  - split; [lia|]. split; [intros j Hj; lia|reflexivity].
  - split; [lia|]. split; [intros j Hj; lia|reflexivity].
  - reflexivity.
  - reflexivity.
Defined.

(** C9: the Movie that the resolution step stores for the details [d] the
    catalog answered.  Its tagline is the empty string when the tagline of
    [d] is absent ([undefined] or [null]) and is the tagline of [d] when
    that is a string; every other field is the property of that name of
    [d], as it is, numbers staying numbers; and the Movie read back from
    the store is the very record that was normalized. *)
Theorem normalized_movie_round_trip env st id n1 r1 n2 r2 :
  db_fault env (count_db (trace st)) = None →
  db_fault env (S (count_db (trace st))) = None →
  movies st !! id = None →
  answers env (details_url id) (count_get (details_url id) (trace st)) n1 r1 →
  answers env (credits_url id) (count_get (credits_url id) (trace st)) n2 r2 →
  readable (data r1) = true →
  let d := data r1 in
  ∃ m st',
    addShow_resolve id env st = (Ret (Continue m), st') ∧
    movies st' = <[id := m]> (movies st) ∧
    (∀ env', db_fault env' (count_db (trace st')) = None →
       fst (Movie_findById id env' st') = Ret (Some m)) ∧
    _id m = id ∧
    (field d "tagline" = JUndefined ∨ field d "tagline" = JNull →
     tagline m = JStr "") ∧
    (∀ s, field d "tagline" = JStr s → tagline m = JStr s) ∧
    tagline m = js_or (field d "tagline") (JStr "") ∧
    title m = field d "title" ∧
    overview m = field d "overview" ∧
    poster_path m = field d "poster_path" ∧
    backdrop_path m = field d "backdrop_path" ∧
    genres m = field d "genres" ∧
    casts m = field d "casts" ∧
    release_date m = field d "release_date" ∧
    original_language m = field d "original_language" ∧
    vote_average m = field d "vote_average" ∧
    runtime m = field d "runtime" ∧
    (∀ q, field d "runtime" = JNum q → runtime m = JNum q) ∧
    (∀ q, field d "vote_average" = JNum q → vote_average m = JNum q).
Proof.
  intros Hdb Hdb1 Hnone Ha1 Ha2 Hread d.
  exists (normalized id d). eexists. split.
  { rewrite addShow_resolve_lookup by done. rewrite Hnone.
    apply (addShow_sync_creates id env _ n1 r1 n2 r2); try done.
    - rewrite trace_log_events, count_get_app. simpl. by rewrite Nat.add_0_r.
    - rewrite trace_log_events, count_get_app. simpl. by rewrite Nat.add_0_r.
    - rewrite trace_log_events, count_db_app. simpl. by rewrite Nat.add_1_r. }
  split; [done|]. split.
  { intros env' Hdb'. rewrite Movie_findById_ok by done. simpl.
    by rewrite lookup_insert_eq. }
  split; [done|]. split.
  { simpl. by intros [-> | ->]. }
  split; [simpl; by intros s ->|].
  split.
  { simpl. unfold js_or. destruct (field d "tagline") as [| |b|q|s|l|l]; simpl; try done.
    by destruct (String.eqb s "") eqn:E; [apply String.eqb_eq in E as ->|]. }
  repeat split; simpl; by intros q ->.
Qed.

Lemma normalized_movie_round_trip_witness :
  ∃ m st',
    addShow_resolve "438631" host empty_state = (Ret (Continue m), st') ∧
    movies st' !! "438631" = Some m ∧
    tagline m = JStr "" ∧ title m = JStr "Dune" ∧ runtime m = JNum 155.
Proof.
  destruct (normalized_movie_round_trip host empty_state "438631"
              0%nat {| status := 200; data := dune_json |}
              0%nat {| status := 200; data := credits_json |})
    as (m & st' & E & Hm & _ & _ & Ht & _ & _ & Htitle & _ & _ & _ & _ & _ & _ & _ & _ & Hrun & _).
  - reflexivity.
  - reflexivity.
  - reflexivity.
  - split; [lia|]. split; [intros j Hj; lia|reflexivity].
  - split; [lia|]. split; [intros j Hj; lia|reflexivity].
  - reflexivity.
  - exists m, st'. split; [exact E|]. split.
    + rewrite Hm. apply lookup_insert_eq.
    + split; [apply Ht; by left|]. split; [exact Htitle|exact Hrun].
Defined.

(** ** No failure escapes a handler *)

Lemma settles_ret {A} (P : A → Prop) a : P a → settles P (ret a).
Proof. intros H env st. by exists (Ret a), st. Qed.

Lemma settles_throw {A} (P : A → Prop) e : settles P (throw e).
Proof. intros env st. by exists (Throw e), st. Qed.

Lemma settles_lift {A} (r : A + error) : settles (λ _, True) (lift r).
Proof. destruct r; [by apply settles_ret | apply settles_throw]. Qed.

Lemma settles_weaken {A} (P Q : A → Prop) m :
  (∀ a, P a → Q a) → settles P m → settles Q m.
Proof.
  intros HPQ Hm env st. destruct (Hm env st) as (o & st' & E & Hs & Ho).
  exists o, st'. repeat split; [done..|]. destruct o; auto.
Qed.

Lemma settles_bind {A B} (P : A → Prop) (Q : B → Prop) m k :
  settles P m → (∀ a, P a → settles Q (k a)) → settles Q (bind m k).
Proof.
  intros Hm Hk env st. destruct (Hm env st) as (o & st1 & E & Hs & Ho).
  destruct o as [a|e|]; [|by exists (Throw e), st1; unfold bind; rewrite E|done].
  destruct (Hk a Ho env st1) as (o' & st2 & E' & Hs' & Ho').
  exists o', st2. unfold bind. rewrite E. split; [done|]. split; [congruence|done].
Qed.

Lemma settles_try_catch {A} (P : A → Prop) body handler :
  settles P body → (∀ e, settles P (handler e)) → settles P (try_catch body handler).
Proof.
  intros Hb Hh env st. destruct (Hb env st) as (o & st1 & E & Hs & Ho).
  destruct o as [a|e|]; [by exists (Ret a), st1; unfold try_catch; rewrite E| |done].
  destruct (Hh e env st1) as (o' & st2 & E' & Hs' & Ho').
  exists o', st2. unfold try_catch. rewrite E. split; [done|]. split; [congruence|done].
Qed.

Lemma settles_emit ev : settles (λ _, True) (emit ev).
Proof. intros env st. by exists (Ret tt), (log_event ev st). Qed.

Lemma settles_db_call op : settles (λ _, True) (db_call op).
Proof.
  intros env st. unfold db_call.
  destruct (db_fault env (count_db (trace st))); by eexists _, _.
Qed.

Lemma settles_foldM {A B} (body : B → A → M B) acc l :
  (∀ acc x, settles (λ _, True) (body acc x)) →
  settles (λ _, True) (foldM body acc l).
Proof.
  intros Hbody. revert acc. induction l as [|x l IH]; intros acc; simpl.
  - by apply settles_ret.
  - eapply settles_bind; [apply Hbody|]. intros acc' _. apply IH.
Qed.

Lemma settles_fetchWithRetry url :
  settles (λ r, is_Some r) (fetchWithRetry url MAX_RETRIES).
Proof.
  intros env st.
  destruct (fetchWithRetry_default_total url env st) as (n & _ & [[r E]|[e E]]).
  - exists (Ret (Some r)), (log_events (fetch_events url n) st). by repeat split.
  - exists (Throw e), (log_events (fetch_events url n) st). by repeat split.
Qed.

Lemma settles_Promise_all2 {A B} (P : A → Prop) (Q : B → Prop) p1 p2 :
  settles P p1 → settles Q p2 →
  settles (λ ab, P ab.1 ∧ Q ab.2) (Promise_all2 p1 p2).
Proof.
  intros H1 H2 env st. destruct (H1 env st) as (o1 & st1 & E1 & Hs1 & Ho1).
  destruct (H2 env st1) as (o2 & st2 & E2 & Hs2 & Ho2).
  unfold Promise_all2. rewrite E1, E2.
  destruct o1 as [a|e1|], o2 as [b|e2|]; try done.
  - exists (Ret (a, b)), st2. repeat split; [congruence|done..].
  - exists (Throw e2), st2. repeat split; congruence.
  - exists (Throw e1), st2. repeat split; congruence.
  - destruct (_ <=? _); eexists (Throw _), st2; repeat split; congruence.
Qed.

Lemma settles_Movie_findById id : settles (λ _, True) (Movie_findById id).
Proof.
  unfold Movie_findById. eapply settles_bind; [apply settles_db_call|]. intros _ _.
  intros env st. by eexists _, _.
Qed.

Lemma settles_Movie_create doc : settles (λ _, True) (Movie_create doc).
Proof.
  unfold Movie_create. eapply settles_bind; [apply settles_db_call|]. intros _ _.
  intros env st. unfold bind, get_movies.
  destruct (movies st !! _id doc); by eexists _, _.
Qed.

Lemma settles_Show_insertMany ds : settles (λ _, True) (Show_insertMany ds).
Proof.
  unfold Show_insertMany. eapply settles_bind; [apply settles_db_call|]. intros _ _.
  intros env st. unfold bind, get_next_show_id.
  destruct (cast_shows (next_show_id st) ds); by eexists _, _.
Qed.

Lemma settles_Show_find of_movie since :
  settles (λ _, True) (Show_find of_movie since).
Proof.
  unfold Show_find. eapply settles_bind; [apply settles_db_call|]. intros _ _.
  intros env st. by eexists _, _.
Qed.

Lemma settles_populate_movie ss : settles (λ _, True) (populate_movie ss).
Proof.
  unfold populate_movie. eapply settles_bind; [apply settles_db_call|]. intros _ _.
  intros env st. by eexists _, _.
Qed.

Lemma settles_movieDetails_of id d : settles (λ _, True) (movieDetails_of id d).
Proof.
  intros env st. destruct (readable d) eqn:Hd.
  - rewrite movieDetails_of_readable by done. by eexists _, _.
  - destruct (movieDetails_of_unreadable id d env st Hd) as [msg ->]. by eexists _, _.
Qed.

Lemma settles_build_showsToCreate id showsInput price :
  settles (λ _, True) (build_showsToCreate id showsInput price).
Proof.
  intros env st. rewrite build_showsToCreate_pairs. by eexists _, _.
Qed.

Lemma settles_group_show dateTime show : settles (λ _, True) (group_show dateTime show).
Proof.
  unfold group_show. eapply settles_bind; [apply settles_lift|]. intros iso _.
  by apply settles_ret.
Qed.

Lemma answers_or_throws_res_json r : answers_or_throws (res_json r).
Proof. intros env st. eexists. left. by exists r. Qed.

Lemma answers_or_throws_bind {A} (P : A → Prop) (m : M A) k :
  settles P m → (∀ a, P a → answers_or_throws (k a)) → answers_or_throws (bind m k).
Proof.
  intros Hm Hk env st. destruct (Hm env st) as (o & st1 & E & Hs & Ho).
  unfold bind. rewrite E. destruct o as [a|e|]; [| |done].
  - destruct (Hk a Ho env st1) as (st2 & [(r & E' & Hs')|(e & E' & Hs')]).
    + exists st2. left. exists r. split; [done|congruence].
    + exists st2. right. exists e. split; [done|congruence].
  - exists st1. right. by exists e.
Qed.

Lemma answers_once_try_catch body handler :
  answers_or_throws body → (∀ e, answers_once (handler e)) →
  answers_once (try_catch body handler).
Proof.
  intros Hb Hh env st. unfold try_catch.
  destruct (Hb env st) as (st1 & [(r & E & Hs)|(e & E & Hs)]); rewrite E.
  - by exists r, st1.
  - destruct (Hh e env st1) as (r & st2 & E' & Hs'). exists r, st2.
    split; [done|congruence].
Qed.

Lemma answers_once_log_json ev r : answers_once (do! emit ev in res_json r).
Proof. intros env st. by eexists r, _. Qed.

(** The synchronisation block always ends normally: with a movie and no
    answer, or with the failure answered once and the handler's return. *)
Lemma addShow_sync_ends id movie env st :
  ∃ f st', addShow_sync id movie env st = (Ret f, st') ∧
    match f with
    | Continue _ => sent st' = sent st
    | Return => ∃ e, sent st' = sent st ++ [RFail ("Failed to fetch movie from TMDB: "
                                                   +:+ message e)]
    end.
Proof.
  destruct movie as [m|]; [by exists (Continue m), st|].
  unfold addShow_sync.
  match goal with |- context [try_catch ?b ?h] => set (body := b); set (handler := h) end.
  assert (settles (λ f : flow Movie, ∃ m, f = Continue m) body) as Hbody.
  { unfold body.
    eapply settles_bind.
    { apply settles_Promise_all2; apply settles_fetchWithRetry. }
    intros responses _.
    eapply settles_bind; [apply settles_lift|]. intros movieApiData _.
    eapply settles_bind; [apply settles_lift|]. intros movieCreditsData _.
    eapply settles_bind; [apply settles_movieDetails_of|]. intros movieDetails _.
    eapply settles_bind; [apply settles_Movie_create|]. intros movie _.
    apply settles_ret. by exists movie. }
  destruct (Hbody env st) as (o & st1 & E & Hs & Ho).
  unfold try_catch. rewrite E. destruct o as [f|e|]; [| |done].
  - destruct Ho as [m ->]. by exists (Continue m), st1.
  - exists Return. eexists. split; [reflexivity|]. exists e. simpl. by rewrite Hs.
Qed.

Lemma answers_or_throws_createShows id showsInput price :
  answers_or_throws (addShow_createShows id showsInput price).
Proof.
  unfold addShow_createShows.
  eapply answers_or_throws_bind; [apply settles_build_showsToCreate|].
  intros showsToCreate _.
  eapply answers_or_throws_bind with (P := λ _, True).
  - destruct (0 <? length showsToCreate)%nat;
      [apply settles_Show_insertMany | by apply settles_ret].
  - intros _ _. apply answers_or_throws_res_json.
Qed.

Lemma answers_or_throws_after_sync id movie showsInput price :
  answers_or_throws
    (let! movie := addShow_sync id movie in
     match movie with
     | Return => ret tt
     | Continue _ => addShow_createShows id showsInput price
     end).
Proof.
  intros env st.
  destruct (addShow_sync_ends id movie env st) as (f & st1 & E & Hf).
  unfold bind. rewrite E. destruct f as [m|].
  - destruct (answers_or_throws_createShows id showsInput price env st1)
      as (st2 & [(r & E' & Hs')|(e & E' & Hs')]).
    + exists st2. left. exists r. split; [done|congruence].
    + exists st2. right. exists e. split; [done|congruence].
  - destruct Hf as [e Hf]. exists st1. left. by eexists.
Qed.

Lemma answers_once_getNowPlayingMovies : answers_once getNowPlayingMovies.
Proof.
  unfold getNowPlayingMovies, getNowPlayingMovies_try. apply answers_once_try_catch.
  - eapply answers_or_throws_bind; [apply settles_fetchWithRetry|]. intros response _.
    eapply answers_or_throws_bind; [apply settles_lift|]. intros data _.
    eapply answers_or_throws_bind; [apply settles_lift|]. intros movies _.
    apply answers_or_throws_res_json.
  - intros e. apply answers_once_log_json.
Qed.

Lemma answers_once_addShow_after_lookup body movie :
  answers_once (addShow_after_lookup body movie).
Proof.
  unfold addShow_after_lookup. apply answers_once_try_catch.
  - apply answers_or_throws_after_sync.
  - intros e. apply answers_once_log_json.
Qed.

Lemma answers_once_addShow body : answers_once (addShow body).
Proof.
  unfold addShow. apply answers_once_try_catch.
  - unfold addShow_resolve. intros env st.
    destruct (settles_Movie_findById (movieId body) env st) as (o & st1 & E & Hs & Ho).
    destruct o as [movie|e|]; [| |done].
    + destruct (answers_or_throws_after_sync (movieId body) movie (showsInput body)
                  (body_showPrice body) env st1) as (st2 & Hcases).
      exists st2. unfold bind in *. rewrite E. rewrite <- Hs. exact Hcases.
    + exists st1. right. exists e. unfold bind. by rewrite E.
  - intros e. apply answers_once_log_json.
Qed.

Lemma answers_once_getShows : answers_once getShows.
Proof.
  unfold getShows, getShows_try. apply answers_once_try_catch.
  - eapply answers_or_throws_bind with (P := λ _, True).
    { intros env st. by eexists _, _. }
    intros since _.
    eapply answers_or_throws_bind; [apply settles_Show_find|]. intros found _.
    eapply answers_or_throws_bind; [apply settles_populate_movie|]. intros shows _.
    apply answers_or_throws_res_json.
  - intros e. apply answers_once_log_json.
Qed.

Lemma answers_once_getShow id : answers_once (getShow id).
Proof.
  unfold getShow, getShow_try. apply answers_once_try_catch.
  - eapply answers_or_throws_bind with (P := λ _, True).
    { intros env st. by eexists _, _. }
    intros since _.
    eapply answers_or_throws_bind; [apply settles_Show_find|]. intros shows _.
    eapply answers_or_throws_bind; [apply settles_Movie_findById|]. intros movie _.
    eapply answers_or_throws_bind.
    { apply settles_foldM. apply settles_group_show. }
    intros dateTime _. apply answers_or_throws_res_json.
  - intros e. apply answers_once_log_json.
Qed.

(** *** The try blocks and their catch *)

Lemma answers_with_res_json (ok : response → Prop) r :
  ok r → answers_with ok (res_json r).
Proof. intros Hr env st. eexists. left. by exists r. Qed.

Lemma answers_with_bind {A} (P : A → Prop) ok (m : M A) k :
  settles P m → (∀ a, P a → answers_with ok (k a)) → answers_with ok (bind m k).
Proof.
  intros Hm Hk env st. destruct (Hm env st) as (o & st1 & E & Hs & Ho).
  unfold bind. rewrite E. destruct o as [a|e|]; [| |done].
  - destruct (Hk a Ho env st1) as (st2 & [(r & E' & Hs' & Hr)|(e & E' & Hs')]).
    + exists st2. left. exists r. split; [done|]. split; [congruence|done].
    + exists st2. right. exists e. split; [done|congruence].
  - exists st1. right. by exists e.
Qed.

(** A handler [try { block } catch (error) { log; res.json(failure) }]
    whose block answers once or throws: it returns normally after one
    answer, the block's own or the failure with the message of what the
    block threw. *)
Lemma try_catch_reports (ok : response → Prop) block (log : error → event) env st :
  (∃ st', (∃ r, block env st = (Ret tt, st') ∧ sent st' = sent st ++ [r] ∧ ok r) ∨
          (∃ e, block env st = (Throw e, st') ∧ sent st' = sent st)) →
  ∃ r st',
    try_catch block
      (λ error, do! emit (log error) in res_json (RFail (message error))) env st
    = (Ret tt, st') ∧
    sent st' = sent st ++ [r] ∧
    ((block env st = (Ret tt, st') ∧ ok r) ∨
     (∃ e st1, block env st = (Throw e, st1) ∧ sent st1 = sent st ∧
               r = RFail (message e))).
Proof.
  intros (st1 & [(r & E & Hs & Hr)|(e & E & Hs)]); unfold try_catch; rewrite E.
  - exists r, st1. split; [done|]. split; [done|]. by left.
  - exists (RFail (message e)). eexists. split; [reflexivity|].
    split; [simpl; by rewrite Hs|]. right. by exists e, st1.
Qed.

Lemma getNowPlayingMovies_try_answers :
  answers_with (λ r, success r = true) getNowPlayingMovies_try.
Proof.
  unfold getNowPlayingMovies_try.
  eapply answers_with_bind; [apply settles_fetchWithRetry|]. intros response _.
  eapply answers_with_bind; [apply settles_lift|]. intros data _.
  eapply answers_with_bind; [apply settles_lift|]. intros movies _.
  by apply answers_with_res_json.
Qed.

Lemma getShows_try_answers : answers_with (λ r, success r = true) getShows_try.
Proof.
  unfold getShows_try.
  eapply answers_with_bind with (P := λ _, True).
  { intros env st. by eexists _, _. }
  intros since _.
  eapply answers_with_bind; [apply settles_Show_find|]. intros found _.
  eapply answers_with_bind; [apply settles_populate_movie|]. intros shows _.
  by apply answers_with_res_json.
Qed.

Lemma getShow_try_answers id : answers_with (λ r, success r = true) (getShow_try id).
Proof.
  unfold getShow_try.
  eapply answers_with_bind with (P := λ _, True).
  { intros env st. by eexists _, _. }
  intros since _.
  eapply answers_with_bind; [apply settles_Show_find|]. intros shows _.
  eapply answers_with_bind; [apply settles_Movie_findById|]. intros movie _.
  eapply answers_with_bind.
  { apply settles_foldM. apply settles_group_show. }
  intros dateTime _. by apply answers_with_res_json.
Qed.

(** *** The add-show request, whatever its body *)

Lemma settles_schema_id v : settles (λ _, True) (schema_id v).
Proof.
  intros env st. unfold schema_id.
  destruct v; try destruct (cast_id env _); by eexists _, _.
Qed.

Lemma settles_schema_price v : settles (λ _, True) (schema_price v).
Proof.
  intros env st. unfold schema_price.
  destruct v; try destruct (cast_price env _); by eexists _, _.
Qed.

Lemma settles_Movie_findById_json id : settles (λ _, True) (Movie_findById_json id).
Proof.
  assert (settles (λ _ : option Movie, True)
            (let! key := schema_id id in Movie_findById key)) as Hkey.
  { eapply settles_bind; [apply settles_schema_id|]. intros key _.
    apply settles_Movie_findById. }
  assert (settles (λ _ : option Movie, True)
            (do! db_call (OpFindMovieById (ToString id)) in ret None)) as Hnull.
  { eapply settles_bind; [apply settles_db_call|]. intros _ _. by apply settles_ret. }
  destruct id; done.
Qed.

Lemma settles_Movie_create_json movieId doc :
  settles (λ _, True) (Movie_create_json movieId doc).
Proof.
  unfold Movie_create_json. eapply settles_bind; [apply settles_schema_id|].
  intros key _. apply settles_Movie_create.
Qed.

Lemma settles_addShow_fetch_try movieId :
  settles (λ f : flow Movie, ∃ m, f = Continue m) (addShow_fetch_try movieId).
Proof.
  unfold addShow_fetch_try.
  eapply settles_bind.
  { apply settles_Promise_all2; apply settles_fetchWithRetry. }
  intros responses _.
  eapply settles_bind; [apply settles_lift|]. intros movieApiData _.
  eapply settles_bind; [apply settles_lift|]. intros movieCreditsData _.
  eapply settles_bind; [apply settles_movieDetails_of|]. intros movieDetails _.
  eapply settles_bind; [apply settles_Movie_create_json|]. intros movie _.
  apply settles_ret. by exists movie.
Qed.

Lemma settles_build_showsToCreate_json movieId showsInput showPrice :
  settles (λ _, True) (build_showsToCreate_json movieId showsInput showPrice).
Proof.
  unfold build_showsToCreate_json.
  eapply settles_bind; [apply settles_lift|]. intros shows _.
  apply settles_foldM. intros acc show.
  eapply settles_bind; [apply settles_lift|]. intros showDate _.
  eapply settles_bind; [apply settles_lift|]. intros show_time _.
  eapply settles_bind; [apply settles_lift|]. intros times _.
  apply settles_foldM. intros acc' time.
  eapply settles_bind with (P := λ _, True).
  { intros env st. by eexists _, _. }
  intros showDateTime _. by apply settles_ret.
Qed.

Lemma settles_Show_insertMany_json ls : settles (λ _, True) (Show_insertMany_json ls).
Proof.
  unfold Show_insertMany_json. eapply settles_bind.
  - apply settles_foldM. intros ds l. unfold read_literal.
    eapply settles_bind with (P := λ _, True).
    + eapply settles_bind; [apply settles_schema_id|]. intros key _.
      eapply settles_bind; [apply settles_schema_price|]. intros price _.
      by apply settles_ret.
    + intros d _. by apply settles_ret.
  - intros ds _. apply settles_Show_insertMany.
Qed.

Lemma addShow_createShows_json_answers movieId showsInput showPrice :
  answers_with (λ r, success r = true)
    (addShow_createShows_json movieId showsInput showPrice).
Proof.
  unfold addShow_createShows_json.
  eapply answers_with_bind; [apply settles_build_showsToCreate_json|].
  intros showsToCreate _.
  eapply answers_with_bind with (P := λ _, True).
  - destruct (0 <? length showsToCreate)%nat;
      [apply settles_Show_insertMany_json | by apply settles_ret].
  - intros _ _. by apply answers_with_res_json.
Qed.

(** The [try] block of [addShow] once the body has been destructured. *)
Lemma addShow_request_try_eq req_body movieId showsInput showPrice env st :
  destructure_body req_body = inl (movieId, showsInput, showPrice) →
  addShow_request_try req_body env st
  = (let! found := Movie_findById_json movieId in
     let! movie := addShow_sync_json movieId found in
     match movie with
     | Return => ret tt
     | Continue _ => addShow_createShows_json movieId showsInput showPrice
     end) env st.
Proof. intros H. unfold addShow_request_try. by rewrite H. Qed.

(** The [try] block of [addShow] answers once or throws; its one answer is
    the success, or the failure of the fetch block. *)
Lemma addShow_request_try_answers req_body env st :
  ∃ st',
    (∃ r, addShow_request_try req_body env st = (Ret tt, st') ∧
          sent st' = sent st ++ [r] ∧
          (success r = true ∨ fetch_failure req_body env st r)) ∨
    (∃ e, addShow_request_try req_body env st = (Throw e, st') ∧ sent st' = sent st).
Proof.
  destruct (destructure_body req_body) as [[[movieId showsInput] showPrice]|e0] eqn:Hbody.
  2:{ exists st. right. exists e0. split; [|done].
      unfold addShow_request_try. by rewrite Hbody. }
  rewrite (addShow_request_try_eq _ _ _ _ _ _ Hbody).
  destruct (settles_Movie_findById_json movieId env st) as (o & st0 & E0 & Hs0 & Ho).
  destruct o as [found|e|]; [| |done].
  2:{ exists st0. right. exists e. split; [by apply bind_throw|done]. }
  rewrite (bind_ret _ _ _ _ _ _ E0).
  assert (∀ m st1,
            addShow_sync_json movieId found env st0 = (Ret (Continue m), st1) →
            sent st1 = sent st →
            ∃ st',
              (∃ r, (let! movie := addShow_sync_json movieId found in
                     match movie with
                     | Return => ret tt
                     | Continue _ =>
                         addShow_createShows_json movieId showsInput showPrice
                     end) env st0 = (Ret tt, st') ∧
                    sent st' = sent st ++ [r] ∧
                    (success r = true ∨ fetch_failure req_body env st r)) ∨
              (∃ e, (let! movie := addShow_sync_json movieId found in
                     match movie with
                     | Return => ret tt
                     | Continue _ =>
                         addShow_createShows_json movieId showsInput showPrice
                     end) env st0 = (Throw e, st') ∧ sent st' = sent st)) as Hgo.
  { intros m st1 E1 Hs1. rewrite (bind_ret _ _ _ _ _ _ E1).
    destruct (addShow_createShows_json_answers movieId showsInput showPrice env st1)
      as (st2 & [(r & E & Hs & Hr)|(e & E & Hs)]).
    - exists st2. left. exists r. split; [done|]. split; [congruence|by left].
    - exists st2. right. exists e. split; [done|congruence]. }
  destruct found as [m|]; [by apply (Hgo m st0)|].
  destruct (settles_addShow_fetch_try movieId env st0) as (o & st1 & E1 & Hs1 & Ho1).
  destruct o as [f|e|]; [| |done].
  - destruct Ho1 as [m ->]. apply (Hgo m st1); [|congruence].
    unfold addShow_sync_json. by apply try_catch_ret.
  - exists (sync_failed e st1). left.
    exists (RFail ("Failed to fetch movie from TMDB: " +:+ message e)).
    split; [|split].
    + rewrite (bind_ret _ _ _ _ Return (sync_failed e st1)); [reflexivity|].
      unfold addShow_sync_json. by apply addShow_sync_throw.
    + simpl. by rewrite Hs1, Hs0.
    + right. by exists movieId, showsInput, showPrice, st0, e, st1.
Qed.

(** A body of the expected shape is handled as [addShow] says. *)
Lemma build_times_json movieId showPrice showDate times acc env st :
  foldM (λ showsToCreate time,
           let dateTimeString := ToString (JStr showDate) +:+ "T" +:+ ToString time in
           let! showDateTime := Date_new dateTimeString in
           ret (showsToCreate ++
                  [{| l_movie := movieId; l_showDateTime := showDateTime;
                      l_showPrice := showPrice |}]))
        acc (map JStr times) env st
  = (Ret (acc ++ map (λ time,
                        {| l_movie := movieId;
                           l_showDateTime := Date_parse env (showDate +:+ "T" +:+ time);
                           l_showPrice := showPrice |}) times),
     st).
Proof.
  revert acc. induction times as [|t times IH]; intros acc; simpl.
  - unfold ret. by rewrite app_nil_r.
  - unfold bind at 1. unfold bind at 1. unfold Date_new, ret at 1.
    rewrite IH. by rewrite <- app_assoc.
Qed.

Lemma build_showsToCreate_json_pairs id showsInput price env st :
  build_showsToCreate_json (JStr id) (JArr (map ShowInput_json showsInput)) (JNum price)
    env st
  = (Ret (map (λ p, {| l_movie := JStr id;
                       l_showDateTime := Date_parse env (p.1 +:+ "T" +:+ p.2);
                       l_showPrice := JNum price |})
              (schedule_pairs showsInput)), st).
Proof.
  unfold build_showsToCreate_json. unfold bind at 1. cbn [lift forEach_of ret].
  assert (∀ acc,
            foldM (λ showsToCreate show,
                     let! showDate := lift (prop show "date") in
                     let! show_time := lift (prop show "time") in
                     let! times := lift (forEach_of show_time "show.time") in
                     foldM (λ showsToCreate time,
                              let dateTimeString :=
                                ToString showDate +:+ "T" +:+ ToString time in
                              let! showDateTime := Date_new dateTimeString in
                              ret (showsToCreate ++
                                     [{| l_movie := JStr id;
                                         l_showDateTime := showDateTime;
                                         l_showPrice := JNum price |}]))
                           showsToCreate times)
                  acc (map ShowInput_json showsInput) env st
            = (Ret (acc ++ map (λ p, {| l_movie := JStr id;
                                        l_showDateTime :=
                                          Date_parse env (p.1 +:+ "T" +:+ p.2);
                                        l_showPrice := JNum price |})
                               (schedule_pairs showsInput)), st)) as H.
  { induction showsInput as [|show rest IH]; intros acc.
    - simpl. unfold ret. by rewrite app_nil_r.
    - cbn [map foldM].
      erewrite bind_ret; cycle 1.
      { erewrite bind_ret; [|reflexivity]. erewrite bind_ret; [|reflexivity].
        erewrite bind_ret; [|reflexivity]. apply build_times_json. }
      rewrite IH. unfold schedule_pairs. cbn [flat_map]. rewrite map_app, map_map.
      by rewrite <- app_assoc. }
  apply (H []).
Qed.

Lemma read_literals acc env st id price (ds : list (option Z)) :
  foldM (λ ds l, let! d := read_literal l in ret (ds ++ [d])) acc
    (map (λ t, {| l_movie := JStr id; l_showDateTime := t; l_showPrice := JNum price |})
         ds) env st
  = (Ret (acc ++ map (λ t, {| d_movie := id; d_showDateTime := t;
                              d_showPrice := price; d_occupiedSeats := ∅ |}) ds), st).
Proof.
  revert acc. induction ds as [|t ds IH]; intros acc; simpl.
  - unfold ret. by rewrite app_nil_r.
  - unfold bind at 1. unfold read_literal. unfold bind at 1. unfold bind at 1.
    cbn [schema_id l_movie]. unfold bind at 1. cbn [schema_price l_showPrice ret].
    rewrite IH. by rewrite <- app_assoc.
Qed.

Lemma addShow_createShows_expected id showsInput price env st :
  addShow_createShows_json (JStr id) (JArr (map ShowInput_json showsInput)) (JNum price)
    env st
  = addShow_createShows id showsInput price env st.
Proof.
  unfold addShow_createShows_json, addShow_createShows.
  rewrite (bind_ret _ _ _ _ _ _ (build_showsToCreate_json_pairs id showsInput price env st)).
  rewrite (bind_ret _ _ _ _ _ _ (build_showsToCreate_pairs id showsInput price env st)).
  rewrite !length_map.
  destruct (0 <? length (schedule_pairs showsInput))%nat; [|done].
  assert (Show_insertMany_json
            (map (λ p, {| l_movie := JStr id;
                          l_showDateTime := Date_parse env (p.1 +:+ "T" +:+ p.2);
                          l_showPrice := JNum price |}) (schedule_pairs showsInput))
            env st
          = Show_insertMany
              (map (λ p, {| d_movie := id;
                            d_showDateTime := Date_parse env (p.1 +:+ "T" +:+ p.2);
                            d_showPrice := price; d_occupiedSeats := ∅ |})
                   (schedule_pairs showsInput)) env st) as E.
  { unfold Show_insertMany_json.
    rewrite <- (map_map (λ p : string * string, Date_parse env (p.1 +:+ "T" +:+ p.2))
                        (λ t, {| l_movie := JStr id; l_showDateTime := t;
                                 l_showPrice := JNum price |})).
    rewrite (bind_ret _ _ _ _ _ _ (read_literals [] env st id price _)).
    cbn [app]. by rewrite map_map. }
  unfold bind. by rewrite E.
Qed.

Lemma bind_ext {A B} (m : M A) (k1 k2 : A → M B) env st :
  (∀ a st', k1 a env st' = k2 a env st') → bind m k1 env st = bind m k2 env st.
Proof.
  intros H. unfold bind. destruct (m env st) as [[a|e|] st']; [apply H|done..].
Qed.

Lemma addShow_sync_expected id found env st :
  addShow_sync_json (JStr id) found env st = addShow_sync id found env st.
Proof.
  destruct found as [m|]; [done|].
  unfold addShow_sync_json, addShow_sync, try_catch.
  match goal with
  | |- match ?a with _ => _ end = match ?b with _ => _ end => assert (a = b) as ->
  end; [|done].
  unfold addShow_fetch_try. cbn [ToString].
  apply bind_ext. intros responses st1.
  apply bind_ext. intros movieApiData st2.
  apply bind_ext. intros movieCreditsData st3.
  destruct (readable movieApiData) eqn:Hd.
  - rewrite !(bind_ret _ _ _ _ _ _ (movieDetails_of_readable id _ env st3 Hd)).
    reflexivity.
  - destruct (movieDetails_of_unreadable id movieApiData env st3 Hd) as [msg E].
    by rewrite !(bind_throw _ _ _ _ _ _ E).
Qed.

Lemma addShow_request_expected body env st :
  addShow_request (AddShowBody_json body) env st = addShow body env st.
Proof.
  unfold addShow_request, try_catch.
  rewrite (addShow_request_try_eq _ (JStr (movieId body))
             (JArr (map ShowInput_json (showsInput body)))
             (JNum (body_showPrice body))) by reflexivity.
  change (Movie_findById_json (JStr (movieId body)))
    with (Movie_findById (movieId body)).
  unfold addShow, addShow_resolve, try_catch, bind.
  destruct (Movie_findById (movieId body) env st) as [[found|e|] st0]; [|done..].
  rewrite addShow_sync_expected.
  destruct (addShow_sync (movieId body) found env st0) as [[[m|]|e|] st1]; [|done..].
  by rewrite addShow_createShows_expected.
Qed.

(** C8: whatever the catalog, the store, the clock and the request are,
    each of the four handlers returns normally (nothing thrown escapes it
    and it does not run out of its loop) after handing exactly one body to
    [res.json].  When its [try] block completes, that body is the block's
    own and is [success: true]; when the block throws an error, whichever
    it is, nothing has been answered before and the body is
    [success: false] with the message of that error.  The request body of
    [addShow] is any JSON value or none: a body that is missing or of
    another shape makes the block throw, and is answered like any other
    failure.  The block of [addShow] also completes when the fetch of the
    movie has failed: its own catch has then answered [success: false]
    with [Failed to fetch movie from TMDB: ] and the message of the error.
    On a body of the expected shape the handler is [addShow]. *)
Theorem handlers_answer_and_never_throw env st :
  let reports (block handler : M unit) (ok : response → Prop) :=
    ∃ r st',
      handler env st = (Ret tt, st') ∧ sent st' = sent st ++ [r] ∧
      ((block env st = (Ret tt, st') ∧ ok r) ∨
       (∃ e st1, block env st = (Throw e, st1) ∧ sent st1 = sent st ∧
                 r = RFail (message e))) in
  reports getNowPlayingMovies_try getNowPlayingMovies (λ r, success r = true) ∧
  (∀ req_body,
     reports (addShow_request_try req_body) (addShow_request req_body)
       (λ r, success r = true ∨ fetch_failure req_body env st r)) ∧
  (∀ body, addShow body env st = addShow_request (AddShowBody_json body) env st) ∧
  reports getShows_try getShows (λ r, success r = true) ∧
  (∀ movieId,
     reports (getShow_try movieId) (getShow movieId) (λ r, success r = true)).
Proof.
  cbv zeta. split; [|split; [|split; [|split]]].
  - apply (try_catch_reports _ _
             (λ error, EvLog ("getNowPlayingMovies Error: " +:+ message error))).
    apply getNowPlayingMovies_try_answers.
  - intros req_body.
    apply (try_catch_reports _ _ (λ error, EvLog ("addShow Error: " +:+ message error))).
    apply addShow_request_try_answers.
  - intros body. symmetry. apply addShow_request_expected.
  - apply (try_catch_reports _ _ EvLogError). apply getShows_try_answers.
  - intros movieId. apply (try_catch_reports _ _ EvLogError). apply getShow_try_answers.
Qed.

(** ** A lookup that has gone stale *)

(** Once its lookup is answered, [addShow] is what is left of it. *)
Lemma addShow_split body env st movie st1 :
  Movie_findById (movieId body) env st = (Ret movie, st1) →
  addShow body env st = addShow_after_lookup body movie env st1.
Proof.
  intros H. unfold addShow, addShow_after_lookup, addShow_resolve, try_catch, bind.
  by rewrite H.
Qed.

(** The synchronisation entered with "not found" for a movie that has been
    stored in the meantime: the fetches succeed, the create throws the
    duplicate-key error, and the catch block answers it as a failed fetch. *)
Lemma addShow_sync_conflict id env st n1 r1 n2 r2 :
  is_Some (movies st !! id) →
  answers env (details_url id) (count_get (details_url id) (trace st)) n1 r1 →
  answers env (credits_url id) (count_get (credits_url id) (trace st)) n2 r2 →
  readable (data r1) = true →
  db_fault env (count_db (trace st)) = None →
  addShow_sync id None env st
  = (Ret Return,
     sync_failed (duplicate_key id)
       (log_events (fetch_events (details_url id) n1
                    ++ fetch_events (credits_url id) n2
                    ++ [EvDb (OpCreateMovie id)]) st)).
Proof.
  intros Hsome (Hn1 & Hf1 & Hr1) (Hn2 & Hf2 & Hr2) Hread Hdb.
  unfold addShow_sync. apply addShow_sync_throw.
  erewrite bind_ret; cycle 1.
  { eapply Promise_all2_ret.
    - apply (fetchWithRetry_succeeds n1); [apply within_default; lia | exact Hf1 | exact Hr1].
    - apply (fetchWithRetry_succeeds n2); [apply within_default; lia | |].
      + intros j Hj. rewrite trace_log_events, count_get_app.
        rewrite (count_get_fetch_events_other _ _ _ (details_credits_neq id)).
        rewrite Nat.add_0_r. by apply Hf2.
      + rewrite trace_log_events, count_get_app.
        rewrite (count_get_fetch_events_other _ _ _ (details_credits_neq id)).
        by rewrite Nat.add_0_r. }
  rewrite log_events_app.
  erewrite bind_ret; [|reflexivity]. erewrite bind_ret; [|reflexivity].
  erewrite bind_ret; [|by apply movieDetails_of_readable].
  erewrite bind_throw; cycle 1.
  { apply Movie_create_duplicate; [|exact Hsome]. rewrite trace_log_events.
    rewrite count_db_app, count_db_app, !count_db_fetch_events.
    by rewrite !Nat.add_0_r. }
  change (_id (normalized id (data r1))) with id.
  by rewrite log_events_app, <- app_assoc.
Qed.

(** C6, as the code has it: when a request goes on from a lookup that found
    no movie while another request has created that movie since, and the
    catalog answers its two fetches, its create fails on the primary key;
    the failure is caught, the handler answers once and returns normally,
    and the store keeps the first Movie.  The answer is the one of a failed
    fetch, [success: false] with the message
    [Failed to fetch movie from TMDB: ] followed by the text of the
    duplicate-key error: the conflict is not a condition of its own. *)
Theorem stale_lookup_conflict_is_answered env st body n1 r1 n2 r2 :
  is_Some (movies st !! movieId body) →
  answers env (details_url (movieId body))
    (count_get (details_url (movieId body)) (trace st)) n1 r1 →
  answers env (credits_url (movieId body))
    (count_get (credits_url (movieId body)) (trace st)) n2 r2 →
  readable (data r1) = true →
  db_fault env (count_db (trace st)) = None →
  ∃ st' r,
    addShow_after_lookup body None env st = (Ret tt, st') ∧
    sent st' = sent st ++ [r] ∧
    r = RFail ("Failed to fetch movie from TMDB: "
               +:+ message (duplicate_key (movieId body))) ∧
    reported_as_fetch_failure r ∧
    movies st' = movies st ∧ shows st' = shows st.
Proof.
  intros Hsome Ha1 Ha2 Hread Hdb.
  eexists. eexists. split.
  { unfold addShow_after_lookup. apply try_catch_ret.
    erewrite bind_ret; [|by apply (addShow_sync_conflict _ _ _ n1 r1 n2 r2)].
    reflexivity. }
  split; [reflexivity|]. split; [reflexivity|]. split; [by eexists|]. done.
Qed.

Lemma stale_lookup_conflict_is_answered_witness :
  let st := snd (addShow dune_request host empty_state) in
  is_Some (movies st !! "438631") ∧
  ∃ st' r,
    addShow_after_lookup dune_request None host st = (Ret tt, st') ∧
    sent st' = sent st ++ [r] ∧
    r = RFail ("Failed to fetch movie from TMDB: "
               +:+ message (duplicate_key "438631")) ∧
    reported_as_fetch_failure r ∧
    movies st' = movies st ∧ shows st' = shows st.
Proof.
  assert (is_Some (movies (snd (addShow dune_request host empty_state)) !! "438631"))
    as H by (vm_compute; eauto).
  split; [exact H|].
  apply (stale_lookup_conflict_is_answered host _ dune_request
           0%nat {| status := 200; data := dune_json |}
           0%nat {| status := 200; data := credits_json |}).
  - exact H.
  - split; [lia|]. split; [intros j Hj; lia|reflexivity].
  - split; [lia|]. split; [intros j Hj; lia|reflexivity].
  - reflexivity.
  - reflexivity.
Defined.

(** C6, as the specification states it, fails: in the race of two
    add-show requests for the same new movie both requests create the
    movie, and the answer to the second one is that of a failed fetch from
    the catalog, with the text of the duplicate-key error as its detail. *)
Lemma conflict_reported_as_fetch_failure :
  ∃ st' r,
    race_addShow dune_request dune_request host empty_state = (Ret tt, st') ∧
    count_event (EvDb (OpCreateMovie "438631")) (trace st') = 2%nat ∧
    sent st' = [ROkMessage "Show Added successfully."; r] ∧
    r = RFail ("Failed to fetch movie from TMDB: E11000 duplicate key error "
               +:+ "collection: movies index: _id_ dup key: { _id: '438631' }") ∧
    reported_as_fetch_failure r.
Proof.
  eexists. eexists. split; [vm_compute; reflexivity|].
  split; [vm_compute; reflexivity|]. split; [vm_compute; reflexivity|].
  split; [vm_compute; reflexivity|].
  eexists. vm_compute. reflexivity.
Qed.

(** ** AvailabilityIndex: the availability of a movie *)

Lemma group_show_in_range dateTime show env st :
  in_range (showDateTime show) = true →
  group_show dateTime show env st = (Ret (group_step dateTime show), st).
Proof.
  intros H. unfold group_show, toISOString. unfold in_range in H. rewrite H.
  reflexivity.
Qed.

Lemma group_show_out_of_range dateTime show env st :
  in_range (showDateTime show) = false →
  group_show dateTime show env st
  = (Throw (Error RangeError "Invalid time value"), st).
Proof.
  intros H. unfold group_show, toISOString. unfold in_range in H. rewrite H.
  reflexivity.
Qed.

Lemma foldM_group_show ss acc env st :
  Forall (λ s, in_range (showDateTime s) = true) ss →
  foldM group_show acc ss env st = (Ret (fold_left group_step ss acc), st).
Proof.
  intros H. revert acc. induction H as [|s ss Hs _ IH]; intros acc; [done|].
  cbn [foldM fold_left]. erewrite bind_ret; [|by apply group_show_in_range].
  apply IH.
Qed.

(** [getShow] when the store answers its two calls and the dates of the
    shows found can be printed. *)
Lemma getShow_answers id env st :
  db_fault env (count_db (trace st)) = None →
  db_fault env (S (count_db (trace st))) = None →
  Forall (λ s, in_range (showDateTime s) = true)
         (List.filter (matches (Some id) (now env)) (shows st)) →
  getShow id env st
  = (Ret tt,
     add_sent (ROkShow (movies st !! id)
                 (group_by_date (List.filter (matches (Some id) (now env)) (shows st))))
       (log_events [EvDb (OpFindShows (Some id)); EvDb (OpFindMovieById id)] st)).
Proof.
  intros Hdb Hdb1 Hrange. unfold getShow, getShow_try. apply try_catch_ret.
  erewrite bind_ret; [|reflexivity].
  unfold Show_find. erewrite bind_ret; cycle 1.
  { erewrite bind_ret; [|by apply db_call_ok]. reflexivity. }
  erewrite bind_ret; cycle 1.
  { apply Movie_findById_ok. rewrite trace_log_events, count_db_app. simpl.
    by rewrite Nat.add_1_r. }
  rewrite log_events_app.
  erewrite bind_ret; [|by apply foldM_group_show]. reflexivity.
Qed.

Lemma get_bucket_push d k x dateTime :
  get_bucket d (push_bucket k x dateTime)
  = if String.eqb k d then (λ v, v ++ [x]) <$> get_bucket d dateTime
    else get_bucket d dateTime.
Proof.
  induction dateTime as [|[k' v] rest IH]; simpl.
  - by destruct (String.eqb k d).
  - destruct (String.eqb k' k) eqn:Ek; simpl.
    + apply String.eqb_eq in Ek as ->. by destruct (String.eqb k d).
    + rewrite IH. destruct (String.eqb k' d) eqn:Ed; [|done].
      apply String.eqb_eq in Ed as ->.
      destruct (String.eqb k d) eqn:Ekd; [|done].
      apply String.eqb_eq in Ekd as ->. by rewrite String.eqb_refl in Ek.
Qed.

Lemma get_bucket_new d k dateTime :
  get_bucket d (dateTime ++ [(k, [])])
  = match get_bucket d dateTime with
    | Some v => Some v
    | None => if String.eqb k d then Some [] else None
    end.
Proof.
  induction dateTime as [|[k' v] rest IH]; simpl; [done|].
  by destruct (String.eqb k' d).
Qed.

Lemma get_bucket_group_step d dateTime show :
  get_bucket d (group_step dateTime show)
  = if String.eqb (date_key (showDateTime show)) d
    then Some (default [] (get_bucket d dateTime) ++ [slot_of show])
    else get_bucket d dateTime.
Proof.
  unfold group_step. rewrite get_bucket_push.
  destruct (String.eqb (date_key (showDateTime show)) d) eqn:E.
  - apply String.eqb_eq in E as ->.
    destruct (get_bucket _ dateTime) as [v|] eqn:Eb; [by rewrite Eb|].
    rewrite get_bucket_new, Eb. by rewrite String.eqb_refl.
  - destruct (get_bucket (date_key _) dateTime); [done|].
    rewrite get_bucket_new, E. by destruct (get_bucket d dateTime).
Qed.

Lemma get_bucket_fold d ss acc :
  get_bucket d (fold_left group_step ss acc)
  = match get_bucket d acc, slots_on d ss with
    | None, [] => None
    | o, new => Some (default [] o ++ new)
    end.
Proof.
  revert acc. induction ss as [|s ss IH]; intros acc; simpl.
  - destruct (get_bucket d acc); [by rewrite app_nil_r|done].
  - rewrite IH, get_bucket_group_step. unfold slots_on. simpl.
    destruct (String.eqb (date_key (showDateTime s)) d); simpl.
    + destruct (get_bucket d acc); simpl; by rewrite <- ?app_assoc.
    + done.
Qed.

(** The bucket of a date holds the slots of exactly the shows of that
    date, in the order of the list; a date of no show has no bucket. *)
Lemma get_bucket_group_by_date d ss :
  get_bucket d (group_by_date ss)
  = match slots_on d ss with [] => None | new => Some new end.
Proof. unfold group_by_date. rewrite get_bucket_fold. by destruct (slots_on d ss). Qed.

Lemma get_bucket_Some_keys d dateTime :
  is_Some (get_bucket d dateTime) ↔ d ∈ map fst dateTime.
Proof.
  induction dateTime as [|[k v] rest IH]; simpl.
  - split; [by intros [? ?]|by intros ?%elem_of_nil].
  - destruct (String.eqb k d) eqn:E.
    + apply String.eqb_eq in E as ->. split; [intros _; apply list_elem_of_here|eauto].
    + rewrite IH. split; [apply list_elem_of_further|].
      intros [->|H]%elem_of_cons; [|done]. by rewrite String.eqb_refl in E.
Qed.

Lemma keys_push_bucket k x dateTime :
  map fst (push_bucket k x dateTime) = map fst dateTime.
Proof.
  induction dateTime as [|[k' v] rest IH]; simpl; [done|].
  destruct (String.eqb k' k); simpl; by rewrite ?IH.
Qed.

(** The answer has one key for each date. *)
Lemma NoDup_keys_group_by_date ss : NoDup (map fst (group_by_date ss)).
Proof.
  unfold group_by_date.
  assert (NoDup (map fst (@nil (string * list Slot)))) as H by constructor.
  revert H. generalize (@nil (string * list Slot)) as acc.
  induction ss as [|s ss IH]; intros acc Hacc; [done|].
  simpl. apply IH. unfold group_step. rewrite keys_push_bucket.
  destruct (get_bucket _ acc) eqn:E; [done|].
  rewrite map_app. simpl. apply NoDup_app. split; [done|]. split.
  - intros k Hk [->|[]%elem_of_nil]%elem_of_cons.
    apply get_bucket_Some_keys in Hk. rewrite E in Hk. by destruct Hk.
  - apply NoDup_singleton.
Qed.

Lemma digit_not_T d : 0 ≤ d < 10 → Ascii.eqb (digit d) "T" = false.
Proof.
  intros H.
  assert (d = 0 ∨ d = 1 ∨ d = 2 ∨ d = 3 ∨ d = 4 ∨ d = 5 ∨ d = 6 ∨ d = 7
          ∨ d = 8 ∨ d = 9) as Hd by lia.
  repeat (destruct Hd as [->|Hd]; [reflexivity|]). by subst.
Qed.

Lemma no_T_app s1 s2 : no_T (s1 +:+ s2) = no_T s1 && no_T s2.
Proof. induction s1 as [|c s1 IH]; simpl; [done|]. rewrite IH. by rewrite andb_assoc. Qed.

Lemma no_T_pad2 n : no_T (pad2 n) = true.
Proof.
  unfold pad2. simpl.
  rewrite !digit_not_T by (apply Z.mod_pos_bound; lia). done.
Qed.

Lemma no_T_pad4 n : no_T (pad4 n) = true.
Proof.
  unfold pad4, pad3. simpl.
  rewrite !digit_not_T by (apply Z.mod_pos_bound; lia). done.
Qed.

Lemma no_T_pad6 n : no_T (pad6 n) = true.
Proof.
  unfold pad6, pad4, pad3. simpl.
  rewrite !digit_not_T by (apply Z.mod_pos_bound; lia). done.
Qed.

Lemma no_T_iso_year y : no_T (iso_year y) = true.
Proof.
  unfold iso_year. destruct ((0 <=? y) && (y <=? 9999)); [apply no_T_pad4|].
  rewrite no_T_app, no_T_pad6. by destruct (y <? 0).
Qed.

Lemma no_T_iso_date t : no_T (iso_date t) = true.
Proof.
  unfold iso_date. destruct (civil_from_days (t / ms_per_day)) as [[y m] d].
  by rewrite !no_T_app, !no_T_pad2, no_T_iso_year.
Qed.

Lemma before_T_app s1 s2 : no_T s1 = true → before_T (s1 +:+ String "T" s2) = s1.
Proof.
  induction s1 as [|c s1 IH]; simpl; [done|].
  intros [Hc H]%andb_true_iff. apply negb_true_iff in Hc. rewrite Hc.
  by rewrite IH.
Qed.

(** The key of a show is the date [YYYY-MM-DD] of the UTC day of its
    instant: the time of day is cut off. *)
Lemma date_key_iso_date t : date_key t = iso_date t.
Proof. unfold date_key. apply before_T_app, no_T_iso_date. Qed.

Lemma date_key_same_day t1 t2 :
  t1 / ms_per_day = t2 / ms_per_day → date_key t1 = date_key t2.
Proof. intros H. rewrite !date_key_iso_date. unfold iso_date. by rewrite H. Qed.

(** What [getShow] answers for a movie, stored or not: the movie or
    [null], and the upcoming shows that refer to the identifier, one bucket
    for each UTC date, each bucket holding the instant and the identifier
    of the shows of that date in the order in which the store returned
    them. *)
Lemma getShow_groups_by_date id env st :
  db_fault env (count_db (trace st)) = None →
  db_fault env (S (count_db (trace st))) = None →
  let upcoming := List.filter (matches (Some id) (now env)) (shows st) in
  Forall (λ s, in_range (showDateTime s) = true) upcoming →
  ∃ st' dateTime,
    getShow id env st = (Ret tt, st') ∧
    sent st' = sent st ++ [ROkShow (movies st !! id) dateTime] ∧
    NoDup (map fst dateTime) ∧
    ∀ d, get_bucket d dateTime
         = match slots_on d upcoming with [] => None | new => Some new end.
Proof.
  intros Hdb Hdb1 upcoming Hrange.
  eexists. eexists. split; [by apply getShow_answers|].
  split; [reflexivity|]. split; [apply NoDup_keys_group_by_date|].
  intros d. apply get_bucket_group_by_date.
Qed.

(** C5: [getShow] does not order the entries of a date bucket by time.
    After an add-show request that lists 18:00 before 14:00 for 2024-05-01,
    the answer for the movie has the single key 2024-05-01 and under it the
    show of 18:00 before the show of 14:00, the order in which the store
    holds them: the query of [getShow] has no sort (the one of [getShows]
    has). *)
Theorem getShow_bucket_not_sorted :
  let st := snd (addShow evening_first host empty_state) in
  ∃ st' m a b,
    getShow "438631" host st = (Ret tt, st') ∧
    sent st' = sent st ++ [ROkShow (Some m) [("2024-05-01", [a; b])]] ∧
    a = {| slot_time := 1714586400000; slot_showId := 0 |} ∧
    b = {| slot_time := 1714572000000; slot_showId := 1 |} ∧
    toISOString (slot_time a) = inl "2024-05-01T18:00:00.000Z" ∧
    toISOString (slot_time b) = inl "2024-05-01T14:00:00.000Z" ∧
    slot_time b < slot_time a.
Proof.
  simpl. do 4 eexists. split; [vm_compute; reflexivity|].
  split; [vm_compute; reflexivity|]. split; [reflexivity|]. split; [reflexivity|].
  split; [vm_compute; reflexivity|]. split; [vm_compute; reflexivity|]. done.
Qed.

Lemma filter_matches_no_show id since (ss : list Show) :
  (∀ s, s ∈ ss → movie s ≠ id) → List.filter (matches (Some id) since) ss = [].
Proof.
  induction ss as [|s ss IH]; intros Hno; [done|]. simpl.
  assert (matches (Some id) since s = false) as ->.
  { unfold matches. rewrite bool_decide_eq_false_2; [done|].
    apply Hno, list_elem_of_here. }
  apply IH. intros s' Hs'. apply Hno. by apply list_elem_of_further.
Qed.

(** C7, as the code has it: for a movie that is not stored, [getShow]
    surfaces no error.  When the store answers and the dates of the shows
    found can be printed, it answers [success: true] with [movie: null] and
    the grouping of whatever upcoming shows refer to the identifier, which
    is the empty object when none does. *)
Theorem getShow_unknown_movie_succeeds env st id :
  movies st !! id = None →
  db_fault env (count_db (trace st)) = None →
  db_fault env (S (count_db (trace st))) = None →
  Forall (λ s, in_range (showDateTime s) = true)
         (List.filter (matches (Some id) (now env)) (shows st)) →
  ∃ st' r,
    getShow id env st = (Ret tt, st') ∧
    sent st' = sent st ++ [r] ∧
    r = ROkShow None
          (group_by_date (List.filter (matches (Some id) (now env)) (shows st))) ∧
    success r = true ∧
    ((∀ s, s ∈ shows st → movie s ≠ id) → r = ROkShow None []).
Proof.
  intros Hnone Hdb Hdb1 Hrange.
  pose proof (getShow_answers id env st Hdb Hdb1 Hrange) as E. rewrite Hnone in E.
  eexists. eexists. split; [exact E|].
  split; [reflexivity|]. split; [reflexivity|]. split; [reflexivity|].
  intros Hno. f_equal. by rewrite filter_matches_no_show.
Qed.

Lemma getShow_unknown_movie_succeeds_witness :
  let st := snd (addShow dune_request host empty_state) in
  movies st !! "0" = None ∧
  ∃ st' r,
    getShow "0" host st = (Ret tt, st') ∧
    sent st' = sent st ++ [r] ∧
    r = ROkShow None
          (group_by_date (List.filter (matches (Some "0") (now host)) (shows st))) ∧
    success r = true ∧
    ((∀ s, s ∈ shows st → movie s ≠ "0") → r = ROkShow None []).
Proof.
  split; [vm_compute; reflexivity|].
  apply (getShow_unknown_movie_succeeds host _ "0").
  - vm_compute; reflexivity.
  - vm_compute; reflexivity.
  - vm_compute; reflexivity.
  - assert (List.filter (matches (Some "0") (now host))
              (shows (snd (addShow dune_request host empty_state))) = []) as ->
      by (vm_compute; reflexivity).
    constructor.
Defined.

(** C7, as the specification states it, fails: asked for a movie that the
    store does not hold, [getShow] answers [success: true] with [movie:
    null] and an empty [dateTime]. *)
Lemma getShow_unknown_movie_no_error :
  movies empty_state !! "0" = None ∧
  ∃ st', getShow "0" host empty_state = (Ret tt, st') ∧
         sent st' = [ROkShow None []] ∧
         ¬ ∃ msg, sent st' = [RFail msg].
Proof.
  split; [reflexivity|]. eexists. split; [vm_compute; reflexivity|].
  split; [reflexivity|]. intros [msg H]. discriminate H.
Qed.

(** ** AvailabilityIndex: the movies with an upcoming show *)

Lemma same_value_refl x : same_value x x = true.
Proof. destruct x; simpl; [by apply bool_decide_eq_true|done]. Qed.

Lemma same_value_sym x y : same_value x y = same_value y x.
Proof.
  destruct x, y; simpl; try done.
  apply bool_decide_ext. split; congruence.
Qed.

Lemma same_value_addr x y :
  same_value x y = true ↔ doc_addr <$> x = doc_addr <$> y.
Proof.
  destruct x, y; simpl; split; try done.
  - intros ?%bool_decide_eq_true. by f_equal.
  - intros [= ?]. by apply bool_decide_eq_true.
Qed.

Lemma existsb_same_value x (s : list (option MovieDoc)) :
  existsb (same_value x) s = true ↔ ∃ y, y ∈ s ∧ same_value x y = true.
Proof.
  rewrite existsb_exists. split; intros (y & Hy & E); exists y; split; try done;
    by apply list_elem_of_In.
Qed.

Lemma Set_add_distinct s x : distinct s → distinct (Set_add s x).
Proof.
  intros Hs. unfold Set_add. destruct (existsb (same_value x) s) eqn:E; [done|].
  assert (∀ y, y ∈ s → same_value x y = false) as Hnew.
  { intros y Hy. destruct (same_value x y) eqn:Exy; [|done].
    assert (existsb (same_value x) s = true) as E'
      by (apply existsb_same_value; eauto).
    congruence. }
  intros i j a b Hi Hj Hab.
  apply lookup_app_Some in Hi as [Hi|[Hi Hi']];
    apply lookup_app_Some in Hj as [Hj|[Hj Hj']].
  - by apply (Hs i j a b).
  - apply list_lookup_singleton_Some in Hj' as [_ <-].
    rewrite same_value_sym, Hnew in Hab; [done|]. by eapply list_elem_of_lookup_2.
  - apply list_lookup_singleton_Some in Hi' as [_ <-].
    rewrite Hnew in Hab; [done|]. by eapply list_elem_of_lookup_2.
  - apply list_lookup_singleton_Some in Hi' as [Hi' _].
    apply list_lookup_singleton_Some in Hj' as [Hj' _]. lia.
Qed.

Lemma fold_Set_add_distinct l s : distinct s → distinct (fold_left Set_add l s).
Proof.
  revert s. induction l as [|x l IH]; intros s Hs; [done|].
  simpl. by apply IH, Set_add_distinct.
Qed.

Lemma new_Set_distinct l : distinct (new_Set l).
Proof.
  apply fold_Set_add_distinct. intros i j x y Hi. by rewrite lookup_nil in Hi.
Qed.

Lemma elem_of_Set_add y s x : y ∈ Set_add s x → y ∈ s ∨ y = x.
Proof.
  unfold Set_add. destruct (existsb (same_value x) s); [by left|].
  intros [H|H%list_elem_of_singleton]%elem_of_app; auto.
Qed.

Lemma Set_add_keeps y s x : y ∈ s → y ∈ Set_add s x.
Proof.
  intros H. unfold Set_add. destruct (existsb (same_value x) s); [done|].
  apply elem_of_app. by left.
Qed.

Lemma Set_add_has s x : ∃ y, y ∈ Set_add s x ∧ same_value x y = true.
Proof.
  unfold Set_add. destruct (existsb (same_value x) s) eqn:E.
  - by apply existsb_same_value.
  - exists x. split; [|apply same_value_refl].
    apply elem_of_app. right. apply list_elem_of_singleton. done.
Qed.

Lemma elem_of_fold_Set_add y l s : y ∈ fold_left Set_add l s → y ∈ s ∨ y ∈ l.
Proof.
  revert s. induction l as [|x l IH]; intros s; simpl; [by left|].
  intros [[H| ->]%elem_of_Set_add|H]%IH.
  - by left.
  - right. apply list_elem_of_here.
  - right. by apply list_elem_of_further.
Qed.

Lemma fold_Set_add_keeps y l s : y ∈ s → y ∈ fold_left Set_add l s.
Proof.
  revert s. induction l as [|x l IH]; intros s H; [done|].
  simpl. by apply IH, Set_add_keeps.
Qed.

Lemma fold_Set_add_has x l s :
  x ∈ l → ∃ y, y ∈ fold_left Set_add l s ∧ same_value x y = true.
Proof.
  revert s. induction l as [|x' l IH]; intros s; [by intros ?%elem_of_nil|].
  intros [->|H]%elem_of_cons; simpl; [|by apply IH].
  destruct (Set_add_has s x') as (y & Hy & E). exists y.
  split; [by apply fold_Set_add_keeps|done].
Qed.

(** The references of a query to one state of the store: two of them of
    the same identity are the same. *)
Lemma ref_of_same_value ms s1 s2 :
  same_value (ref_of ms s1) (ref_of ms s2) = true → ref_of ms s1 = ref_of ms s2.
Proof.
  unfold ref_of. intros H%same_value_addr.
  destruct (ms !! movie s1) as [m1|] eqn:E1, (ms !! movie s2) as [m2|] eqn:E2;
    simpl in H; try done.
  injection H as H. rewrite H in E1 |- *. congruence.
Qed.

(** The Set of the references of a query holds each of them, once. *)
Lemma new_Set_refs ms (ss : list Show) :
  let set := new_Set (map (ref_of ms) ss) in
  (∀ x, x ∈ set ↔ ∃ s, s ∈ ss ∧ x = ref_of ms s) ∧
  (∀ i j x, set !! i = Some x → set !! j = Some x → i = j).
Proof.
  simpl. split.
  - intros x. split.
    + intros [[]%elem_of_nil|H]%elem_of_fold_Set_add.
      apply list_elem_of_fmap in H as (s & -> & Hs). eauto.
    + intros (s & Hs & ->).
      destruct (fold_Set_add_has (ref_of ms s) (map (ref_of ms) ss) [])
        as (y & Hy & E).
      { apply list_elem_of_fmap. eauto. }
      assert (y = ref_of ms s) as ->; [|done].
      apply elem_of_fold_Set_add in Hy as [[]%elem_of_nil|Hy].
      apply list_elem_of_fmap in Hy as (s' & -> & Hs').
      symmetry. by apply ref_of_same_value.
  - intros i j x Hi Hj. eapply new_Set_distinct; [exact Hi|exact Hj|].
    apply same_value_refl.
Qed.

(** The shows a sorted query for upcoming shows returns. *)
Lemma elem_of_upcoming_sorted since (ss : list Show) s :
  s ∈ sort_by_showDateTime (List.filter (matches None since) ss)
  ↔ s ∈ ss ∧ since ≤ showDateTime s.
Proof.
  unfold sort_by_showDateTime. rewrite merge_sort_Permutation.
  rewrite list_elem_of_In, filter_In, <- list_elem_of_In.
  unfold matches. simpl. by rewrite Z.leb_le.
Qed.

(** [getShows] when the store answers its two calls. *)
Lemma getShows_answers env st :
  db_fault env (count_db (trace st)) = None →
  db_fault env (S (count_db (trace st))) = None →
  getShows env st
  = (Ret tt,
     add_sent
       (ROkShows
          (map (fmap doc_value)
             (new_Set (map (ref_of (movies st))
                         (sort_by_showDateTime
                            (List.filter (matches None (now env)) (shows st)))))))
       (log_events [EvDb (OpFindShows None); EvDb OpPopulateMovies] st)).
Proof.
  intros Hdb Hdb1. unfold getShows, getShows_try. apply try_catch_ret.
  erewrite bind_ret; [|reflexivity].
  unfold Show_find. erewrite bind_ret; cycle 1.
  { erewrite bind_ret; [|by apply db_call_ok]. reflexivity. }
  unfold populate_movie. erewrite bind_ret; cycle 1.
  { erewrite bind_ret; cycle 1.
    { apply db_call_ok. rewrite trace_log_events, count_db_app. simpl.
      by rewrite Nat.add_1_r. }
    reflexivity. }
  rewrite log_events_app. unfold res_json. simpl. by rewrite map_map.
Qed.

(** Creating a movie keeps every Movie under its own identifier. *)
Lemma put_movie_store_wf doc st : store_wf st → store_wf (put_movie doc st).
Proof.
  intros Hwf k m. simpl. rewrite lookup_insert. case_decide; [|by apply Hwf].
  by intros [= <-].
Qed.

Lemma lookup_listed (set : list (option MovieDoc)) i :
  map (fmap doc_value) set !! i = fmap (M := option) doc_value <$> set !! i.
Proof. apply (list_lookup_fmap (fmap (M := option) doc_value)). Qed.

Lemma elem_of_listed (set : list (option MovieDoc)) y :
  y ∈ map (fmap doc_value) set ↔ ∃ x, y = doc_value <$> x ∧ x ∈ set.
Proof. apply (list_elem_of_fmap (fmap (M := option) doc_value)). Qed.

(** C4: when the store answers, [getShows] answers with a list in which
    each stored movie that has at least one show at or after the current
    instant occurs at exactly one position, however many of its shows are
    upcoming, and in which no movie occurs whose shows all lie in the
    past: every movie listed is a stored one with an upcoming show. *)
Theorem getShows_lists_each_upcoming_movie_once env st :
  store_wf st →
  db_fault env (count_db (trace st)) = None →
  db_fault env (S (count_db (trace st))) = None →
  ∃ st' listed,
    getShows env st = (Ret tt, st') ∧
    sent st' = sent st ++ [ROkShows listed] ∧
    (∀ k m, movies st !! k = Some m →
       ((∃ s, s ∈ shows st ∧ movie s = k ∧ now env ≤ showDateTime s) →
        ∃ i, listed !! i = Some (Some m) ∧
             ∀ j, listed !! j = Some (Some m) → j = i) ∧
       ((∀ s, s ∈ shows st → movie s = k → showDateTime s < now env) →
        Some m ∉ listed)) ∧
    (∀ m, Some m ∈ listed →
       ∃ s, s ∈ shows st ∧ movies st !! movie s = Some m
            ∧ now env ≤ showDateTime s).
Proof.
  intros Hwf Hdb Hdb1.
  set (sorted := sort_by_showDateTime (List.filter (matches None (now env)) (shows st))).
  set (set := new_Set (map (ref_of (movies st)) sorted)).
  destruct (new_Set_refs (movies st) sorted) as [Hin Hdistinct].
  fold set in Hin, Hdistinct.
  exists (add_sent (ROkShows (map (fmap doc_value) set))
            (log_events [EvDb (OpFindShows None); EvDb OpPopulateMovies] st)).
  exists (map (fmap doc_value) set).
  split; [by apply getShows_answers|]. split; [done|].
  assert (∀ x m, x ∈ set → doc_value <$> x = Some m →
            ∃ s, s ∈ shows st ∧ now env ≤ showDateTime s
                 ∧ movies st !! movie s = Some m
                 ∧ x = Some {| doc_addr := movie s; doc_value := m |}) as Hlisted.
  { intros x m Hx Hm. apply Hin in Hx as (s & Hs & ->).
    apply elem_of_upcoming_sorted in Hs as [Hs Hup].
    exists s. unfold ref_of in *.
    destruct (movies st !! movie s) as [m'|]; simplify_eq/=. done. }
  split.
  - intros k m Hk. split.
    + intros (s & Hs & Hmov & Hup).
      assert (Some {| doc_addr := k; doc_value := m |} ∈ set) as Hset.
      { apply Hin. exists s. split; [by apply elem_of_upcoming_sorted|].
        unfold ref_of. by rewrite Hmov, Hk. }
      apply list_elem_of_lookup in Hset as [i Hi]. exists i. split.
      * by rewrite lookup_listed, Hi.
      * intros j Hj. rewrite lookup_listed in Hj.
        destruct (set !! j) as [x|] eqn:Ej; [|done].
        simpl in Hj. injection Hj as Hj.
        destruct (Hlisted x m) as (s' & Hs' & _ & Hm' & ->);
          [by eapply list_elem_of_lookup_2 | done |].
        assert (movie s' = k) as Hk'.
        { rewrite <- (Hwf _ _ Hm'). by apply Hwf. }
        rewrite Hk' in Ej. by apply (Hdistinct j i _ Ej Hi).
    + intros Hpast Hm.
      apply elem_of_listed in Hm as (x & Hx & Hxset).
      destruct (Hlisted x m Hxset) as (s & Hs & Hup & Hm' & _); [done|].
      assert (movie s = k) as Hk'.
      { rewrite <- (Hwf _ _ Hm'). by apply Hwf. }
      specialize (Hpast s Hs Hk'). lia.
  - intros m Hm.
    apply elem_of_listed in Hm as (x & Hx & Hxset).
    destruct (Hlisted x m Hxset) as (s & Hs & Hup & Hm' & _); [done|].
    by exists s.
Qed.

Lemma listing_state_wf : store_wf listing_state.
Proof.
  intros k m. simpl. rewrite !lookup_insert.
  repeat case_decide; first [by intros [= <-] | by rewrite lookup_empty].
Qed.

Lemma getShows_lists_each_upcoming_movie_once_witness :
  store_wf listing_state ∧
  ∃ st' listed,
    getShows host listing_state = (Ret tt, st') ∧
    sent st' = [ROkShows listed] ∧
    (∃ i, listed !! i = Some (Some dune) ∧
          ∀ j, listed !! j = Some (Some dune) → j = i) ∧
    Some matrix ∉ listed.
Proof.
  split; [exact listing_state_wf|].
  destruct (getShows_lists_each_upcoming_movie_once host listing_state
              listing_state_wf eq_refl eq_refl)
    as (st' & listed & E & Hs & H & _).
  exists st', listed. split; [exact E|]. split; [exact Hs|]. split.
  - apply (H "438631" dune eq_refl).
    exists {| show_id := 0; movie := "438631"; showDateTime := 1714572000000;
              showPrice := 25 # 2; occupiedSeats := ∅ |}.
    split; [apply list_elem_of_here|]. split; [reflexivity|].
    unfold host, april_2024. simpl. lia.
  - apply (H "603" matrix eq_refl).
    intros s Hin Hm. simpl in Hin.
    apply elem_of_cons in Hin as [->|Hin]; [discriminate Hm|].
    apply elem_of_cons in Hin as [->|Hin];
      [unfold host, april_2024; simpl; lia|].
    apply elem_of_cons in Hin as [->|Hin]; [discriminate Hm|].
    by apply elem_of_nil in Hin.
Defined.

(** ** The examples of the specification, run on the example host *)

(** The scheduler's example: three Shows at the combined instants, each at
    the given price and with no occupied seat. *)
Example addShow_dune_request :
  ∃ st',
    addShow dune_request host empty_state = (Ret tt, st') ∧
    sent st' = [ROkMessage "Show Added successfully."] ∧
    movies st' = <["438631" := dune]> ∅ ∧
    shows st'
    = [{| show_id := 0; movie := "438631"; showDateTime := 1714572000000;
          showPrice := 25 # 2; occupiedSeats := ∅ |};
       {| show_id := 1; movie := "438631"; showDateTime := 1714586400000;
          showPrice := 25 # 2; occupiedSeats := ∅ |};
       {| show_id := 2; movie := "438631"; showDateTime := 1714680000000;
          showPrice := 25 # 2; occupiedSeats := ∅ |}] ∧
    map (λ s, toISOString (showDateTime s)) (shows st')
    = [inl "2024-05-01T14:00:00.000Z"; inl "2024-05-01T18:00:00.000Z";
       inl "2024-05-02T20:00:00.000Z"].
Proof.
  eexists. split; [vm_compute; reflexivity|].
  split; [reflexivity|]. split; [reflexivity|]. split; [reflexivity|].
  vm_compute. reflexivity.
Qed.

(** The availability example: two date keys, the first with two entries
    and the second with one. *)
Example getShow_dune_request :
  let st := snd (addShow dune_request host empty_state) in
  ∃ st',
    getShow "438631" host st = (Ret tt, st') ∧
    sent st'
    = sent st ++
      [ROkShow (Some dune)
         [("2024-05-01", [{| slot_time := 1714572000000; slot_showId := 0 |};
                          {| slot_time := 1714586400000; slot_showId := 1 |}]);
          ("2024-05-02", [{| slot_time := 1714680000000; slot_showId := 2 |}])]].
Proof.
  simpl. eexists. split; [vm_compute; reflexivity|]. vm_compute. reflexivity.
Qed.

(** The listing example: one entry for the movie with two upcoming shows,
    none for the movie whose show is past. *)
Example getShows_listing_state :
  ∃ st',
    getShows host listing_state = (Ret tt, st') ∧
    sent st' = [ROkShows [Some dune]].
Proof. eexists. split; [vm_compute; reflexivity|]. vm_compute. reflexivity. Qed.

(** A catalog that is down: three attempts for each of the two fetches, no
    Movie stored, no Show written, and the failure answered. *)
Example addShow_catalog_down :
  ∃ st',
    addShow dune_request host_down empty_state = (Ret tt, st') ∧
    sent st' = [RFail "Failed to fetch movie from TMDB: timeout of 15000ms exceeded"] ∧
    movies st' = ∅ ∧ shows st' = [] ∧
    count_get (details_url "438631") (trace st') = 3%nat ∧
    count_get (credits_url "438631") (trace st') = 3%nat.
Proof.
  eexists. split; [vm_compute; reflexivity|].
  repeat split; vm_compute; reflexivity.
Qed.

(** ** An invariant of the store *)

Lemma preserves_ret {A} I (a : A) : preserves I (ret a).
Proof. by intros env st. Qed.

Lemma preserves_throw {A} I e : preserves I (throw (A := A) e).
Proof. by intros env st. Qed.

Lemma preserves_lift {A} I (r : A + error) : preserves I (lift r).
Proof. destruct r; [apply preserves_ret|apply preserves_throw]. Qed.

Lemma preserves_bind {A B} I (m : M A) (k : A → M B) :
  preserves I m → (∀ a, preserves I (k a)) → preserves I (bind m k).
Proof.
  intros Hm Hk env st Hst. unfold bind. specialize (Hm env st Hst).
  destruct (m env st) as [[a|e|] st1]; simpl in *; [by apply Hk|done..].
Qed.

Lemma preserves_try_catch {A} I (body : M A) handler :
  preserves I body → (∀ e, preserves I (handler e)) →
  preserves I (try_catch body handler).
Proof.
  intros Hb Hh env st Hst. unfold try_catch. specialize (Hb env st Hst).
  destruct (body env st) as [[a|e|] st1]; simpl in *; [done|by apply Hh|done].
Qed.

Lemma preserves_foldM {A B} I (body : B → A → M B) acc l :
  (∀ acc x, preserves I (body acc x)) → preserves I (foldM body acc l).
Proof.
  intros Hbody. revert acc. induction l as [|x l IH]; intros acc; simpl.
  - apply preserves_ret.
  - apply preserves_bind; [apply Hbody|]. intros acc'. apply IH.
Qed.

Lemma preserves_Promise_all2 {A B} I (p1 : M A) (p2 : M B) :
  preserves I p1 → preserves I p2 → preserves I (Promise_all2 p1 p2).
Proof.
  intros H1 H2 env st Hst. unfold Promise_all2. specialize (H1 env st Hst).
  destruct (p1 env st) as [r1 st1]. specialize (H2 env st1 H1).
  destruct (p2 env st1) as [r2 st2]. simpl in *.
  destruct r1 as [?|?|], r2 as [?|?|]; try done. by destruct (_ <=? _).
Qed.

Section store_wf.

(** The steps of the handlers keep every Movie under its own identifier. *)

Lemma wf_emit ev : preserves store_wf (emit ev).
Proof. by intros env st. Qed.

Lemma wf_res_json r : preserves store_wf (res_json r).
Proof. by intros env st. Qed.

Lemma wf_db_call op : preserves store_wf (db_call op).
Proof.
  intros env st Hst. unfold db_call.
  by destruct (db_fault env (count_db (trace st))).
Qed.

Lemma wf_axios_get url : preserves store_wf (axios_get url).
Proof.
  intros env st Hst. unfold axios_get.
  by destruct (http env url (count_get url (trace st))).
Qed.

Lemma wf_retry_loop fuel url retries i :
  preserves store_wf (retry_loop fuel url retries i).
Proof.
  revert i. induction fuel as [|fuel IH]; intros i; simpl.
  - destruct (Qlt_bool (inject_Z i) retries); [by intros env st|apply preserves_ret].
  - destruct (Qlt_bool (inject_Z i) retries); [|apply preserves_ret].
    apply preserves_bind.
    + apply preserves_try_catch.
      * apply preserves_bind; [apply wf_axios_get|]. intros r. apply preserves_ret.
      * intros e. destruct (Qeq_bool (inject_Z i) (retries - 1)); [apply preserves_throw|].
        apply preserves_bind; [apply wf_emit|]. intros _.
        apply preserves_bind; [apply wf_emit|]. intros _. apply preserves_ret.
    + intros [r|]; [apply preserves_ret|apply IH].
Qed.

Lemma wf_fetchWithRetry url retries : preserves store_wf (fetchWithRetry url retries).
Proof.
  unfold fetchWithRetry. apply preserves_bind; [apply wf_emit|].
  intros _. apply wf_retry_loop.
Qed.

Lemma wf_Movie_findById id : preserves store_wf (Movie_findById id).
Proof.
  unfold Movie_findById. apply preserves_bind; [apply wf_db_call|]. intros _.
  by intros env st.
Qed.

Lemma wf_Movie_create doc : preserves store_wf (Movie_create doc).
Proof.
  unfold Movie_create. apply preserves_bind; [apply wf_db_call|]. intros _.
  intros env st Hst. unfold bind, get_movies.
  destruct (movies st !! _id doc); [done|]. by apply put_movie_store_wf.
Qed.

Lemma wf_Show_insertMany ds : preserves store_wf (Show_insertMany ds).
Proof.
  unfold Show_insertMany. apply preserves_bind; [apply wf_db_call|]. intros _.
  intros env st Hst. unfold bind, get_next_show_id.
  by destruct (cast_shows (next_show_id st) ds).
Qed.

Lemma wf_Show_find of_movie since : preserves store_wf (Show_find of_movie since).
Proof.
  unfold Show_find. apply preserves_bind; [apply wf_db_call|]. intros _.
  by intros env st.
Qed.

Lemma wf_populate_movie ss : preserves store_wf (populate_movie ss).
Proof.
  unfold populate_movie. apply preserves_bind; [apply wf_db_call|]. intros _.
  by intros env st.
Qed.

Lemma wf_movieDetails_of id d : preserves store_wf (movieDetails_of id d).
Proof.
  intros env st Hst. destruct (readable d) eqn:Hd.
  - by rewrite movieDetails_of_readable.
  - by destruct (movieDetails_of_unreadable id d env st Hd) as [msg ->].
Qed.

Lemma wf_addShow_sync id movie : preserves store_wf (addShow_sync id movie).
Proof.
  destruct movie as [m|]; [apply preserves_ret|]. unfold addShow_sync.
  apply preserves_try_catch.
  - apply preserves_bind.
    { apply preserves_Promise_all2; apply wf_fetchWithRetry. }
    intros responses.
    apply preserves_bind; [apply preserves_lift|]. intros movieApiData.
    apply preserves_bind; [apply preserves_lift|]. intros movieCreditsData.
    apply preserves_bind; [apply wf_movieDetails_of|]. intros movieDetails.
    apply preserves_bind; [apply wf_Movie_create|]. intros m.
    apply preserves_ret.
  - intros e. apply preserves_bind; [apply wf_emit|]. intros _.
    apply preserves_bind; [apply wf_res_json|]. intros _. apply preserves_ret.
Qed.

Lemma wf_addShow_createShows id showsInput price :
  preserves store_wf (addShow_createShows id showsInput price).
Proof.
  unfold addShow_createShows. apply preserves_bind.
  { intros env st Hst. by rewrite build_showsToCreate_pairs. }
  intros showsToCreate. apply preserves_bind; [|intros _; apply wf_res_json].
  destruct (0 <? length showsToCreate)%nat;
    [apply wf_Show_insertMany|apply preserves_ret].
Qed.

(** Each of the four handlers keeps every Movie under its own
    identifier: the stores the handlers lead to from the empty one all
    have this form. *)
Lemma handlers_keep_store_wf :
  preserves store_wf getNowPlayingMovies ∧
  (∀ body, preserves store_wf (addShow body)) ∧
  preserves store_wf getShows ∧
  (∀ id, preserves store_wf (getShow id)).
Proof.
  assert (∀ ev r, preserves store_wf (do! emit ev in res_json r)) as Hcatch.
  { intros ev r. apply preserves_bind; [apply wf_emit|]. intros _. apply wf_res_json. }
  split; [|split; [|split]].
  - unfold getNowPlayingMovies, getNowPlayingMovies_try.
    apply preserves_try_catch; [|intros e; apply Hcatch].
    apply preserves_bind; [apply wf_fetchWithRetry|]. intros response.
    apply preserves_bind; [apply preserves_lift|]. intros data.
    apply preserves_bind; [apply preserves_lift|]. intros movies.
    apply wf_res_json.
  - intros body. unfold addShow.
    apply preserves_try_catch; [|intros e; apply Hcatch].
    apply preserves_bind.
    + unfold addShow_resolve. apply preserves_bind; [apply wf_Movie_findById|].
      intros movie. apply wf_addShow_sync.
    + intros [m|]; [apply wf_addShow_createShows|apply preserves_ret].
  - unfold getShows, getShows_try. apply preserves_try_catch; [|intros e; apply Hcatch].
    apply preserves_bind; [by intros env st|]. intros since.
    apply preserves_bind; [apply wf_Show_find|]. intros found.
    apply preserves_bind; [apply wf_populate_movie|]. intros shows.
    apply wf_res_json.
  - intros id. unfold getShow, getShow_try.
    apply preserves_try_catch; [|intros e; apply Hcatch].
    apply preserves_bind; [by intros env st|]. intros since.
    apply preserves_bind; [apply wf_Show_find|]. intros shows.
    apply preserves_bind; [apply wf_Movie_findById|]. intros movie.
    apply preserves_bind; [|intros dateTime; apply wf_res_json].
    apply preserves_foldM. intros acc show. unfold group_show.
    apply preserves_bind; [apply preserves_lift|]. intros iso. apply preserves_ret.
Qed.

End store_wf.

Lemma empty_state_wf : store_wf empty_state.
Proof. intros k m. simpl. by rewrite lookup_empty. Qed.

(** * Further properties of the controller *)

(** ** What the steps of the handlers leave in place *)

Section respects.

Context (R : State → State → Prop) `{!PreOrder R}.
Hypothesis R_log : ∀ evs st, R st (log_events evs st).
Hypothesis R_sent : ∀ r st, R st (add_sent r st).

Lemma respects_ret {A} (a : A) : respects R (ret a).
Proof. by intros env st. Qed.

Lemma respects_throw {A} e : respects R (throw (A := A) e).
Proof. by intros env st. Qed.

Lemma respects_lift {A} (r : A + error) : respects R (lift r).
Proof. destruct r; [apply respects_ret|apply respects_throw]. Qed.

Lemma respects_bind {A B} (m : M A) (k : A → M B) :
  respects R m → (∀ a, respects R (k a)) → respects R (bind m k).
Proof.
  intros Hm Hk env st. unfold bind. specialize (Hm env st).
  destruct (m env st) as [[a|e|] st1]; simpl in *; [|done..].
  etrans; [exact Hm|apply Hk].
Qed.

Lemma respects_try_catch {A} (body : M A) handler :
  respects R body → (∀ e, respects R (handler e)) →
  respects R (try_catch body handler).
Proof.
  intros Hb Hh env st. unfold try_catch. specialize (Hb env st).
  destruct (body env st) as [[a|e|] st1]; simpl in *; [done| |done].
  etrans; [exact Hb|apply Hh].
Qed.

Lemma respects_foldM {A B} (body : B → A → M B) acc l :
  (∀ acc x, respects R (body acc x)) → respects R (foldM body acc l).
Proof.
  intros Hbody. revert acc. induction l as [|x l IH]; intros acc; simpl.
  - apply respects_ret.
  - apply respects_bind; [apply Hbody|]. intros acc'. apply IH.
Qed.

Lemma respects_Promise_all2 {A B} (p1 : M A) (p2 : M B) :
  respects R p1 → respects R p2 → respects R (Promise_all2 p1 p2).
Proof.
  intros H1 H2 env st. unfold Promise_all2. specialize (H1 env st).
  destruct (p1 env st) as [r1 st1]. specialize (H2 env st1).
  destruct (p2 env st1) as [r2 st2]. simpl in *.
  assert (R st st2) by (by etrans).
  destruct r1 as [?|?|], r2 as [?|?|]; try done. by destruct (_ <=? _).
Qed.

Lemma respects_emit ev : respects R (emit ev).
Proof. intros env st. apply R_log. Qed.

Lemma respects_res_json r : respects R (res_json r).
Proof. intros env st. apply R_sent. Qed.

Lemma respects_db_call op : respects R (db_call op).
Proof.
  intros env st. unfold db_call.
  destruct (db_fault env (count_db (trace st))); apply R_log.
Qed.

Lemma respects_axios_get url : respects R (axios_get url).
Proof.
  intros env st. unfold axios_get.
  destruct (http env url (count_get url (trace st))); apply R_log.
Qed.

Lemma respects_retry_loop fuel url retries i :
  respects R (retry_loop fuel url retries i).
Proof.
  revert i. induction fuel as [|fuel IH]; intros i; simpl.
  - destruct (Qlt_bool (inject_Z i) retries); [by intros env st|apply respects_ret].
  - destruct (Qlt_bool (inject_Z i) retries); [|apply respects_ret].
    apply respects_bind.
    + apply respects_try_catch.
      * apply respects_bind; [apply respects_axios_get|]. intros r.
        apply respects_ret.
      * intros e. destruct (Qeq_bool (inject_Z i) (retries - 1)); [apply respects_throw|].
        apply respects_bind; [apply respects_emit|]. intros _.
        apply respects_bind; [apply respects_emit|]. intros _.
        apply respects_ret.
    + intros [r|]; [apply respects_ret|apply IH].
Qed.

Lemma respects_fetchWithRetry url retries : respects R (fetchWithRetry url retries).
Proof.
  unfold fetchWithRetry. apply respects_bind; [apply respects_emit|].
  intros _. apply respects_retry_loop.
Qed.

Lemma respects_Movie_findById id : respects R (Movie_findById id).
Proof.
  unfold Movie_findById. apply respects_bind; [apply respects_db_call|].
  intros _. by intros env st.
Qed.

Lemma respects_Show_find of_movie since : respects R (Show_find of_movie since).
Proof.
  unfold Show_find. apply respects_bind; [apply respects_db_call|].
  intros _. by intros env st.
Qed.

Lemma respects_populate_movie ss : respects R (populate_movie ss).
Proof.
  unfold populate_movie. apply respects_bind; [apply respects_db_call|].
  intros _. by intros env st.
Qed.

Lemma respects_movieDetails_of id d : respects R (movieDetails_of id d).
Proof.
  intros env st. destruct (readable d) eqn:Hd.
  - by rewrite movieDetails_of_readable.
  - by destruct (movieDetails_of_unreadable id d env st Hd) as [msg ->].
Qed.

Lemma respects_catch ev r : respects R (do! emit ev in res_json r).
Proof.
  apply respects_bind; [apply respects_emit|]. intros _. apply respects_res_json.
Qed.

Lemma respects_getNowPlayingMovies : respects R getNowPlayingMovies.
Proof.
  unfold getNowPlayingMovies, getNowPlayingMovies_try.
  apply respects_try_catch; [|intros e; apply respects_catch].
  apply respects_bind; [apply respects_fetchWithRetry|]. intros response.
  apply respects_bind; [apply respects_lift|]. intros data.
  apply respects_bind; [apply respects_lift|]. intros movies.
  apply respects_res_json.
Qed.

Lemma respects_getShows : respects R getShows.
Proof.
  unfold getShows, getShows_try. apply respects_try_catch; [|intros e; apply respects_catch].
  apply respects_bind; [by intros env st|]. intros since.
  apply respects_bind; [apply respects_Show_find|]. intros found.
  apply respects_bind; [apply respects_populate_movie|]. intros shows.
  apply respects_res_json.
Qed.

Lemma respects_getShow id : respects R (getShow id).
Proof.
  unfold getShow, getShow_try. apply respects_try_catch; [|intros e; apply respects_catch].
  apply respects_bind; [by intros env st|]. intros since.
  apply respects_bind; [apply respects_Show_find|]. intros shows.
  apply respects_bind; [apply respects_Movie_findById|]. intros movie.
  apply respects_bind; [|intros dateTime; apply respects_res_json].
  apply respects_foldM. intros acc show. unfold group_show.
  apply respects_bind; [apply respects_lift|]. intros iso. apply respects_ret.
Qed.

(** [addShow] respects a relation that its two writes respect too. *)
Lemma respects_addShow body :
  (∀ doc st, movies st !! _id doc = None → R st (put_movie doc st)) →
  (∀ new st, R st (put_shows new st)) →
  respects R (addShow body).
Proof.
  intros R_movie R_shows. unfold addShow.
  apply respects_try_catch; [|intros e; apply respects_catch].
  apply respects_bind.
  - unfold addShow_resolve.
    apply respects_bind; [apply respects_Movie_findById|]. intros [m|].
    { apply respects_ret. }
    unfold addShow_sync. apply respects_try_catch.
    + apply respects_bind.
      { apply respects_Promise_all2; apply respects_fetchWithRetry. }
      intros responses.
      apply respects_bind; [apply respects_lift|]. intros movieApiData.
      apply respects_bind; [apply respects_lift|]. intros movieCreditsData.
      apply respects_bind; [apply respects_movieDetails_of|]. intros movieDetails.
      apply respects_bind; [|intros m; apply respects_ret].
      unfold Movie_create. apply respects_bind; [apply respects_db_call|].
      intros _ env st. unfold bind, get_movies.
      destruct (movies st !! _id movieDetails) eqn:E; [done|]. by apply R_movie.
    + intros e. apply respects_bind; [apply respects_emit|]. intros _.
      apply respects_bind; [apply respects_res_json|]. intros _.
      apply respects_ret.
  - intros [m|]; [|apply respects_ret]. unfold addShow_createShows.
    apply respects_bind.
    { intros env st. by rewrite build_showsToCreate_pairs. }
    intros showsToCreate.
    apply respects_bind; [|intros _; apply respects_res_json].
    destruct (0 <? length showsToCreate)%nat; [|apply respects_ret].
    unfold Show_insertMany. apply respects_bind; [apply respects_db_call|].
    intros _ env st. unfold bind, get_next_show_id.
    destruct (cast_shows (next_show_id st) showsToCreate); [apply R_shows|done].
Qed.

End respects.

Lemma same_collections_log evs st : same_collections st (log_events evs st).
Proof. done. Qed.

Lemma same_collections_sent r st : same_collections st (add_sent r st).
Proof. done. Qed.

Lemma extends_log evs st : extends st (log_events evs st).
Proof. repeat split; try done. simpl. by apply prefix_app_r. Qed.

Lemma extends_sent r st : extends st (add_sent r st).
Proof. repeat split; try done. simpl. by apply prefix_app_r. Qed.

Lemma extends_put_movie doc st :
  movies st !! _id doc = None → extends st (put_movie doc st).
Proof. intros H. repeat split; try done. simpl. by apply insert_subseteq. Qed.

Lemma extends_put_shows new st : extends st (put_shows new st).
Proof. repeat split; try done. simpl. by apply prefix_app_r. Qed.

Lemma handle_extends req : respects extends (handle req).
Proof.
  destruct req as [|body| |movieId]; simpl.
  - apply (respects_getNowPlayingMovies extends);
      [apply extends_log|apply extends_sent].
  - apply (respects_addShow extends);
      [apply extends_log|apply extends_sent|apply extends_put_movie
      |apply extends_put_shows].
  - apply (respects_getShows extends); [apply extends_log|apply extends_sent].
  - apply (respects_getShow extends); [apply extends_log|apply extends_sent].
Qed.

(** X1: the three handlers that only read (the now-playing list, the
    listing of movies with upcoming shows, the availability of a movie)
    never change the stored Movies nor the stored Shows, whatever the
    catalog and the store do and however the handler ends. *)
Theorem reading_handlers_leave_collections env st :
  same_collections st (snd (getNowPlayingMovies env st)) ∧
  same_collections st (snd (getShows env st)) ∧
  ∀ movieId, same_collections st (snd (getShow movieId env st)).
Proof.
  split; [|split; [|intros movieId]].
  - apply (respects_getNowPlayingMovies same_collections);
      [apply same_collections_log|apply same_collections_sent].
  - apply (respects_getShows same_collections);
      [apply same_collections_log|apply same_collections_sent].
  - apply (respects_getShow same_collections);
      [apply same_collections_log|apply same_collections_sent].
Qed.

(** X2: no handler ever removes or changes what is stored or what has been
    answered: after any of the four handlers, whatever the catalog and the
    store do, every Movie stored before is still stored under its key
    unchanged ([addShow] creates a Movie only under a key that is free),
    the Shows stored before are still the first ones of the collection in
    the same order, and the answers given before are still there. *)
Theorem handlers_only_add env st req :
  let st' := snd (handle req env st) in
  extends st st' ∧
  (∀ k m, movies st !! k = Some m → movies st' !! k = Some m) ∧
  (∀ i s, shows st !! i = Some s → shows st' !! i = Some s) ∧
  (∀ i r, sent st !! i = Some r → sent st' !! i = Some r).
Proof.
  pose proof (handle_extends req env st) as H.
  simpl. split; [exact H|]. destruct H as (Hm & Hs & Ha & _).
  split; [|split].
  - intros k m Hk. by eapply lookup_weaken.
  - intros i s Hi. by eapply prefix_lookup_Some.
  - intros i r Hi. by eapply prefix_lookup_Some.
Qed.

(** ** RetryingFetcher, for any number of retries *)

Lemma sleeps_of_fetch_events url n :
  sleeps_of (fetch_events url n)
  = map (λ j, RETRY_DELAY * 2 ^ Z.of_nat j) (seq 0 n).
Proof.
  unfold sleeps_of, fetch_events. cbn [omap list_omap].
  change (omap ?f (?l ++ ?l')) with (sleeps_of (l ++ l')).
  unfold sleeps_of. rewrite omap_app. cbn [omap list_omap].
  rewrite app_nil_r. apply sleeps_failed_attempts.
Qed.





Lemma sleeps_of_failed_attempts url n :
  sleeps_of (EvFetch url :: failed_attempts url 0 n)
  = map (λ j, 1000 * 2 ^ Z.of_nat j) (seq 0 n).
Proof.
  unfold sleeps_of. cbn [omap list_omap]. apply sleeps_failed_attempts.
Qed.

(** X4: what [fetchWithRetry] does when every attempt fails, for a number
    of retries above 0 (and up to 1000, where every delay is a finite
    double).  It makes as many attempts as there are whole numbers below
    [retries].  When [retries] is a whole number, it sleeps after each
    attempt but the last (1000, 2000, 4000, ... ms) and throws the error of
    the last attempt as it is.  When [retries] is not a whole number, no
    attempt meets [i === retries - 1]: it sleeps after every attempt and
    returns [undefined], neither a response nor an error. *)
Theorem fetchWithRetry_retries_attempts url retries env st :
  (0 < retries)%Q → (retries <= 1000)%Q →
  (∀ k, ∃ e, http env url k = inr e) →
  let attempts := Z.to_nat (Qceiling retries) in
  ∃ o st' new,
    fetchWithRetry url retries env st = (o, st') ∧
    trace st' = trace st ++ new ∧
    count_get url new = attempts ∧ (1 ≤ attempts)%nat ∧
    same_collections st st' ∧ sent st' = sent st ∧
    ((retries == inject_Z (Qceiling retries))%Q →
       (∃ e, o = Throw e ∧
             http env url (count_get url (trace st) + (attempts - 1))%nat = inr e) ∧
       sleeps_of new = map (λ j, 1000 * 2 ^ Z.of_nat j) (seq 0 (attempts - 1))) ∧
    (¬ (retries == inject_Z (Qceiling retries))%Q →
       o = Ret None ∧
       sleeps_of new = map (λ j, 1000 * 2 ^ Z.of_nat j) (seq 0 attempts)).
Proof.
  intros Hpos _ Hfail attempts.
  assert (0 < Qceiling retries) as Hc by (by apply (below_ceiling 0)).
  assert (1 ≤ attempts)%nat as Hattempts by (unfold attempts; lia).
  destruct (Qeq_dec retries (inject_Z (Qceiling retries))) as [Hwhole|Hfrac].
  - destruct (Hfail (count_get url (trace st) + (attempts - 1))%nat) as [e He].
    exists (Throw e), (log_events (fetch_events url (attempts - 1)) st),
      (fetch_events url (attempts - 1)).
    split.
    { apply fetchWithRetry_exhausts; [| |done].
      - rewrite Hwhole at 1. f_equiv. unfold attempts. lia.
      - intros j _. apply Hfail. }
    split; [done|]. split; [rewrite count_get_fetch_events; lia|].
    split; [done|]. split; [done|]. split; [done|]. split.
    + intros _. split; [by exists e|apply sleeps_of_fetch_events].
    + intros Hn. by destruct Hn.
  - exists (Ret None),
      (log_events (EvFetch url :: failed_attempts url 0 attempts) st),
      (EvFetch url :: failed_attempts url 0 attempts).
    split.
    { apply fetchWithRetry_falls_off; [done..|]. intros j _. apply Hfail. }
    split; [done|]. split.
    { simpl. apply count_get_failed_attempts. }
    split; [done|]. split; [done|]. split; [done|]. split.
    + intros Hw. by destruct Hfrac.
    + intros _. split; [done|apply sleeps_of_failed_attempts].
Qed.

Lemma fetchWithRetry_retries_attempts_witness :
  (∃ e st' new,
     fetchWithRetry now_playing_url 5 host_down empty_state = (Throw e, st') ∧
     trace st' = new ∧ count_get now_playing_url new = 5%nat ∧
     http host_down now_playing_url 4%nat = inr e ∧
     sleeps_of new = [1000; 2000; 4000; 8000]) ∧
  (∃ st' new,
     fetchWithRetry now_playing_url (5 # 2) host_down empty_state = (Ret None, st') ∧
     trace st' = new ∧ count_get now_playing_url new = 3%nat ∧
     sleeps_of new = [1000; 2000; 4000]).
Proof.
  assert (∀ k, ∃ e, http host_down now_playing_url k = inr e) as Hdown.
  { intros k. exists timed_out. reflexivity. }
  split.
  - destruct (fetchWithRetry_retries_attempts now_playing_url 5 host_down empty_state)
      as (o & st' & new & E & Htr & Hcount & _ & _ & _ & Hwhole & _).
    + unfold Qlt. simpl. lia.
    + unfold Qle. simpl. lia.
    + exact Hdown.
    + destruct Hwhole as [(e & -> & He) Hsleeps]; [reflexivity|].
      exists e, st', new. split; [exact E|]. split; [exact Htr|].
      split; [exact Hcount|]. split; [exact He|exact Hsleeps].
  - destruct (fetchWithRetry_retries_attempts now_playing_url (5 # 2) host_down
                empty_state)
      as (o & st' & new & E & Htr & Hcount & _ & _ & _ & _ & Hfrac).
    + unfold Qlt. simpl. lia.
    + unfold Qle. simpl. lia.
    + exact Hdown.
    + destruct Hfrac as [-> Hsleeps].
      { unfold Qeq. simpl. lia. }
      exists st', new. split; [exact E|]. split; [exact Htr|].
      split; [exact Hcount|exact Hsleeps].
Defined.

(** X5: for a number of retries above 0 (and up to 2^53, where the loop
    counter is exact) and whatever the catalog answers, a call of
    [fetchWithRetry] makes at least one GET of its URL, at most as many as
    there are whole numbers below [retries], and none of any other URL; it
    changes neither the collections nor the answers.  It ends with a
    response or with a thrown error, or, only when [retries] is not a whole
    number and all its attempts have failed, with [undefined]. *)
Theorem fetchWithRetry_bounded url retries env st :
  (0 < retries)%Q → (retries <= inject_Z (2 ^ 53))%Q →
  ∃ o st',
    fetchWithRetry url retries env st = (o, st') ∧
    ((∃ r, o = Ret (Some r)) ∨ (∃ e, o = Throw e) ∨
     (o = Ret None ∧ ¬ (retries == inject_Z (Qceiling retries))%Q ∧
      count_get url (trace st')
      = (count_get url (trace st) + Z.to_nat (Qceiling retries))%nat)) ∧
    (count_get url (trace st) < count_get url (trace st')
     ≤ count_get url (trace st) + Z.to_nat (Qceiling retries))%nat ∧
    (∀ u, u ≠ url → count_get u (trace st') = count_get u (trace st)) ∧
    same_collections st st' ∧ sent st' = sent st.
Proof.
  intros Hpos _.
  assert (0 < Qceiling retries) as Hc by (by apply (below_ceiling 0)).
  set (N := Z.to_nat (Qceiling retries)).
  assert (∀ n, (n < N)%nat → ∀ o,
            fetchWithRetry url retries env st
            = (o, log_events (fetch_events url n) st) →
            (∃ r, o = Ret (Some r)) ∨ (∃ e, o = Throw e) →
            ∃ o st',
              fetchWithRetry url retries env st = (o, st') ∧
              ((∃ r, o = Ret (Some r)) ∨ (∃ e, o = Throw e) ∨
               (o = Ret None ∧ ¬ (retries == inject_Z (Qceiling retries))%Q ∧
                count_get url (trace st') = (count_get url (trace st) + N)%nat)) ∧
              (count_get url (trace st) < count_get url (trace st')
               ≤ count_get url (trace st) + N)%nat ∧
              (∀ u, u ≠ url → count_get u (trace st') = count_get u (trace st)) ∧
              same_collections st st' ∧ sent st' = sent st) as Hends.
  { intros n Hn o E Ho. exists o, (log_events (fetch_events url n) st).
    split; [exact E|]. split; [destruct Ho; eauto|]. split.
    { rewrite trace_log_events, count_get_app, count_get_fetch_events. lia. }
    split; [|done]. intros u Hu.
    rewrite trace_log_events, count_get_app, count_get_fetch_events_other by done.
    lia. }
  destruct (first_answer_or_all_fail env url (count_get url (trace st)) N)
    as [(n & r & Hn & Hf & Hr)|Hall].
  - apply (Hends n Hn (Ret (Some r))); [|eauto].
    apply fetchWithRetry_succeeds; [|done..]. apply below_ceiling. lia.
  - destruct (Qeq_dec retries (inject_Z (Qceiling retries))) as [Hwhole|Hfrac].
    + destruct (Hall (N - 1)%nat) as [e He]; [lia|].
      apply (Hends (N - 1)%nat ltac:(lia) (Throw e)); [|eauto].
      apply fetchWithRetry_exhausts; [| |done].
      * rewrite Hwhole at 1. f_equiv. lia.
      * intros j Hj. apply Hall. lia.
    + exists (Ret None), (log_events (EvFetch url :: failed_attempts url 0 N) st).
      split; [by apply fetchWithRetry_falls_off|].
      assert (∀ u, count_get u (trace (log_events
                                          (EvFetch url :: failed_attempts url 0 N) st))
                   = (count_get u (trace st) + count_get u (failed_attempts url 0 N))%nat)
        as Hcount.
      { intros u. by rewrite trace_log_events, count_get_app. }
      split; [|split; [|split; [|done]]].
      * right. right. split; [done|]. split; [done|].
        by rewrite Hcount, count_get_failed_attempts.
      * rewrite Hcount, count_get_failed_attempts. lia.
      * intros u Hu. rewrite Hcount, count_get_failed_attempts_other by done. lia.
Qed.

Lemma fetchWithRetry_bounded_witness :
  ∃ o st',
    fetchWithRetry now_playing_url (5 # 2) host empty_state = (o, st') ∧
    ((∃ r, o = Ret (Some r)) ∨ (∃ e, o = Throw e) ∨
     (o = Ret None ∧ ¬ (5 # 2 == inject_Z (Qceiling (5 # 2)))%Q ∧
      count_get now_playing_url (trace st')
      = (count_get now_playing_url (trace empty_state)
         + Z.to_nat (Qceiling (5 # 2)))%nat)) ∧
    (count_get now_playing_url (trace empty_state)
     < count_get now_playing_url (trace st')
     ≤ count_get now_playing_url (trace empty_state) + Z.to_nat (Qceiling (5 # 2)))%nat ∧
    (∀ u, u ≠ now_playing_url →
          count_get u (trace st') = count_get u (trace empty_state)) ∧
    same_collections empty_state st' ∧ sent st' = sent empty_state.
Proof.
  apply (fetchWithRetry_bounded now_playing_url (5 # 2) host empty_state).
  - unfold Qlt. simpl. lia.
  - unfold Qle. simpl. lia.
Defined.

(** ** The now-playing list *)

Lemma prop_readable v k : readable v = true → prop v k = inl (field v k).
Proof. intros H. unfold field. by destruct v. Qed.

(** X6: when the catalog answers the now-playing request within the three
    attempts with a body that can be read, [getNowPlayingMovies] answers
    [success: true] with the [results] of that body as they are (and with
    [undefined] for them when the body has none); it makes no GET after the
    one that was answered. *)
Theorem getNowPlayingMovies_answers_results env st n r :
  answers env now_playing_url (count_get now_playing_url (trace st)) n r →
  readable (data r) = true →
  ∃ st',
    getNowPlayingMovies env st = (Ret tt, st') ∧
    sent st' = sent st ++ [ROkMovies (field (data r) "results")] ∧
    count_get now_playing_url (trace st')
    = (count_get now_playing_url (trace st) + n + 1)%nat ∧
    (∀ fields, data r = JObj fields → field (data r) "results" = assoc "results" fields) ∧
    (∀ fields, data r = JObj fields → assoc "results" fields = JUndefined →
               sent st' = sent st ++ [ROkMovies JUndefined]).
Proof.
  intros (Hn & Hf & Hr) Hread. eexists. split.
  { unfold getNowPlayingMovies, getNowPlayingMovies_try. apply try_catch_ret.
    erewrite bind_ret; [|by apply (fetchWithRetry_succeeds n); [apply within_default; lia|..]].
    erewrite bind_ret; [|reflexivity].
    erewrite bind_ret; [|simpl; by rewrite prop_readable].
    reflexivity. }
  split; [done|]. split.
  { simpl. rewrite count_get_app, count_get_fetch_events. lia. }
  split.
  - by intros fields ->.
  - intros fields -> Hnone. simpl. unfold field. simpl. by rewrite Hnone.
Qed.

Lemma getNowPlayingMovies_answers_results_witness :
  ∃ st',
    getNowPlayingMovies host empty_state = (Ret tt, st') ∧
    sent st' = [ROkMovies (JArr [JObj [("id", JNum 438631)]])] ∧
    count_get now_playing_url (trace st') = 1%nat.
Proof.
  destruct (getNowPlayingMovies_answers_results host empty_state 0%nat
              {| status := 200;
                 data := JObj [("results", JArr [JObj [("id", JNum 438631)]])] |})
    as (st' & E & Hs & Hc & _).
  - split; [lia|]. split; [intros j Hj; lia|reflexivity].
  - reflexivity.
  - exists st'. split; [exact E|]. split; [exact Hs|exact Hc].
Defined.

(** X7: when the three attempts of the now-playing request all fail,
    [getNowPlayingMovies] answers [success: false] with the message of the
    third error, after logging it; it has made exactly three GETs. *)
Theorem getNowPlayingMovies_catalog_down env st :
  (∀ k, ∃ e, http env now_playing_url k = inr e) →
  ∃ e st',
    getNowPlayingMovies env st = (Ret tt, st') ∧
    http env now_playing_url (count_get now_playing_url (trace st) + 2)%nat = inr e ∧
    sent st' = sent st ++ [RFail (message e)] ∧
    trace st' = trace st ++ fetch_events now_playing_url 2
                  ++ [EvLog ("getNowPlayingMovies Error: " +:+ message e)] ∧
    count_get now_playing_url (trace st')
    = (count_get now_playing_url (trace st) + 3)%nat.
Proof.
  intros Hfail.
  destruct (Hfail (count_get now_playing_url (trace st) + 2)%nat) as [e He].
  exists e. eexists. split.
  { unfold getNowPlayingMovies, getNowPlayingMovies_try. erewrite try_catch_throw; cycle 1.
    { erewrite bind_throw; [reflexivity|].
      apply (fetchWithRetry_exhausts 2); [done| |done]. intros j _. apply Hfail. }
    reflexivity. }
  split; [done|]. split; [done|]. split.
  { simpl. by rewrite <- app_assoc. }
  simpl. rewrite <- app_assoc, !count_get_app, count_get_fetch_events. simpl. lia.
Qed.

Lemma getNowPlayingMovies_catalog_down_witness :
  (∀ k, ∃ e, http host_down now_playing_url k = inr e) ∧
  ∃ e st',
    getNowPlayingMovies host_down empty_state = (Ret tt, st') ∧
    http host_down now_playing_url
      (count_get now_playing_url (trace empty_state) + 2)%nat = inr e ∧
    sent st' = sent empty_state ++ [RFail (message e)] ∧
    trace st' = trace empty_state ++ fetch_events now_playing_url 2
                  ++ [EvLog ("getNowPlayingMovies Error: " +:+ message e)] ∧
    count_get now_playing_url (trace st')
    = (count_get now_playing_url (trace empty_state) + 3)%nat.
Proof.
  assert (∀ k, ∃ e, http host_down now_playing_url k = inr e) as H.
  { intros k. exists timed_out. reflexivity. }
  split; [exact H|].
  exact (getNowPlayingMovies_catalog_down host_down empty_state H).
Defined.

(** X8: when the catalog answers the now-playing request with a body that
    is [null] (or with none), reading [results] of it throws a TypeError,
    which the handler catches: it answers [success: false] with the message
    of that TypeError, not a list. *)
Theorem getNowPlayingMovies_unreadable_body env st n r :
  answers env now_playing_url (count_get now_playing_url (trace st)) n r →
  readable (data r) = false →
  ∃ st',
    getNowPlayingMovies env st = (Ret tt, st') ∧
    sent st'
    = sent st ++
      [RFail ("Cannot read properties of "
              +:+ (match data r with JNull => "null" | _ => "undefined" end)
              +:+ " (reading 'results')")].
Proof.
  intros (Hn & Hf & Hr) Hread.
  assert (fetchWithRetry now_playing_url MAX_RETRIES env st
          = (Ret (Some r), log_events (fetch_events now_playing_url n) st)) as E.
  { by apply (fetchWithRetry_succeeds n); [apply within_default; lia|..]. }
  destruct r as [code body]. simpl in *.
  destruct body; try done.
  - eexists. split.
    + unfold getNowPlayingMovies, getNowPlayingMovies_try. erewrite try_catch_throw; cycle 1.
      { erewrite bind_ret; [|exact E]. erewrite bind_ret; [|reflexivity].
        erewrite bind_throw; reflexivity. }
      reflexivity.
    + reflexivity.
  - eexists. split.
    + unfold getNowPlayingMovies, getNowPlayingMovies_try. erewrite try_catch_throw; cycle 1.
      { erewrite bind_ret; [|exact E]. erewrite bind_ret; [|reflexivity].
        erewrite bind_throw; reflexivity. }
      reflexivity.
    + reflexivity.
Qed.

Lemma getNowPlayingMovies_unreadable_body_witness :
  let env := {| http := λ url k, inl {| status := 200; data := JNull |};
                latency := λ _ _, 120;
                db_fault := λ _, None; now := 0; Date_parse := λ _, None;
     cast_id := λ _, inr refused; cast_price := λ _, inr refused |} in
  ∃ st',
    getNowPlayingMovies env empty_state = (Ret tt, st') ∧
    sent st' = [RFail "Cannot read properties of null (reading 'results')"].
Proof.
  intros env.
  apply (getNowPlayingMovies_unreadable_body env empty_state 0%nat
           {| status := 200; data := JNull |}).
  - split; [lia|]. split; [intros j Hj; lia|reflexivity].
  - reflexivity.
Defined.

(** ** The add-show request, from end to end *)

(** Once the resolution step has ended, [addShow] is what is left of it. *)
Lemma addShow_after_resolve body env st f st1 :
  addShow_resolve (movieId body) env st = (Ret f, st1) →
  addShow body env st
  = try_catch
      (match f with
       | Return => ret tt
       | Continue _ =>
           addShow_createShows (movieId body) (showsInput body) (body_showPrice body)
       end)
      (λ error,
         do! console_log ("addShow Error: " +:+ message error) in
         res_json (RFail (message error))) env st1.
Proof. intros H. unfold addShow, try_catch, bind. by rewrite H. Qed.

(** The show-creation step when the schedule has slots, their dates are
    valid and the store answers. *)
Lemma addShow_createShows_writes id showsInput price env st :
  schedule_pairs showsInput ≠ [] →
  Forall (λ p, is_Some (Date_parse env (p.1 +:+ "T" +:+ p.2)))
         (schedule_pairs showsInput) →
  db_fault env (count_db (trace st)) = None →
  ∃ new,
    addShow_createShows id showsInput price env st
    = (Ret tt,
       add_sent (ROkMessage "Show Added successfully.")
         (put_shows new
            (log_events [EvDb (OpInsertShows (length (schedule_pairs showsInput)))] st))) ∧
    Forall2 (λ s p, Date_parse env (p.1 +:+ "T" +:+ p.2) = Some (showDateTime s)
                    ∧ movie s = id ∧ showPrice s = price ∧ occupiedSeats s = ∅)
            new (schedule_pairs showsInput) ∧
    map show_id new = seq (next_show_id st) (length (schedule_pairs showsInput)).
Proof.
  intros Hne Hdates Hdb.
  set (pairs := schedule_pairs showsInput) in *.
  set (drafts := map (λ p : string * string,
                        {| d_movie := id;
                           d_showDateTime := Date_parse env (p.1 +:+ "T" +:+ p.2);
                           d_showPrice := price; d_occupiedSeats := ∅ |}) pairs).
  destruct (Show_insertMany_ok drafts env st) as (new & E & HF & Hid).
  { unfold drafts. rewrite Forall_map. exact Hdates. }
  { exact Hdb. }
  unfold drafts in E, HF, Hid. rewrite length_map in E, Hid.
  exists new. split; [|split; [|exact Hid]].
  - unfold addShow_createShows.
    erewrite bind_ret; [|apply build_showsToCreate_pairs]. fold pairs.
    assert ((0 <? length (map (λ p : string * string,
                                 {| d_movie := id;
                                    d_showDateTime := Date_parse env (p.1 +:+ "T" +:+ p.2);
                                    d_showPrice := price; d_occupiedSeats := ∅ |})
                              pairs))%nat = true) as ->.
    { apply Nat.ltb_lt. rewrite length_map. destruct pairs; [done|simpl; lia]. }
    erewrite bind_ret; [|exact E]. reflexivity.
  - rewrite Forall2_fmap_r in HF.
    eapply Forall2_impl; [exact HF|]. simpl. naive_solver.
Qed.

(** The show-creation step when the store fails the insert. *)
Lemma addShow_createShows_fault id showsInput price env st e :
  schedule_pairs showsInput ≠ [] →
  db_fault env (count_db (trace st)) = Some e →
  addShow_createShows id showsInput price env st
  = (Throw e,
     log_events [EvDb (OpInsertShows (length (schedule_pairs showsInput)))] st).
Proof.
  intros Hne Hdb. unfold addShow_createShows.
  erewrite bind_ret; [|apply build_showsToCreate_pairs].
  set (pairs := schedule_pairs showsInput) in *.
  assert ((0 <? length (map (λ p : string * string,
                               {| d_movie := id;
                                  d_showDateTime := Date_parse env (p.1 +:+ "T" +:+ p.2);
                                  d_showPrice := price; d_occupiedSeats := ∅ |})
                            pairs))%nat = true) as ->.
  { apply Nat.ltb_lt. rewrite length_map. destruct pairs; [done|simpl; lia]. }
  erewrite bind_throw; [reflexivity|].
  unfold Show_insertMany. erewrite bind_throw; [|by apply db_call_fault].
  by rewrite length_map.
Qed.

(** X9: an add-show request for a movie that is stored, with a schedule
    of valid dates and a store that answers: the handler makes no request
    to the catalog (its only effects are the lookup and one insert),
    appends exactly one Show for each slot of the schedule, in order and
    with fresh consecutive identifiers, leaves the Movies as they are and
    answers success. *)
Theorem addShow_stored_movie env st body m :
  movies st !! movieId body = Some m →
  db_fault env (count_db (trace st)) = None →
  db_fault env (S (count_db (trace st))) = None →
  schedule_pairs (showsInput body) ≠ [] →
  Forall (λ p, is_Some (Date_parse env (p.1 +:+ "T" +:+ p.2)))
         (schedule_pairs (showsInput body)) →
  ∃ new st',
    addShow body env st = (Ret tt, st') ∧
    sent st' = sent st ++ [ROkMessage "Show Added successfully."] ∧
    movies st' = movies st ∧
    shows st' = shows st ++ new ∧
    Forall2 (λ s p, Date_parse env (p.1 +:+ "T" +:+ p.2) = Some (showDateTime s)
                    ∧ movie s = movieId body ∧ showPrice s = body_showPrice body
                    ∧ occupiedSeats s = ∅)
            new (schedule_pairs (showsInput body)) ∧
    map show_id new
    = seq (next_show_id st) (length (schedule_pairs (showsInput body))) ∧
    trace st' = trace st ++
      [EvDb (OpFindMovieById (movieId body));
       EvDb (OpInsertShows (length (schedule_pairs (showsInput body))))].
Proof.
  intros Hm Hdb Hdb1 Hne Hdates.
  set (st1 := log_events [EvDb (OpFindMovieById (movieId body))] st).
  destruct (addShow_createShows_writes (movieId body) (showsInput body)
              (body_showPrice body) env st1 Hne Hdates) as (new & E & HF & Hid).
  { unfold st1. rewrite trace_log_events, count_db_app. simpl.
    by rewrite Nat.add_1_r. }
  exists new. eexists. split.
  { erewrite addShow_after_resolve; [|by apply addShow_resolve_cached].
    apply try_catch_ret. exact E. }
  split; [done|]. split; [done|]. split; [done|]. split; [exact HF|].
  split; [exact Hid|]. simpl. by rewrite <- app_assoc.
Qed.

Lemma addShow_stored_movie_witness :
  let st := snd (addShow dune_request host empty_state) in
  ∃ new st',
    addShow evening_first host st = (Ret tt, st') ∧
    sent st' = sent st ++ [ROkMessage "Show Added successfully."] ∧
    movies st' = movies st ∧
    shows st' = shows st ++ new ∧
    map show_id new = [3; 4]%nat ∧
    count_get (details_url "438631") (trace st')
    = count_get (details_url "438631") (trace st).
Proof.
  intros st.
  destruct (addShow_stored_movie host st evening_first dune)
    as (new & st' & E & Hs & Hm & Hsh & _ & Hid & Htr).
  - vm_compute; reflexivity.
  - vm_compute; reflexivity.
  - vm_compute; reflexivity.
  - discriminate.
  - repeat constructor; vm_compute; eauto.
  - exists new, st'. split; [exact E|]. split; [exact Hs|]. split; [exact Hm|].
    split; [exact Hsh|]. split; [exact Hid|].
    rewrite Htr, count_get_app. simpl. lia.
Defined.

(** The answer of [addShow] when the synchronisation throws [e]. *)
Lemma addShow_sync_fails body env st e st2 :
  movies st !! movieId body = None →
  db_fault env (count_db (trace st)) = None →
  addShow_sync (movieId body) None env
    (log_events [EvDb (OpFindMovieById (movieId body))] st)
  = (Ret Return, sync_failed e st2) →
  addShow body env st = (Ret tt, sync_failed e st2).
Proof.
  intros Hnone Hdb E.
  erewrite addShow_after_resolve; cycle 1.
  { rewrite addShow_resolve_lookup by done. rewrite Hnone. exact E. }
  reflexivity.
Qed.

(** X10: an add-show request for a movie that is not stored, when the
    three attempts for the details all fail: the handler answers
    [success: false] with [Failed to fetch movie from TMDB: ] and the
    message of the error that rejected the [Promise.all] first; no Movie is
    stored and no Show is written, though the schedule may have slots, and
    the store is called once, for the lookup.  The error is the third one
    of the details request when the credits request is answered, or fails
    three times as well but is rejected later; it is the third one of the
    credits request when that request is rejected earlier. *)
Theorem addShow_details_unavailable env st body :
  movies st !! movieId body = None →
  db_fault env (count_db (trace st)) = None →
  (∀ k, ∃ e, http env (details_url (movieId body)) k = inr e) →
  let details := details_url (movieId body) in
  let credits := credits_url (movieId body) in
  let kd := count_get details (trace st) in
  let kc := count_get credits (trace st) in
  ∃ e st',
    addShow body env st = (Ret tt, st') ∧
    sent st' = sent st ++ [RFail ("Failed to fetch movie from TMDB: " +:+ message e)] ∧
    same_collections st st' ∧
    count_db (trace st') = S (count_db (trace st)) ∧
    ((∃ n r, answers env credits kc n r) → http env details (kd + 2)%nat = inr e) ∧
    (fails_thrice env credits kc →
       (rejects_after env details kd < rejects_after env credits kc →
        http env details (kd + 2)%nat = inr e) ∧
       (rejects_after env credits kc < rejects_after env details kd →
        http env credits (kc + 2)%nat = inr e)).
Proof.
  intros Hnone Hdb Hfail details credits kd kc.
  set (id := movieId body) in *.
  set (st0 := log_events [EvDb (OpFindMovieById id)] st).
  assert (∀ u, count_get u (trace st0) = count_get u (trace st)) as Hk.
  { intros u. unfold st0. rewrite trace_log_events, count_get_app. simpl. lia. }
  destruct (Hfail (kd + 2)%nat) as [e1 He1].
  set (st1 := log_events (fetch_events details 2) st0).
  assert (fetchWithRetry details MAX_RETRIES env st0 = (Throw e1, st1)) as E1.
  { apply (fetchWithRetry_exhausts 2); [done| |by rewrite Hk].
    intros j _. apply Hfail. }
  assert (count_get credits (trace st1) = kc) as Hkc.
  { unfold st1. rewrite trace_log_events, count_get_app.
    rewrite (count_get_fetch_events_other _ _ _ (details_credits_neq id)).
    by rewrite Nat.add_0_r, Hk. }
  assert (∀ e st2, Promise_all2 (fetchWithRetry details MAX_RETRIES)
                     (fetchWithRetry credits MAX_RETRIES) env st0 = (Throw e, st2) →
            same_collections st st2 → sent st2 = sent st →
            count_db (trace st2) = S (count_db (trace st)) →
            addShow body env st = (Ret tt, sync_failed e st2) ∧
            sent (sync_failed e st2)
            = sent st ++ [RFail ("Failed to fetch movie from TMDB: " +:+ message e)] ∧
            same_collections st (sync_failed e st2) ∧
            count_db (trace (sync_failed e st2)) = S (count_db (trace st))) as Hanswer.
  { intros e st2 Eall Hsame Hsent Hcount. split.
    { apply addShow_sync_fails; [done..|]. fold id. fold st0.
      unfold addShow_sync. apply addShow_sync_throw.
      erewrite bind_throw; [reflexivity|exact Eall]. }
    split; [simpl; by rewrite Hsent|]. split; [exact Hsame|].
    change (trace (sync_failed e st2))
      with (trace st2 ++ [EvLog ("TMDB API Error: " +:+ message e)]).
    rewrite count_db_app, Hcount. simpl. lia. }
  destruct (fetchWithRetry_default_cases credits env st1)
    as [(n2 & r2 & Hans & E2)|(Hthrice & e2 & He2 & E2)]; rewrite Hkc in *.
  - (* the credits are answered *)
    destruct (Hanswer e1 (log_events (fetch_events credits n2) st1))
      as (Ha & Hs & Hc & Hd); [|done|done| |].
    { eapply Promise_all2_throw_l; [exact E1|exact E2]. }
    { unfold st1, st0.
      rewrite !trace_log_events, !count_db_app, !count_db_fetch_events.
      simpl. lia. }
    exists e1. eexists. split; [exact Ha|]. split; [exact Hs|].
    split; [exact Hc|]. split; [exact Hd|]. split; [done|].
    intros Hthrice. exfalso. destruct Hans as (Hn2 & _ & Hr2).
    destruct (Hthrice n2) as [e' He']; [lia|]. congruence.
  - (* the credits fail as well *)
    pose proof (Promise_all2_throw_both _ _ _ _ _ _ _ _ E1 E2) as Eall.
    unfold st1 in Eall at 1 2. rewrite !new_events_log_events in Eall.
    rewrite !elapsed_fetch_events_2, Hk in Eall. fold st1 in Eall.
    rewrite Hkc in Eall. fold kd in Eall.
    destruct (Hanswer _ _ Eall) as (Ha & Hs & Hc & Hd); [done|done| |].
    { unfold st1, st0.
      rewrite !trace_log_events, !count_db_app, !count_db_fetch_events.
      simpl. lia. }
    eexists. eexists. split; [exact Ha|]. split; [exact Hs|].
    split; [exact Hc|]. split; [exact Hd|]. split.
    + intros (n & r & Hn & _ & Hr). exfalso.
      destruct (Hthrice n) as [e' He']; [lia|]. congruence.
    + intros _. split; intros Hlt.
      * by rewrite (proj2 (Z.leb_le _ _)) by lia.
      * by rewrite (proj2 (Z.leb_gt _ _)) by lia.
Qed.

Lemma addShow_details_unavailable_witness :
  let env := {| http := λ url k, if String.eqb url (details_url "438631")
                                 then inr timed_out else inr not_found;
                latency := λ url k, if String.eqb url (details_url "438631")
                                    then TMDB_TIMEOUT else 120;
                db_fault := λ _, None; now := april_2024; Date_parse := parse_utc;
     cast_id := λ _, inr refused; cast_price := λ _, inr refused |} in
  rejects_after env (credits_url "438631") 0 = 3360 ∧
  rejects_after env (details_url "438631") 0 = 48000 ∧
  ∃ st',
    addShow dune_request env empty_state = (Ret tt, st') ∧
    sent st' = [RFail ("Failed to fetch movie from TMDB: "
                       +:+ "Request failed with status code 404")] ∧
    same_collections empty_state st'.
Proof.
  intros env. split; [reflexivity|]. split; [reflexivity|].
  destruct (addShow_details_unavailable env empty_state dune_request)
    as (e & st' & E & Hs & Hc & _ & _ & Hboth).
  - reflexivity.
  - reflexivity.
  - intros k. exists timed_out. reflexivity.
  - destruct Hboth as [_ Hcredits].
    + intros j _. exists not_found. reflexivity.
    + exists st'. split; [exact E|]. split; [|exact Hc].
      pose proof (Hcredits eq_refl) as He. vm_compute in He.
      injection He as <-. exact Hs.
Defined.

(** X11: the credits must be fetched although they are never used.  For a
    movie that is not stored, when the details are answered but the three
    attempts for the credits all fail, [addShow] stores no Movie and writes
    no Show, and answers [success: false] with
    [Failed to fetch movie from TMDB: ] and the message of the third error
    of the credits request. *)
Theorem addShow_credits_unavailable env st body n1 r1 :
  movies st !! movieId body = None →
  db_fault env (count_db (trace st)) = None →
  answers env (details_url (movieId body))
    (count_get (details_url (movieId body)) (trace st)) n1 r1 →
  (∀ k, ∃ e, http env (credits_url (movieId body)) k = inr e) →
  ∃ e st',
    addShow body env st = (Ret tt, st') ∧
    http env (credits_url (movieId body))
      (count_get (credits_url (movieId body)) (trace st) + 2)%nat = inr e ∧
    sent st' = sent st ++ [RFail ("Failed to fetch movie from TMDB: " +:+ message e)] ∧
    same_collections st st' ∧
    count_db (trace st') = S (count_db (trace st)).
Proof.
  intros Hnone Hdb (Hn1 & Hf1 & Hr1) Hfail.
  set (id := movieId body) in *.
  set (st0 := log_events [EvDb (OpFindMovieById id)] st).
  assert (∀ u, count_get u (trace st0) = count_get u (trace st)) as Hk.
  { intros u. unfold st0. rewrite trace_log_events, count_get_app. simpl. lia. }
  destruct (Hfail (count_get (credits_url id) (trace st) + 2)%nat) as [e He].
  assert (fetchWithRetry (details_url id) MAX_RETRIES env st0
          = (Ret (Some r1), log_events (fetch_events (details_url id) n1) st0)) as E1.
  { apply (fetchWithRetry_succeeds n1); [apply within_default; lia| |by rewrite Hk].
    intros j Hj. rewrite Hk. by apply Hf1. }
  assert (fetchWithRetry (credits_url id) MAX_RETRIES env
            (log_events (fetch_events (details_url id) n1) st0)
          = (Throw e, log_events (fetch_events (credits_url id) 2)
                        (log_events (fetch_events (details_url id) n1) st0))) as E2.
  { apply (fetchWithRetry_exhausts 2); [done|intros j _; apply Hfail|].
    rewrite trace_log_events, count_get_app.
    rewrite (count_get_fetch_events_other _ _ _ (details_credits_neq id)).
    by rewrite Nat.add_0_r, Hk. }
  exists e. eexists. split.
  { apply addShow_sync_fails; [done..|]. fold id. fold st0.
    unfold addShow_sync. apply addShow_sync_throw.
    erewrite bind_throw; [reflexivity|].
    eapply Promise_all2_throw_r; [exact E1|exact E2]. }
  split; [done|]. split; [done|]. split; [done|].
  change (trace (sync_failed e ?s)) with (trace s ++ [EvLog ("TMDB API Error: " +:+ message e)]).
  unfold st0.
  rewrite !trace_log_events, !count_db_app, !count_db_fetch_events. simpl. lia.
Qed.

Lemma addShow_credits_unavailable_witness :
  let env := {| http := λ url k, if String.eqb url (details_url "438631")
                                 then inl {| status := 200; data := dune_json |}
                                 else inr not_found;
                latency := λ _ _, 120;
                db_fault := λ _, None; now := april_2024; Date_parse := parse_utc;
     cast_id := λ _, inr refused; cast_price := λ _, inr refused |} in
  ∃ e st',
    addShow dune_request env empty_state = (Ret tt, st') ∧
    sent st' = [RFail ("Failed to fetch movie from TMDB: " +:+ message e)] ∧
    message e = "Request failed with status code 404" ∧
    same_collections empty_state st'.
Proof.
  intros env.
  destruct (addShow_credits_unavailable env empty_state dune_request 0%nat
              {| status := 200; data := dune_json |})
    as (e & st' & E & He & Hs & Hc & _).
  - reflexivity.
  - reflexivity.
  - split; [lia|]. split; [intros j Hj; lia|reflexivity].
  - intros k. exists not_found. reflexivity.
  - exists e, st'. split; [exact E|]. split; [exact Hs|]. split; [|exact Hc].
    injection He as <-. reflexivity.
Defined.

Lemma trace_add_sent r st : trace (add_sent r st) = trace st.
Proof. reflexivity. Qed.

Lemma trace_put_shows new st : trace (put_shows new st) = trace st.
Proof. reflexivity. Qed.

Lemma trace_put_movie doc st : trace (put_movie doc st) = trace st.
Proof. reflexivity. Qed.

(** The resolution step of a movie that is not stored, when it succeeds. *)
Lemma addShow_resolve_creates id env st n1 r1 n2 r2 :
  movies st !! id = None →
  db_fault env (count_db (trace st)) = None →
  db_fault env (S (count_db (trace st))) = None →
  answers env (details_url id) (count_get (details_url id) (trace st)) n1 r1 →
  answers env (credits_url id) (count_get (credits_url id) (trace st)) n2 r2 →
  readable (data r1) = true →
  addShow_resolve id env st
  = (Ret (Continue (normalized id (data r1))),
     put_movie (normalized id (data r1))
       (log_events ([EvDb (OpFindMovieById id)]
                    ++ fetch_events (details_url id) n1
                    ++ fetch_events (credits_url id) n2
                    ++ [EvDb (OpCreateMovie id)]) st)).
Proof.
  intros Hnone Hdb Hdb1 Ha1 Ha2 Hread.
  rewrite addShow_resolve_lookup by done. rewrite Hnone.
  rewrite (addShow_sync_creates id env _ n1 r1 n2 r2); try done.
  - by rewrite log_events_app.
  - rewrite trace_log_events, count_get_app. simpl. by rewrite Nat.add_0_r.
  - rewrite trace_log_events, count_get_app. simpl. by rewrite Nat.add_0_r.
  - rewrite trace_log_events, count_db_app. simpl. by rewrite Nat.add_1_r.
Qed.

Lemma count_db_resolve_creates id n1 n2 t :
  count_db (t ++ [EvDb (OpFindMovieById id)] ++ fetch_events (details_url id) n1
              ++ fetch_events (credits_url id) n2 ++ [EvDb (OpCreateMovie id)])
  = S (S (count_db t)).
Proof. rewrite !count_db_app, !count_db_fetch_events. simpl. lia. Qed.

(** X12: the creation of the Movie is not undone when the Shows cannot be
    written.  For a movie that is not stored, when the synchronisation
    succeeds and the store then fails the insert of the Shows with an error
    [e], [addShow] answers [success: false] with the message of [e] as it
    is, no Show is written, and the Movie that was just created stays
    stored. *)
Theorem addShow_keeps_movie_when_insert_fails env st body n1 r1 n2 r2 e :
  movies st !! movieId body = None →
  db_fault env (count_db (trace st)) = None →
  db_fault env (S (count_db (trace st))) = None →
  db_fault env (S (S (count_db (trace st)))) = Some e →
  answers env (details_url (movieId body))
    (count_get (details_url (movieId body)) (trace st)) n1 r1 →
  answers env (credits_url (movieId body))
    (count_get (credits_url (movieId body)) (trace st)) n2 r2 →
  readable (data r1) = true →
  schedule_pairs (showsInput body) ≠ [] →
  ∃ st',
    addShow body env st = (Ret tt, st') ∧
    sent st' = sent st ++ [RFail (message e)] ∧
    movies st' = <[movieId body := normalized (movieId body) (data r1)]> (movies st) ∧
    shows st' = shows st ∧ next_show_id st' = next_show_id st.
Proof.
  intros Hnone Hdb Hdb1 Hdb2 Ha1 Ha2 Hread Hne.
  eexists. split.
  { erewrite addShow_after_resolve;
      [|by apply (addShow_resolve_creates _ _ _ n1 r1 n2 r2)].
    erewrite try_catch_throw; cycle 1.
    { apply addShow_createShows_fault; [done|].
      change (trace (put_movie ?m ?s)) with (trace s).
      by rewrite trace_log_events, count_db_resolve_creates. }
    reflexivity. }
  done.
Qed.

Lemma addShow_keeps_movie_when_insert_fails_witness :
  let env := {| http := catalog;
                latency := λ _ _, 120;
                db_fault := λ k, if (k =? 2)%nat
                                 then Some (Error MongoServerError "connection closed")
                                 else None;
                now := april_2024; Date_parse := parse_utc;
     cast_id := λ _, inr refused; cast_price := λ _, inr refused |} in
  ∃ st',
    addShow dune_request env empty_state = (Ret tt, st') ∧
    sent st' = [RFail "connection closed"] ∧
    movies st' = <["438631" := dune]> ∅ ∧
    shows st' = [] ∧ next_show_id st' = 0%nat.
Proof.
  intros env.
  apply (addShow_keeps_movie_when_insert_fails env empty_state dune_request
           0%nat {| status := 200; data := dune_json |}
           0%nat {| status := 200; data := credits_json |}
           (Error MongoServerError "connection closed")).
  - reflexivity.
  - reflexivity.
  - reflexivity.
  - reflexivity.
  - split; [lia|]. split; [intros j Hj; lia|reflexivity].
  - split; [lia|]. split; [intros j Hj; lia|reflexivity].
  - reflexivity.
  - discriminate.
Defined.

(** X13: a failure of the store at the first call of a handler is answered
    with the message of the store's error and nothing else is done:
    [addShow] makes no request to the catalog and writes nothing, [getShows]
    and [getShow] answer [success: false] instead of a list. *)
Theorem store_failure_is_answered env st e :
  db_fault env (count_db (trace st)) = Some e →
  (∀ body,
     addShow body env st
     = (Ret tt,
        add_sent (RFail (message e))
          (log_events [EvDb (OpFindMovieById (movieId body));
                       EvLog ("addShow Error: " +:+ message e)] st))) ∧
  getShows env st
  = (Ret tt,
     add_sent (RFail (message e))
       (log_events [EvDb (OpFindShows None); EvLogError e] st)) ∧
  (∀ movieId,
     getShow movieId env st
     = (Ret tt,
        add_sent (RFail (message e))
          (log_events [EvDb (OpFindShows (Some movieId)); EvLogError e] st))).
Proof.
  intros Hdb. split; [|split].
  - intros body. unfold addShow. erewrite try_catch_throw; cycle 1.
    { erewrite bind_throw; [reflexivity|]. unfold addShow_resolve.
      erewrite bind_throw; [reflexivity|]. by apply Movie_findById_fault. }
    unfold bind, console_log, emit, res_json, log_event. by rewrite log_events_app.
  - unfold getShows, getShows_try. erewrite try_catch_throw; cycle 1.
    { erewrite bind_ret; [|reflexivity]. erewrite bind_throw; [reflexivity|].
      unfold Show_find. erewrite bind_throw; [reflexivity|]. by apply db_call_fault. }
    unfold bind, emit, res_json, log_event. by rewrite log_events_app.
  - intros movieId. unfold getShow, getShow_try. erewrite try_catch_throw; cycle 1.
    { erewrite bind_ret; [|reflexivity]. erewrite bind_throw; [reflexivity|].
      unfold Show_find. erewrite bind_throw; [reflexivity|]. by apply db_call_fault. }
    unfold bind, emit, res_json, log_event. by rewrite log_events_app.
Qed.

Lemma store_failure_is_answered_witness :
  let env := {| http := catalog;
                latency := λ _ _, 120;
                db_fault := λ k, Some (Error MongoServerError "connection closed");
                now := april_2024; Date_parse := parse_utc;
     cast_id := λ _, inr refused; cast_price := λ _, inr refused |} in
  sent (snd (addShow dune_request env listing_state)) = [RFail "connection closed"] ∧
  sent (snd (getShows env listing_state)) = [RFail "connection closed"] ∧
  sent (snd (getShow "438631" env listing_state)) = [RFail "connection closed"].
Proof.
  intros env.
  destruct (store_failure_is_answered env listing_state
              (Error MongoServerError "connection closed") eq_refl)
    as (Ha & Hs & Hg).
  rewrite (Ha dune_request), Hs, (Hg "438631"). done.
Defined.

(** X14: an add-show request for a movie that is not stored, from end to
    end, when the catalog answers both fetches, the details can be read,
    the dates of the schedule are valid and the store answers: the
    normalized Movie is stored under the identifier asked for, exactly one
    Show for each slot of the schedule is appended, in order, each
    referring to that identifier, and success is answered. *)
Theorem addShow_new_movie env st body n1 r1 n2 r2 :
  movies st !! movieId body = None →
  db_fault env (count_db (trace st)) = None →
  db_fault env (S (count_db (trace st))) = None →
  db_fault env (S (S (count_db (trace st)))) = None →
  answers env (details_url (movieId body))
    (count_get (details_url (movieId body)) (trace st)) n1 r1 →
  answers env (credits_url (movieId body))
    (count_get (credits_url (movieId body)) (trace st)) n2 r2 →
  readable (data r1) = true →
  schedule_pairs (showsInput body) ≠ [] →
  Forall (λ p, is_Some (Date_parse env (p.1 +:+ "T" +:+ p.2)))
         (schedule_pairs (showsInput body)) →
  ∃ new st',
    addShow body env st = (Ret tt, st') ∧
    sent st' = sent st ++ [ROkMessage "Show Added successfully."] ∧
    movies st' = <[movieId body := normalized (movieId body) (data r1)]> (movies st) ∧
    shows st' = shows st ++ new ∧
    Forall2 (λ s p, Date_parse env (p.1 +:+ "T" +:+ p.2) = Some (showDateTime s)
                    ∧ movie s = movieId body ∧ showPrice s = body_showPrice body
                    ∧ occupiedSeats s = ∅)
            new (schedule_pairs (showsInput body)) ∧
    (∀ s, s ∈ new → is_Some (movies st' !! movie s)) ∧
    count_get (details_url (movieId body)) (trace st')
    = (count_get (details_url (movieId body)) (trace st) + n1 + 1)%nat ∧
    count_get (credits_url (movieId body)) (trace st')
    = (count_get (credits_url (movieId body)) (trace st) + n2 + 1)%nat.
Proof.
  intros Hnone Hdb Hdb1 Hdb2 Ha1 Ha2 Hread Hne Hdates.
  set (id := movieId body) in *.
  set (st1 := put_movie (normalized id (data r1))
                (log_events ([EvDb (OpFindMovieById id)]
                             ++ fetch_events (details_url id) n1
                             ++ fetch_events (credits_url id) n2
                             ++ [EvDb (OpCreateMovie id)]) st)).
  destruct (addShow_createShows_writes id (showsInput body)
              (body_showPrice body) env st1 Hne Hdates) as (new & E & HF & Hid).
  { unfold st1. change (trace (put_movie ?m ?s)) with (trace s).
    by rewrite trace_log_events, count_db_resolve_creates. }
  exists new. eexists. split.
  { erewrite addShow_after_resolve;
      [|by apply (addShow_resolve_creates _ _ _ n1 r1 n2 r2)].
    apply try_catch_ret. exact E. }
  split; [done|]. split; [done|]. split; [done|]. split; [exact HF|].
  pose proof (details_credits_neq id) as Hneq.
  split; [|split].
  - intros s Hs. apply list_elem_of_lookup in Hs as [i Hi].
    destruct (Forall2_lookup_l _ _ _ i s HF Hi) as (p & _ & _ & Hmov & _).
    rewrite Hmov. simpl. rewrite lookup_insert_eq. eauto.
  - rewrite trace_add_sent, trace_put_shows, trace_log_events. unfold st1.
    rewrite trace_put_movie, trace_log_events.
    rewrite !count_get_app, count_get_fetch_events.
    rewrite (count_get_fetch_events_other _ (credits_url id)) by done. simpl. lia.
  - rewrite trace_add_sent, trace_put_shows, trace_log_events. unfold st1.
    rewrite trace_put_movie, trace_log_events.
    rewrite !count_get_app, count_get_fetch_events.
    rewrite (count_get_fetch_events_other _ (details_url id)) by done. simpl. lia.
Qed.

Lemma addShow_new_movie_witness :
  ∃ new st',
    addShow dune_request host empty_state = (Ret tt, st') ∧
    sent st' = [ROkMessage "Show Added successfully."] ∧
    movies st' = <["438631" := dune]> ∅ ∧
    shows st' = new ∧ length new = 3%nat ∧
    count_get (details_url "438631") (trace st') = 1%nat ∧
    count_get (credits_url "438631") (trace st') = 1%nat.
Proof.
  destruct (addShow_new_movie host empty_state dune_request
              0%nat {| status := 200; data := dune_json |}
              0%nat {| status := 200; data := credits_json |})
    as (new & st' & E & Hs & Hm & Hsh & HF & _ & Hc1 & Hc2).
  - reflexivity.
  - reflexivity.
  - reflexivity.
  - reflexivity.
  - split; [lia|]. split; [intros j Hj; lia|reflexivity].
  - split; [lia|]. split; [intros j Hj; lia|reflexivity].
  - reflexivity.
  - discriminate.
  - repeat constructor; vm_compute; eauto.
  - exists new, st'. split; [exact E|]. split; [exact Hs|]. split; [exact Hm|].
    split; [exact Hsh|]. split; [exact (Forall2_length _ _ _ HF)|].
    split; [exact Hc1|exact Hc2].
Defined.

(** Two batches written for the same slots hold the same instants. *)
Lemma same_slots_same_shows env id price (pairs : list (string * string))
    (new1 new2 : list Show) :
  Forall2 (λ s p, Date_parse env (p.1 +:+ "T" +:+ p.2) = Some (showDateTime s)
                  ∧ movie s = id ∧ showPrice s = price ∧ occupiedSeats s = ∅)
          new1 pairs →
  Forall2 (λ s p, Date_parse env (p.1 +:+ "T" +:+ p.2) = Some (showDateTime s)
                  ∧ movie s = id ∧ showPrice s = price ∧ occupiedSeats s = ∅)
          new2 pairs →
  map showDateTime new2 = map showDateTime new1 ∧ map movie new2 = map movie new1.
Proof.
  intros H1. revert new2. induction H1 as [|s1 p new1 pairs (Hd1 & Hm1 & _) _ IH];
    intros new2 H2.
  - by apply Forall2_nil_inv_r in H2 as ->.
  - apply Forall2_cons_inv_r in H2 as (s2 & new2' & (Hd2 & Hm2 & _) & H2 & ->).
    destruct (IH _ H2) as [IHd IHm]. simpl. split; f_equal; congruence.
Qed.

(** X15: [addShow] does not look for Shows that are already there.  The
    same request handled twice for a stored movie writes its slots twice:
    after the second run the collection holds two batches for the schedule,
    with the same movie and the same instants, under different identifiers. *)
Theorem addShow_twice_writes_twice env st body m :
  movies st !! movieId body = Some m →
  (∀ k, (k < 4)%nat → db_fault env (count_db (trace st) + k)%nat = None) →
  schedule_pairs (showsInput body) ≠ [] →
  Forall (λ p, is_Some (Date_parse env (p.1 +:+ "T" +:+ p.2)))
         (schedule_pairs (showsInput body)) →
  ∃ new1 new2 st1 st2,
    addShow body env st = (Ret tt, st1) ∧
    addShow body env st1 = (Ret tt, st2) ∧
    shows st2 = shows st ++ new1 ++ new2 ∧
    length new1 = length (schedule_pairs (showsInput body)) ∧
    map showDateTime new2 = map showDateTime new1 ∧
    map movie new2 = map movie new1 ∧
    map show_id new1
    = seq (next_show_id st) (length (schedule_pairs (showsInput body))) ∧
    map show_id new2
    = seq (next_show_id st + length (schedule_pairs (showsInput body)))
          (length (schedule_pairs (showsInput body))).
Proof.
  intros Hm Hdb Hne Hdates.
  set (id := movieId body) in *.
  set (L := length (schedule_pairs (showsInput body))).
  set (sa := log_events [EvDb (OpFindMovieById id)] st).
  destruct (addShow_createShows_writes id (showsInput body)
              (body_showPrice body) env sa Hne Hdates) as (new1 & E1 & HF1 & Hid1).
  { unfold sa. rewrite trace_log_events, count_db_app. simpl. apply Hdb. lia. }
  set (st1 := add_sent (ROkMessage "Show Added successfully.")
                (put_shows new1 (log_events [EvDb (OpInsertShows L)] sa))) in *.
  assert (count_db (trace st1) = (count_db (trace st) + 2)%nat) as Hk1.
  { unfold st1, sa. rewrite trace_add_sent, trace_put_shows, !trace_log_events.
    rewrite !count_db_app. simpl. lia. }
  set (sb := log_events [EvDb (OpFindMovieById id)] st1).
  destruct (addShow_createShows_writes id (showsInput body)
              (body_showPrice body) env sb Hne Hdates) as (new2 & E2 & HF2 & Hid2).
  { unfold sb. rewrite trace_log_events, count_db_app, Hk1. simpl.
    replace (count_db (trace st) + 2 + 1)%nat with (count_db (trace st) + 3)%nat by lia.
    apply Hdb. lia. }
  exists new1, new2, st1. eexists. split; [|split].
  - erewrite addShow_after_resolve; cycle 1.
    { apply addShow_resolve_cached; [|exact Hm].
      rewrite <- (Nat.add_0_r (count_db (trace st))). apply Hdb. lia. }
    apply try_catch_ret. exact E1.
  - erewrite addShow_after_resolve; cycle 1.
    { apply addShow_resolve_cached; [|exact Hm]. rewrite Hk1. apply Hdb. lia. }
    apply try_catch_ret. exact E2.
  - destruct (same_slots_same_shows _ _ _ _ _ _ HF1 HF2) as [Hd Hmv].
    split; [simpl; by rewrite <- app_assoc|].
    split; [exact (Forall2_length _ _ _ HF1)|].
    split; [exact Hd|]. split; [exact Hmv|]. split; [exact Hid1|].
    rewrite Hid2. simpl. f_equal. rewrite (Forall2_length _ _ _ HF1). done.
Qed.

Lemma addShow_twice_writes_twice_witness :
  let st := snd (addShow dune_request host empty_state) in
  ∃ new1 new2 st1 st2,
    addShow evening_first host st = (Ret tt, st1) ∧
    addShow evening_first host st1 = (Ret tt, st2) ∧
    shows st2 = shows st ++ new1 ++ new2 ∧
    length new1 = 2%nat ∧
    map showDateTime new2 = map showDateTime new1 ∧
    map show_id new1 = [3; 4]%nat ∧ map show_id new2 = [5; 6]%nat.
Proof.
  intros st.
  destruct (addShow_twice_writes_twice host st evening_first dune)
    as (new1 & new2 & st1 & st2 & E1 & E2 & Hsh & Hl & Hd & _ & Hi1 & Hi2).
  - vm_compute; reflexivity.
  - intros k Hk. reflexivity.
  - discriminate.
  - repeat constructor; vm_compute; eauto.
  - exists new1, new2, st1, st2. split; [exact E1|]. split; [exact E2|].
    split; [exact Hsh|]. split; [exact Hl|]. split; [exact Hd|].
    split; [exact Hi1|exact Hi2].
Defined.

(** ** The order of the listing *)

Lemma same_value_trans x y z :
  same_value x y = true → same_value y z = true → same_value x z = true.
Proof. rewrite !same_value_addr. congruence. Qed.

(** A Set built from a list is what it held and then the fresh elements of
    the list. *)
Lemma fold_Set_add_fresh l seen : fold_left Set_add l seen = seen ++ fresh seen l.
Proof.
  revert seen. induction l as [|x l IH]; intros seen; simpl.
  - by rewrite app_nil_r.
  - rewrite IH. unfold Set_add. destruct (existsb (same_value x) seen); [done|].
    by rewrite <- app_assoc.
Qed.

Lemma fresh_not_seen y seen l :
  y ∈ fresh seen l → existsb (same_value y) seen = false.
Proof.
  revert seen. induction l as [|x l IH]; intros seen; simpl.
  - by intros ?%elem_of_nil.
  - destruct (existsb (same_value x) seen) eqn:E; [apply IH|].
    intros [->|H]%elem_of_cons; [done|].
    apply IH in H. rewrite existsb_app in H. by apply orb_false_iff in H as [H _].
Qed.

Lemma fresh_not_last y x seen l :
  y ∈ fresh (seen ++ [x]) l → same_value y x = false.
Proof.
  intros H%fresh_not_seen. rewrite existsb_app in H.
  apply orb_false_iff in H as [_ H]. simpl in H. by rewrite orb_false_r in H.
Qed.

(** Of two elements of a Set the earlier one occurs in the list before any
    occurrence of the value of the later one. *)
Lemma fresh_order seen l i j x y :
  (i < j)%nat → fresh seen l !! i = Some x → fresh seen l !! j = Some y →
  ∃ p, l !! p = Some x ∧
       ∀ q y', l !! q = Some y' → same_value y y' = true → (p < q)%nat.
Proof.
  revert seen i j. induction l as [|x0 l IH]; intros seen i j Hij Hi Hj; [done|].
  simpl in Hi, Hj. destruct (existsb (same_value x0) seen) eqn:E.
  - destruct (IH seen i j Hij Hi Hj) as (p & Hp & Hq). exists (S p).
    split; [done|]. intros [|q] y' Hy' Hsame.
    + simpl in Hy'. injection Hy' as <-.
      apply existsb_same_value in E as (z & Hz & Hxz).
      assert (existsb (same_value y) seen = true) as E'.
      { apply existsb_same_value. exists z. split; [done|].
        by eapply same_value_trans. }
      rewrite (fresh_not_seen y seen l) in E'; [done|].
      by eapply list_elem_of_lookup_2.
    + apply (Hq q y') in Hsame; [lia|done].
  - destruct j as [|j]; [lia|]. simpl in Hj.
    assert (same_value y x0 = false) as Hyx0.
    { eapply fresh_not_last. by eapply list_elem_of_lookup_2. }
    destruct i as [|i].
    + simpl in Hi. injection Hi as <-. exists 0%nat. split; [done|].
      intros [|q] y' Hy' Hsame; [|lia].
      simpl in Hy'. injection Hy' as <-. congruence.
    + simpl in Hi. destruct (IH (seen ++ [x0]) i j) as (p & Hp & Hq); [lia|done..|].
      exists (S p). split; [done|]. intros [|q] y' Hy' Hsame.
      * simpl in Hy'. injection Hy' as <-. congruence.
      * apply (Hq q y') in Hsame; [lia|done].
Qed.

Lemma StronglySorted_lookup {A} (R : relation A) l p q a b :
  StronglySorted R l → (p < q)%nat → l !! p = Some a → l !! q = Some b → R a b.
Proof.
  intros Hl. revert p q. induction Hl as [|x l _ IH Hx]; intros p q Hpq Hp Hq; [done|].
  destruct q as [|q]; [lia|]. simpl in Hq. destruct p as [|p].
  - simpl in Hp. injection Hp as <-. rewrite Forall_forall in Hx.
    apply Hx. by eapply list_elem_of_lookup_2.
  - simpl in Hp. apply (IH p q); [lia|done..].
Qed.

(** X16: the listing of [getShows] is in the order of the first upcoming
    show.  When the store answers, of two movies of the answer the one
    listed first has an upcoming show that is not later than any upcoming
    show of the one listed after it. *)
Theorem getShows_lists_by_first_show env st :
  store_wf st →
  db_fault env (count_db (trace st)) = None →
  db_fault env (S (count_db (trace st))) = None →
  ∃ st' listed,
    getShows env st = (Ret tt, st') ∧
    sent st' = sent st ++ [ROkShows listed] ∧
    ∀ i j mi mj,
      (i < j)%nat → listed !! i = Some (Some mi) → listed !! j = Some (Some mj) →
      ∃ si, si ∈ shows st ∧ movie si = _id mi ∧ now env ≤ showDateTime si ∧
            ∀ sj, sj ∈ shows st → movie sj = _id mj → now env ≤ showDateTime sj →
                  showDateTime si ≤ showDateTime sj.
Proof.
  intros Hwf Hdb Hdb1.
  set (sorted := sort_by_showDateTime (List.filter (matches None (now env)) (shows st))).
  set (refs := map (ref_of (movies st)) sorted).
  exists (add_sent (ROkShows (map (fmap doc_value) (new_Set refs)))
            (log_events [EvDb (OpFindShows None); EvDb OpPopulateMovies] st)).
  exists (map (fmap doc_value) (new_Set refs)).
  split; [by apply getShows_answers|]. split; [done|].
  intros i j mi mj Hij Hi Hj. rewrite lookup_listed in Hi, Hj.
  destruct (new_Set refs !! i) as [x|] eqn:Ei; [|done].
  destruct (new_Set refs !! j) as [y|] eqn:Ej; [|done].
  simpl in Hi, Hj. injection Hi as Hi. injection Hj as Hj.
  unfold new_Set in Ei, Ej. rewrite fold_Set_add_fresh in Ei, Ej. simpl in Ei, Ej.
  destruct (fresh_order [] refs i j x y Hij Ei Ej) as (p & Hp & Hq).
  unfold refs in Hp.
  change (map (ref_of (movies st)) sorted) with (ref_of (movies st) <$> sorted) in Hp.
  rewrite list_lookup_fmap in Hp.
  destruct (sorted !! p) as [si|] eqn:Esi; [|done].
  simpl in Hp. injection Hp as Hp.
  assert (si ∈ shows st ∧ now env ≤ showDateTime si) as [Hsi Hup].
  { apply elem_of_upcoming_sorted. by eapply list_elem_of_lookup_2. }
  assert (movies st !! movie si = Some mi) as Hmi.
  { unfold ref_of in Hp. destruct (movies st !! movie si) as [m|]; [|by subst].
    subst x. simpl in Hi. by injection Hi as ->. }
  exists si. split; [done|]. split; [symmetry; by apply Hwf|]. split; [done|].
  intros sj Hsj Hmovj Hupj.
  assert (sj ∈ sorted) as Hin by (by apply elem_of_upcoming_sorted).
  apply list_elem_of_lookup in Hin as [q Eq].
  assert (∃ k, y = Some {| doc_addr := k; doc_value := mj |} ∧ movies st !! k = Some mj)
    as (k & -> & Hk).
  { assert (y ∈ refs) as Hy.
    { assert (y ∈ new_Set refs) as Hy'.
      { unfold new_Set. rewrite fold_Set_add_fresh. simpl.
        by eapply list_elem_of_lookup_2. }
      apply elem_of_fold_Set_add in Hy' as [[]%elem_of_nil|Hy']. done. }
    apply list_elem_of_fmap in Hy as (s & -> & _). unfold ref_of in *.
    destruct (movies st !! movie s) as [m|] eqn:Em; [|done].
    simpl in Hj. injection Hj as ->. eauto. }
  assert (k = movie sj) as ->.
  { rewrite Hmovj. symmetry. by apply Hwf. }
  assert (p < q)%nat as Hpq.
  { apply (Hq q (ref_of (movies st) sj)).
    - unfold refs.
      change (map (ref_of (movies st)) sorted) with (ref_of (movies st) <$> sorted).
      by rewrite list_lookup_fmap, Eq.
    - unfold ref_of. rewrite Hk. simpl. by apply bool_decide_eq_true. }
  apply (StronglySorted_lookup show_le sorted p q si sj); [|done..].
  apply StronglySorted_merge_sort; apply _.
Qed.

Lemma getShows_lists_by_first_show_witness :
  let st :=
    {| movies := <["438631" := dune]> (<["603" := matrix]> ∅);
       shows :=
         [{| show_id := 0; movie := "438631"; showDateTime := 1714586400000;
             showPrice := 25 # 2; occupiedSeats := ∅ |};
          {| show_id := 1; movie := "603"; showDateTime := 1714572000000;
             showPrice := 10; occupiedSeats := ∅ |}];
       next_show_id := 2; trace := []; sent := [] |} in
  ∃ st' listed,
    getShows host st = (Ret tt, st') ∧
    sent st' = [ROkShows listed] ∧ listed = [Some matrix; Some dune] ∧
    ∃ si, si ∈ shows st ∧ movie si = "603" ∧
          ∀ sj, sj ∈ shows st → movie sj = "438631" → now host ≤ showDateTime sj →
                showDateTime si ≤ showDateTime sj.
Proof.
  intros st.
  assert (store_wf st) as Hwf.
  { intros k m. simpl. rewrite !lookup_insert.
    repeat case_decide; first [by intros [= <-] | by rewrite lookup_empty]. }
  destruct (getShows_lists_by_first_show host st Hwf eq_refl eq_refl)
    as (st' & listed & E & Hs & Horder).
  assert (listed = [Some matrix; Some dune]) as Hl.
  { assert (sent st' = [ROkShows [Some matrix; Some dune]]) as Hs'.
    { replace st' with (snd (getShows host st)) by (by rewrite E).
      vm_compute. reflexivity. }
    rewrite Hs in Hs'. simpl in Hs'. by injection Hs' as ->. }
  exists st', listed. split; [exact E|]. split; [exact Hs|]. split; [exact Hl|].
  destruct (Horder 0%nat 1%nat matrix dune) as (si & Hsi & Hm & _ & Hle).
  - lia.
  - by rewrite Hl.
  - by rewrite Hl.
  - exists si. split; [exact Hsi|]. split; [exact Hm|]. exact Hle.
Defined.

(** ** The availability of a movie, bucket by bucket *)

Lemma get_bucket_elem d b (dateTime : list (string * list Slot)) :
  NoDup (map fst dateTime) → (d, b) ∈ dateTime ↔ get_bucket d dateTime = Some b.
Proof.
  induction dateTime as [|[k v] rest IH]; intros Hnd; simpl.
  - split; [by intros ?%elem_of_nil|done].
  - apply NoDup_cons in Hnd as [Hk Hnd]. specialize (IH Hnd).
    destruct (String.eqb k d) eqn:E.
    + apply String.eqb_eq in E as ->. split.
      * intros [[= ->]|H]%elem_of_cons; [done|].
        exfalso. apply Hk. apply list_elem_of_fmap. by exists (d, b).
      * intros [= ->]. apply list_elem_of_here.
    + rewrite <- IH. split.
      * intros [[= -> ->]|H]%elem_of_cons; [|done]. by rewrite String.eqb_refl in E.
      * apply list_elem_of_further.
Qed.

Lemma total_slots_app l1 l2 : total_slots (l1 ++ l2) = (total_slots l1 + total_slots l2)%nat.
Proof. unfold total_slots. by rewrite map_app, sum_list_with_app. Qed.

Lemma total_slots_push k x dateTime :
  is_Some (get_bucket k dateTime) →
  total_slots (push_bucket k x dateTime) = S (total_slots dateTime).
Proof.
  induction dateTime as [|[k' v] rest IH]; simpl; [by intros [? ?]|].
  destruct (String.eqb k' k); intros H.
  - unfold total_slots. simpl. rewrite length_app. simpl. lia.
  - unfold total_slots in *. simpl. rewrite IH by done. lia.
Qed.

Lemma total_slots_group_step dateTime show :
  total_slots (group_step dateTime show) = S (total_slots dateTime).
Proof.
  unfold group_step. destruct (get_bucket _ dateTime) eqn:E.
  - rewrite total_slots_push; [done|by rewrite E].
  - rewrite total_slots_push.
    + rewrite total_slots_app. unfold total_slots at 2. simpl. lia.
    + rewrite get_bucket_new, E, String.eqb_refl. eauto.
Qed.

Lemma total_slots_fold ss acc :
  total_slots (fold_left group_step ss acc) = (total_slots acc + length ss)%nat.
Proof.
  revert acc. induction ss as [|s ss IH]; intros acc; simpl; [lia|].
  rewrite IH, total_slots_group_step. lia.
Qed.

Lemma slots_on_iso_date d ss :
  slots_on d ss
  = map slot_of (List.filter (λ s, String.eqb (iso_date (showDateTime s)) d) ss).
Proof.
  unfold slots_on. f_equal. apply filter_ext. intros s.
  by rewrite date_key_iso_date.
Qed.

Lemma elem_of_matches id since (ss : list Show) s :
  s ∈ List.filter (matches (Some id) since) ss
  ↔ s ∈ ss ∧ movie s = id ∧ since ≤ showDateTime s.
Proof.
  rewrite list_elem_of_In, filter_In, <- list_elem_of_In. unfold matches.
  rewrite andb_true_iff, bool_decide_eq_true, Z.leb_le. tauto.
Qed.

(** X17: what the availability of a movie holds.  When the store answers
    and the dates can be printed, [getShow] answers the stored Movie (or
    [null]) and an object with exactly one key for each UTC date
    [YYYY-MM-DD] on which the movie has an upcoming show; under a date it
    lists the instant and the identifier of exactly the upcoming shows of
    the movie on that date, in the order of the store; no bucket is empty,
    every upcoming show of the movie is in the bucket of its date, and the
    buckets hold as many slots in all as the movie has upcoming shows: past
    shows and shows of other movies are nowhere. *)
Theorem getShow_groups_upcoming_shows env st id :
  db_fault env (count_db (trace st)) = None →
  db_fault env (S (count_db (trace st))) = None →
  let upcoming := List.filter (matches (Some id) (now env)) (shows st) in
  Forall (λ s, in_range (showDateTime s) = true) upcoming →
  ∃ st' dateTime,
    getShow id env st = (Ret tt, st') ∧
    sent st' = sent st ++ [ROkShow (movies st !! id) dateTime] ∧
    (∀ s, s ∈ upcoming ↔ s ∈ shows st ∧ movie s = id ∧ now env ≤ showDateTime s) ∧
    NoDup (map fst dateTime) ∧
    (∀ d b, (d, b) ∈ dateTime ↔
       b ≠ [] ∧
       b = map slot_of
             (List.filter (λ s, String.eqb (iso_date (showDateTime s)) d) upcoming)) ∧
    (∀ s, s ∈ upcoming →
       ∃ b, (iso_date (showDateTime s), b) ∈ dateTime ∧ slot_of s ∈ b) ∧
    total_slots dateTime = length upcoming.
Proof.
  intros Hdb Hdb1 upcoming Hrange.
  exists (add_sent (ROkShow (movies st !! id) (group_by_date upcoming))
            (log_events [EvDb (OpFindShows (Some id)); EvDb (OpFindMovieById id)] st)).
  exists (group_by_date upcoming).
  split; [by apply getShow_answers|]. split; [done|].
  split; [intros s; apply elem_of_matches|].
  pose proof (NoDup_keys_group_by_date upcoming) as Hnd.
  split; [exact Hnd|].
  assert (∀ d b, (d, b) ∈ group_by_date upcoming ↔
            b ≠ [] ∧
            b = map slot_of
                  (List.filter (λ s, String.eqb (iso_date (showDateTime s)) d) upcoming))
    as Hbuckets.
  { intros d b. rewrite (get_bucket_elem _ _ _ Hnd), get_bucket_group_by_date.
    rewrite <- slots_on_iso_date. destruct (slots_on d upcoming) eqn:E.
    - split; [done|]. by intros [? ->].
    - split; [by intros [= <-]|]. by intros [_ ->]. }
  split; [exact Hbuckets|]. split.
  - intros s Hs.
    exists (map slot_of
              (List.filter (λ s', String.eqb (iso_date (showDateTime s'))
                                    (iso_date (showDateTime s))) upcoming)).
    assert (slot_of s ∈ map slot_of
              (List.filter (λ s', String.eqb (iso_date (showDateTime s'))
                                    (iso_date (showDateTime s))) upcoming)) as Hin.
    { apply list_elem_of_fmap. exists s. split; [done|].
      apply list_elem_of_In, filter_In. split; [by apply list_elem_of_In|].
      apply String.eqb_refl. }
    split; [|exact Hin]. apply Hbuckets. split; [|done].
    intros Hnil. rewrite Hnil in Hin. by apply elem_of_nil in Hin.
  - unfold group_by_date. rewrite total_slots_fold. done.
Qed.

Lemma getShow_groups_upcoming_shows_witness :
  let upcoming := List.filter (matches (Some "438631") (now host)) (shows listing_state) in
  ∃ st' dateTime,
    getShow "438631" host listing_state = (Ret tt, st') ∧
    sent st' = [ROkShow (Some dune) dateTime] ∧
    NoDup (map fst dateTime) ∧
    total_slots dateTime = 2%nat ∧
    (∀ d b, (d, b) ∈ dateTime ↔
       b ≠ [] ∧
       b = map slot_of
             (List.filter (λ s, String.eqb (iso_date (showDateTime s)) d) upcoming)).
Proof.
  intros upcoming.
  destruct (getShow_groups_upcoming_shows host listing_state "438631" eq_refl eq_refl)
    as (st' & dateTime & E & Hs & _ & Hnd & Hb & _ & Ht).
  - repeat constructor.
  - exists st', dateTime. split; [exact E|]. split; [exact Hs|]. split; [exact Hnd|].
    split; [exact Ht|exact Hb].
Defined.

Lemma StronglySorted_map_filter {A} (f : A → bool) (g : A → Z) (l : list A) :
  StronglySorted Z.le (map g l) → StronglySorted Z.le (map g (List.filter f l)).
Proof.
  induction l as [|x l IH]; simpl; [done|].
  intros [Hl Hx]%StronglySorted_inv. destruct (f x); [|by apply IH].
  simpl. constructor; [by apply IH|].
  rewrite Forall_forall in Hx |- *. intros y Hy. apply Hx.
  apply list_elem_of_fmap in Hy as (a & -> & Ha). apply list_elem_of_fmap.
  exists a. split; [done|].
  apply list_elem_of_In in Ha. apply filter_In in Ha as [Ha _].
  by apply list_elem_of_In.
Qed.

(** X18: the entries of a date bucket are in ascending order of time
    whenever the store returns the upcoming shows of the movie in ascending
    order of time; [getShow] keeps the order it is given. *)
Theorem getShow_buckets_sorted_when_stored_sorted env st id :
  db_fault env (count_db (trace st)) = None →
  db_fault env (S (count_db (trace st))) = None →
  let upcoming := List.filter (matches (Some id) (now env)) (shows st) in
  Forall (λ s, in_range (showDateTime s) = true) upcoming →
  StronglySorted Z.le (map showDateTime upcoming) →
  ∃ st' dateTime,
    getShow id env st = (Ret tt, st') ∧
    sent st' = sent st ++ [ROkShow (movies st !! id) dateTime] ∧
    ∀ d b, (d, b) ∈ dateTime → StronglySorted Z.le (map slot_time b).
Proof.
  intros Hdb Hdb1 upcoming Hrange Hsorted.
  exists (add_sent (ROkShow (movies st !! id) (group_by_date upcoming))
            (log_events [EvDb (OpFindShows (Some id)); EvDb (OpFindMovieById id)] st)).
  exists (group_by_date upcoming).
  split; [by apply getShow_answers|]. split; [done|].
  intros d b Hb.
  apply (get_bucket_elem _ _ _ (NoDup_keys_group_by_date upcoming)) in Hb.
  rewrite get_bucket_group_by_date in Hb.
  assert (b = slots_on d upcoming) as ->.
  { destruct (slots_on d upcoming); [done|]. by injection Hb as <-. }
  unfold slots_on. rewrite map_map. simpl.
  by apply StronglySorted_map_filter.
Qed.

Lemma getShow_buckets_sorted_when_stored_sorted_witness :
  let st := snd (addShow dune_request host empty_state) in
  ∃ st' dateTime,
    getShow "438631" host st = (Ret tt, st') ∧
    sent st' = sent st ++ [ROkShow (movies st !! "438631") dateTime] ∧
    ∀ d b, (d, b) ∈ dateTime → StronglySorted Z.le (map slot_time b).
Proof.
  intros st.
  assert (List.filter (matches (Some "438631") (now host)) (shows st)
          = [{| show_id := 0; movie := "438631"; showDateTime := 1714572000000;
                showPrice := 25 # 2; occupiedSeats := ∅ |};
             {| show_id := 1; movie := "438631"; showDateTime := 1714586400000;
                showPrice := 25 # 2; occupiedSeats := ∅ |};
             {| show_id := 2; movie := "438631"; showDateTime := 1714680000000;
                showPrice := 25 # 2; occupiedSeats := ∅ |}]) as Hup
    by (vm_compute; reflexivity).
  apply (getShow_buckets_sorted_when_stored_sorted host st "438631").
  - vm_compute; reflexivity.
  - vm_compute; reflexivity.
  - rewrite Hup. repeat constructor.
  - rewrite Hup. simpl. repeat constructor; lia.
Defined.

Lemma filter_matches_past of_movie since (ss : list Show) :
  (∀ s, s ∈ ss → showDateTime s < since) →
  List.filter (matches of_movie since) ss = [].
Proof.
  induction ss as [|s ss IH]; intros Hpast; [done|]. simpl.
  assert (matches of_movie since s = false) as ->.
  { unfold matches. apply andb_false_iff. right. apply Z.leb_gt.
    apply Hpast, list_elem_of_here. }
  apply IH. intros s' Hs'. apply Hpast. by apply list_elem_of_further.
Qed.

(** X19: when no stored show is upcoming (all lie in the past, or there is
    none), [getShows] answers [success: true] with an empty list, and
    [getShow] answers [success: true] with the stored Movie (or [null]) and
    an empty [dateTime]: neither is an error. *)
Theorem nothing_upcoming_is_success env st :
  db_fault env (count_db (trace st)) = None →
  db_fault env (S (count_db (trace st))) = None →
  (∀ s, s ∈ shows st → showDateTime s < now env) →
  (∃ st', getShows env st = (Ret tt, st') ∧ sent st' = sent st ++ [ROkShows []]) ∧
  (∀ id, ∃ st', getShow id env st = (Ret tt, st')
                ∧ sent st' = sent st ++ [ROkShow (movies st !! id) []]).
Proof.
  intros Hdb Hdb1 Hpast. split.
  - eexists. split; [by apply getShows_answers|].
    by rewrite (filter_matches_past _ _ _ Hpast).
  - intros id. eexists. split.
    + apply getShow_answers; [done..|].
      rewrite (filter_matches_past _ _ _ Hpast). constructor.
    + by rewrite (filter_matches_past _ _ _ Hpast).
Qed.

Lemma nothing_upcoming_is_success_witness :
  let env := {| http := catalog; latency := λ _ _, 120; db_fault := λ _, None;
                now := 1720000000000; Date_parse := parse_utc;
     cast_id := λ _, inr refused; cast_price := λ _, inr refused |} in
  (∃ st', getShows env listing_state = (Ret tt, st') ∧ sent st' = [ROkShows []]) ∧
  (∃ st', getShow "438631" env listing_state = (Ret tt, st')
          ∧ sent st' = [ROkShow (Some dune) []]).
Proof.
  intros env.
  destruct (nothing_upcoming_is_success env listing_state eq_refl eq_refl) as [H1 H2].
  - intros s Hs. simpl in Hs.
    repeat (apply elem_of_cons in Hs as [->|Hs]; [simpl; lia|]).
    by apply elem_of_nil in Hs.
  - split; [exact H1|exact (H2 "438631")].
Defined.

(** ** Requests handled one after the other *)

Lemma answers_once_handle req : answers_once (handle req).
Proof.
  destruct req; simpl;
    [apply answers_once_getNowPlayingMovies | apply answers_once_addShow
    | apply answers_once_getShows | apply answers_once_getShow].
Qed.

Lemma handle_store_wf req : preserves store_wf (handle req).
Proof.
  destruct handlers_keep_store_wf as (H1 & H2 & H3 & H4).
  destruct req; simpl; [exact H1 | apply H2 | exact H3 | apply H4].
Qed.

(** X20: however many requests arrive and whatever the world does, when
    they are handled one after the other each request gets exactly one
    answer (after [n] requests there are [n] more answers), nothing stored
    or answered before is lost, and every Movie is still stored under its
    own identifier. *)
Theorem serve_answers_every_request reqs st :
  length (sent (serve reqs st)) = (length (sent st) + length reqs)%nat ∧
  extends st (serve reqs st) ∧
  (store_wf st → store_wf (serve reqs st)).
Proof.
  revert st. induction reqs as [|[env req] reqs IH]; intros st; simpl.
  - split; [lia|]. split; [done|done].
  - destruct (IH (snd (handle req env st))) as (Hlen & Hext & Hwf).
    destruct (answers_once_handle req env st) as (r & st' & E & Hs).
    rewrite E in *. simpl in *. split; [|split].
    + rewrite Hlen, Hs, length_app. simpl. lia.
    + etrans; [|exact Hext]. pose proof (handle_extends req env st) as H.
      by rewrite E in H.
    + intros Hst. apply Hwf. pose proof (handle_store_wf req env st Hst) as H.
      by rewrite E in H.
Qed.

(** ** The add-show request with a body of another shape *)

(** The requests of the examples: no body at all, an empty object, and a
    body without a schedule. *)
Example addShow_request_no_body :
  sent (snd (addShow_request JUndefined host empty_state))
  = [RFail "Cannot destructure property 'movieId' of 'req.body' as it is undefined."].
Proof. reflexivity. Qed.

Example addShow_request_empty_object :
  let st' := snd (addShow_request (JObj []) host empty_state) in
  sent st' = [RFail "Failed to fetch movie from TMDB: Request failed with status code 404"]
  ∧ count_get (details_url "undefined") (trace st') = 3%nat
  ∧ movies st' = ∅ ∧ shows st' = [].
Proof. by vm_compute. Qed.

(** The delay the loop would log at its 61st failed attempt, and the first
    two. *)
Example Number_toString_delays :
  Number_toString (inject_Z (RETRY_DELAY * 2 ^ 0)) = "1000"
  ∧ Number_toString (inject_Z (RETRY_DELAY * 2 ^ 1)) = "2000"
  ∧ Number_toString (inject_Z (RETRY_DELAY * 2 ^ 60)) = "1.152921504606847e+21"
  ∧ Number_toString (5 # 2) = "2.5".
Proof. by vm_compute. Qed.

(** X21: the schedule is read only after the movie has been resolved.  For
    a request whose [showsInput] is not an array (missing, [null], a
    string, an object, ...) and whose movie is not stored, when the
    catalog answers both fetches, the details can be read and the store
    answers: the Movie is fetched and stored, then [showsInput.forEach]
    throws a TypeError, which is answered as [success: false] with its
    message; no Show is written, and the Movie stays stored. *)
Theorem addShow_request_schedule_not_array env st id showsInput showPrice n1 r1 n2 r2 e :
  forEach_of showsInput "showsInput" = inr e →
  movies st !! id = None →
  db_fault env (count_db (trace st)) = None →
  db_fault env (S (count_db (trace st))) = None →
  answers env (details_url id) (count_get (details_url id) (trace st)) n1 r1 →
  answers env (credits_url id) (count_get (credits_url id) (trace st)) n2 r2 →
  readable (data r1) = true →
  ∃ st',
    addShow_request
      (JObj [("movieId", JStr id); ("showsInput", showsInput); ("showPrice", showPrice)])
      env st = (Ret tt, st') ∧
    sent st' = sent st ++ [RFail (message e)] ∧
    err_name e = TypeError ∧
    movies st' = <[id := normalized id (data r1)]> (movies st) ∧
    shows st' = shows st ∧ next_show_id st' = next_show_id st.
Proof.
  intros Hschedule Hnone Hdb Hdb1 Hans1 Hans2 Hread.
  set (st0 := log_events [EvDb (OpFindMovieById id)] st).
  assert (∀ u, count_get u (trace st0) = count_get u (trace st)) as Hk.
  { intros u. unfold st0. rewrite trace_log_events, count_get_app. simpl. lia. }
  assert (count_db (trace st0) = S (count_db (trace st))) as Hd.
  { unfold st0. rewrite trace_log_events, count_db_app. simpl. lia. }
  pose proof (addShow_sync_creates id env st0 n1 r1 n2 r2) as Esync.
  rewrite !Hk, Hd in Esync. specialize (Esync Hnone Hans1 Hans2 Hread Hdb1).
  eexists. split.
  { unfold addShow_request.
    erewrite try_catch_throw; [reflexivity|].
    rewrite (addShow_request_try_eq _ (JStr id) showsInput showPrice) by reflexivity.
    change (Movie_findById_json (JStr id)) with (Movie_findById id).
    rewrite (bind_ret _ _ _ _ _ _ (Movie_findById_ok id env st Hdb)).
    rewrite Hnone. fold st0.
    erewrite bind_ret; cycle 1.
    { rewrite addShow_sync_expected. exact Esync. }
    unfold addShow_createShows_json, build_showsToCreate_json.
    rewrite Hschedule. reflexivity. }
  split; [done|]. split; [|done].
  destruct showsInput; simpl in Hschedule; by simplify_eq.
Qed.

Lemma addShow_request_schedule_not_array_witness :
  ∃ st',
    addShow_request
      (JObj [("movieId", JStr "438631"); ("showsInput", JUndefined);
             ("showPrice", JNum (25 # 2))])
      host empty_state = (Ret tt, st') ∧
    sent st' = [RFail "Cannot read properties of undefined (reading 'forEach')"] ∧
    movies st' !! "438631" = Some dune ∧
    shows st' = [].
Proof.
  destruct (addShow_request_schedule_not_array host empty_state "438631" JUndefined
              (JNum (25 # 2)) 0 {| status := 200; data := dune_json |}
              0 {| status := 200; data := credits_json |}
              (Error TypeError "Cannot read properties of undefined (reading 'forEach')"))
    as (st' & E & Hs & _ & Hm & Hsh & _).
  - reflexivity.
  - reflexivity.
  - reflexivity.
  - reflexivity.
  - split; [lia|]. split; [intros j Hj; lia|reflexivity].
  - split; [lia|]. split; [intros j Hj; lia|reflexivity].
  - reflexivity.
  - exists st'. split; [exact E|]. split; [exact Hs|]. split; [|exact Hsh].
    rewrite Hm. apply lookup_insert_eq.
Defined.
